(** * Othello: the move-legality and capture engine, and the turn controller

    A shallow embedding of [othello.js] (both variants of the program share
    the functions modelled here; they differ in [Othello.SIZE] and in the
    networking glue, which is not modelled).

    Conventions of the embedding.
    - [Othello.SIZE] is a static field that the README invites the user to
      edit; it is the section variable [SIZE], an integer.
    - A JavaScript array is modelled by its integer-keyed properties, a
      [gmap Z _]: reading a missing key gives [undefined], writing any key
      stores it.  The [length] of an array is never read by the functions
      modelled here.
    - A thrown exception is the [Throw] outcome of the [Outcome] monad.  The
      [while] loops are run with an iteration budget; exhausting the budget
      is the [Diverge] outcome, and the theorems below show which budgets
      are never exhausted. *)

From Stdlib Require Import ZArith QArith Qround String Ascii List Lia Bool.
From stdpp Require Import base tactics option list gmap strings.

Local Open Scope Z_scope.

(** ** Colors, cells and JavaScript values *)

(** [Color.BLACK] and [Color.WHITE]: the only two instances of [Color]. *)
Inductive Color := BLACK | WHITE.

#[global] Instance Color_eq_dec : EqDecision Color.
Proof. solve_decision. Defined.

(** [Color.abbreviation()] *)
Definition abbreviation (c : Color) : string :=
  match c with BLACK => "B" | WHITE => "W" end.

(** [color === Color.BLACK ? Color.WHITE : Color.BLACK] *)
Definition otherColor (c : Color) : Color :=
  match c with BLACK => WHITE | WHITE => BLACK end.

(** What a board position holds: [null] or a [Color]. *)
Inductive Cell := Null | Piece (c : Color).

#[global] Instance Cell_eq_dec : EqDecision Cell.
Proof. solve_decision. Defined.

(** The values the local variable [val] of [checkForClosure] ranges over:
    the number it is initialised with, [undefined] (a read outside a row),
    [null] and the colors. *)
Inductive Value := VNum (n : Z) | VUndefined | VNull | VColor (c : Color).

#[global] Instance Value_eq_dec : EqDecision Value.
Proof. solve_decision. Defined.

Definition valueOfCell (x : Cell) : Value :=
  match x with Null => VNull | Piece c => VColor c end.

(** [v !== w], strict inequality of two values, as a boolean. *)
Definition strictNe (v w : Value) : bool := bool_decide (v ≠ w).

(** ** Exceptions and the outcome monad *)

Inductive Exn :=
| TypeError
| RangeError
| CoordinateParseException (message : string)
| BoardOutOfBoundsException (message : string).

Inductive Outcome (A : Type) :=
| Ret (a : A)
| Throw (e : Exn)
| Diverge.
Arguments Ret {A} a.
Arguments Throw {A} e.
Arguments Diverge {A}.

#[global] Instance Outcome_ret : MRet Outcome := @Ret.
#[global] Instance Outcome_bind : MBind Outcome := fun A B f m =>
  match m with
  | Ret a => f a
  | Throw e => Throw e
  | Diverge => Diverge
  end.

(** [while (cond) body], run for at most [budget] iterations. *)
Fixpoint while {S : Type} (budget : nat) (cond : S -> bool)
    (body : S -> Outcome S) (s : S) : Outcome S :=
  if cond s then
    match budget with
    | O => Diverge
    | Datatypes.S n => s' ← body s; while n cond body s'
    end
  else Ret s.

(** ** Coordinates and the board *)

(** [class Coordinate] *)
Record Coordinate := mkCoordinate { row : Z; col : Z }.

#[global] Instance Coordinate_eq_dec : EqDecision Coordinate.
Proof. solve_decision. Defined.

(** [class Board]: [size] and the array of rows [positions]. *)
Record Board := mkBoard { size : Z; positions : gmap Z (gmap Z Cell) }.

(** [new Array(n).fill(v)] for an accepted length [n]: keys [0 .. n-1]. *)
Fixpoint filled {A : Type} (n : nat) (v : A) : gmap Z A :=
  match n with
  | O => ∅
  | Datatypes.S k => <[Z.of_nat k := v]> (filled k v)
  end.

(** [new Array(n)] throws a [RangeError] unless [n] is an array length. *)
Definition newArray {A : Type} (n : Z) (v : A) : Outcome (gmap Z A) :=
  if (n <? 0) || (2 ^ 32 <=? n) then Throw RangeError
  else Ret (filled (Z.to_nat n) v).

(** [new Board(size)]: [new Array(size).fill(null)], then [map] replaces
    every entry by a row [new Array(size).fill(null)]; the callback runs
    only for a length the first allocation has accepted. *)
Definition newBoard (n : Z) : Outcome Board :=
  nulls ← newArray n Null;
  mret (mkBoard n ((fun _ : Cell => filled (Z.to_nat n) Null) <$> nulls)).

(** [board.positions[r][c]] as an expression: indexing the missing row
    [undefined] throws, a missing column reads [undefined]. *)
Definition readPosition (b : Board) (r c : Z) : Outcome Value :=
  match positions b !! r with
  | None => Throw TypeError
  | Some cells =>
      Ret (match cells !! c with
           | None => VUndefined
           | Some x => valueOfCell x
           end)
  end.

(** [board.positions[r][c] = color] *)
Definition writePosition (b : Board) (r c : Z) (color : Color) : Outcome Board :=
  match positions b !! r with
  | None => Throw TypeError
  | Some cells =>
      Ret (mkBoard (size b) (<[r := <[c := Piece color]> cells]> (positions b)))
  end.

(** The eight compass directions of [Othello.DIRECTIONS].  The [default]
    branches of the two [switch] statements are reached only by a string
    outside this list, which no caller passes. *)
Inductive Direction :=
| Left | LeftUp | Up | RightUp | Right | RightDown | Down | LeftDown.

#[global] Instance Direction_eq_dec : EqDecision Direction.
Proof. solve_decision. Defined.

Definition directionName (d : Direction) : string :=
  match d with
  | Left => "left" | LeftUp => "left-up" | Up => "up" | RightUp => "right-up"
  | Right => "right" | RightDown => "right-down" | Down => "down"
  | LeftDown => "left-down"
  end.

Definition DIRECTIONS : list Direction :=
  [Left; LeftUp; Up; RightUp; Right; RightDown; Down; LeftDown].

(** A closure: [{ direction, start, end, flipCount }], where [start] and
    [end] are the pairs [[col, row]]. *)
Record Closure := mkClosure {
  direction : Direction;
  start : Z * Z;
  end_ : Z * Z;
  flipCount : Z
}.

#[global] Instance Closure_eq_dec : EqDecision Closure.
Proof. solve_decision. Defined.

(** ** Numbers and parseInt *)

(** A JavaScript number as far as [parseCoordinate] needs it: an integer
    or [NaN]. *)
Inductive Number := NaN | Num (z : Z).

#[global] Instance Number_eq_dec : EqDecision Number.
Proof. solve_decision. Defined.

(** [x - k], [x < k] and [x > k] for an integer [k]; every comparison with
    [NaN] is false. *)
Definition numSub (x : Number) (k : Z) : Number :=
  match x with NaN => NaN | Num z => Num (z - k) end.
Definition numLt (x : Number) (k : Z) : bool :=
  match x with NaN => false | Num z => z <? k end.
Definition numGt (x : Number) (k : Z) : bool :=
  match x with NaN => false | Num z => k <? z end.

Definition codeOf (a : ascii) : Z := Z.of_nat (nat_of_ascii a).

(** Tokens are strings of code units below 256; the white space among
    those: TAB, LF, VT, FF, CR, SP and NBSP. *)
Definition isWhiteSpace (a : ascii) : bool :=
  let c := codeOf a in
  ((9 <=? c) && (c <=? 13)) || (c =? 32) || (c =? 160).

Fixpoint trimStart (s : string) : string :=
  match s with
  | EmptyString => EmptyString
  | String a s' => if isWhiteSpace a then trimStart s' else s
  end.

(** The value of a digit: [0-9], [a-z] and [A-Z]. *)
Definition digitValue (a : ascii) : option Z :=
  let c := codeOf a in
  if (48 <=? c) && (c <=? 57) then Some (c - 48)
  else if (97 <=? c) && (c <=? 122) then Some (c - 87)
  else if (65 <=? c) && (c <=? 90) then Some (c - 55)
  else None.

(** The longest prefix of radix-[R] digits, read as a number; [NaN] when
    the prefix is empty. *)
Fixpoint readDigits (R : Z) (s : string) (acc : Number) : Number :=
  match s with
  | EmptyString => acc
  | String a s' =>
      match digitValue a with
      | Some v =>
          if v <? R
          then readDigits R s'
                 (Num (match acc with NaN => v | Num z => z * R + v end))
          else acc
      | None => acc
      end
  end.

(** [parseInt(s)] with no radix: leading white space, a sign, a [0x] or
    [0X] prefix for radix 16, then digits.  The result is the mathematical
    integer (exact below 2^53; the strings parsed here have at most two
    characters). *)
Definition parseInt (s : string) : Number :=
  let s1 := trimStart s in
  let '(sign, s2) :=
    match s1 with
    | String "-" r => (-1, r)
    | String "+" r => (1, r)
    | _ => (1, s1)
    end in
  let '(R, s3) :=
    match s2 with
    | String "0" (String "x" r) => (16, r)
    | String "0" (String "X" r) => (16, r)
    | _ => (10, s2)
    end in
  match readDigits R s3 NaN with
  | NaN => NaN
  | Num z => Num (sign * z)
  end.

(** [s.slice(1)] and [s.slice(0, 1).charCodeAt(0)] *)
Definition sliceFrom1 (s : string) : string :=
  match s with EmptyString => EmptyString | String _ s' => s' end.
Definition firstCharCode (s : string) : Number :=
  match s with EmptyString => NaN | String a _ => Num (codeOf a) end.

(** What [parseCoordinate] hands to [new Coordinate(row, col)]: numbers
    that may be [NaN]. *)
Record ParsedCoordinate := mkParsed { parsedRow : Number; parsedCol : Number }.

(** The property [flipCount] of a [Coordinate] object: it has none, the
    read gives [undefined], here [None]. *)
Definition flipCountOf (c : Coordinate) : option Z := None.

(** [x > y] and [x === y] on a number or [undefined]. *)
Definition gtProperty (x y : option Z) : bool :=
  match x, y with Some a, Some b => b <? a | _, _ => false end.
Definition strictEqProperty (x y : option Z) : bool := bool_decide (x = y).

(** The selection loop of the automatic move, over [validMoves]. *)
Fixpoint bestMovesLoop (validMoves : list Coordinate) (bestMove : Coordinate)
    (bestMoves : list Coordinate) : Coordinate * list Coordinate :=
  match validMoves with
  | [] => (bestMove, bestMoves)
  | m :: rest =>
      if gtProperty (flipCountOf m) (flipCountOf bestMove)
      then bestMovesLoop rest m (bestMoves ++ [m])
      else if strictEqProperty (flipCountOf m) (flipCountOf bestMove)
      then bestMovesLoop rest bestMove (bestMoves ++ [m])
      else bestMovesLoop rest bestMove bestMoves
  end.

(** The state the turn controller keeps: the board, the scores
    [(black, white)] and the player to move. *)
Record Game := mkGame {
  board : Board;
  scores : Z * Z;
  curPlayer : Color
}.

(** What one iteration of the loop of [play] reports. *)
Inductive Winner := Tie | Wins (c : Color).
Inductive TurnReport :=
| InvalidMove          (* 'Invalid move. Try again.', then [continue] *)
| NextPlayer           (* the other color moves next *)
| SkippedTurn          (* 'No valid moves for ...', the mover moves again *)
| GameOver (w : Winner). (* 'No valid moves for either player.', then [break] *)

(** ** Boards written as pictures *)

(** A board from the rows of its picture: [B], [W], anything else is an
    empty cell. *)
Definition cellOfChar (a : ascii) : Cell :=
  if Ascii.eqb a "B" then Piece BLACK
  else if Ascii.eqb a "W" then Piece WHITE
  else Null.

Fixpoint rowOfString (s : string) (c : Z) : gmap Z Cell :=
  match s with
  | EmptyString => ∅
  | String a s' => <[c := cellOfChar a]> (rowOfString s' (c + 1))
  end.

Fixpoint rowsOfStrings (l : list string) (r : Z) : gmap Z (gmap Z Cell) :=
  match l with
  | [] => ∅
  | s :: l' => <[r := rowOfString s 0]> (rowsOfStrings l' (r + 1))
  end.

Definition boardOfStrings (l : list string) : Board :=
  mkBoard (Z.of_nat (length l)) (rowsOfStrings l 0).

(** The 8x8 board after the starting pieces are placed. *)
Definition startingBoard : Board := boardOfStrings
  [ "........";
    "........";
    "........";
    "...BW...";
    "...WB...";
    "........";
    "........";
    "........" ]%string.

(** The board of the capture example of the README, black to play [g6]. *)
Definition readmeBoard : Board := boardOfStrings
  [ "........";
    "........";
    "...WBW..";
    "..WBBWB.";
    ".WBWBW..";
    ".BWWWW..";
    "........";
    "........" ]%string.

(** The 8x8 board after black's [e3] and white's [d3] from the start. *)
Definition thirdMoveBoard : Board := boardOfStrings
  [ "........";
    "........";
    "...WB...";
    "...WB...";
    "...WB...";
    "........";
    "........";
    "........" ]%string.

(** Three 4x4 boards, black to play [c1]: afterwards white cannot move
    and black can; nobody can move and black leads; nobody can move and the
    scores are equal. *)
Definition skipBoard : Board := boardOfStrings
  [ "BW.."; "...."; "...."; "..WB" ]%string.
Definition lastMoveBoard : Board := boardOfStrings
  [ "BW.."; "...."; "...."; "...." ]%string.
Definition tieBoard : Board := boardOfStrings
  [ "BW.."; "...."; "...."; "WWW." ]%string.

(** The sum of the flip counts of the closures of a move. *)
Definition totalFlips (cls : list Closure) : Z :=
  foldr (fun cl acc => flipCount cl + acc) 0 cls.

(** Black to play on the starting board and on [skipBoard]. *)
Definition startingGame : Game := mkGame startingBoard (2, 2) BLACK.
Definition skipGame : Game := mkGame skipBoard (2, 2) BLACK.

(** ** Printing: numbers, the board, the scores *)

(** The decimal digits of [n >= 0] in front of [acc], the last digit
    first; [fuel] bounds the number of digits. *)
Fixpoint digitsBefore (fuel : nat) (n : Z) (acc : string) : string :=
  match fuel with
  | O => acc
  | S fuel' =>
      let acc' := String (ascii_of_nat (Z.to_nat (48 + n mod 10))) acc in
      if n <? 10 then acc' else digitsBefore fuel' (n / 10) acc'
  end.

(** [n.toString()] for an integer [n] below 10^21 in absolute value (from
    there on JavaScript prints an exponent): a sign and the decimal digits.
    A number has no more decimal digits than binary ones
    ([readDigits_digitsBefore]). *)
Definition numberToString (n : Z) : string :=
  if n <? 0 then String "-" (digitsBefore (S (Z.to_nat (Z.log2 (- n)))) (- n) "")
  else digitsBefore (S (Z.to_nat (Z.log2 n))) n "".

(** ['\n'] *)
Definition newline : string := String (ascii_of_nat 10) "".

(** [String.fromCharCode('a'.charCodeAt(0) + col)], a code unit below 256
    for the columns below 159; a board has at most 26. *)
Definition columnLabel (col : Z) : string :=
  String (ascii_of_nat (Z.to_nat (97 + col))) "".

(** The first loop of [Board.toString], appending to [result]. *)
Fixpoint toStringHeader (cols : list Z) (result : string) : string :=
  match cols with
  | [] => result
  | col :: cols' => toStringHeader cols' ((result +:+ columnLabel col) +:+ " ")
  end.

(** [position !== null ? position.abbreviation() : ' ']; only a color has
    the method [abbreviation]. *)
Definition positionText (position : Value) : Outcome string :=
  match position with
  | VNull => mret " "%string
  | VColor c => mret (abbreviation c)
  | VUndefined | VNum _ => Throw TypeError
  end.

(** The inner loop of [Board.toString] over the columns of a row. *)
Fixpoint toStringCells (b : Board) (r : Z) (cols : list Z) (result : string)
  : Outcome string :=
  match cols with
  | [] => mret result
  | c :: cols' =>
      position ← readPosition b r c;
      text ← positionText position;
      let result1 := result +:+ text in
      toStringCells b r cols'
        (if c <? size b - 1 then result1 +:+ " " else result1)
  end.

(** The outer loop of [Board.toString] over the rows. *)
Fixpoint toStringRows (b : Board) (rows : list Z) (result : string)
  : Outcome string :=
  match rows with
  | [] => mret result
  | r :: rows' =>
      let result1 := result +:+ numberToString (r + 1) in
      let result2 := if r <? 9 then result1 +:+ "  " else result1 +:+ " " in
      result3 ← toStringCells b r (seqZ 0 (size b)) result2;
      toStringRows b rows' (result3 +:+ newline)
  end.

(** [Board.toString()] *)
Definition Board_toString (b : Board) : Outcome string :=
  toStringRows b (seqZ 0 (size b))
    (toStringHeader (seqZ 0 (size b)) ("" +:+ "   ") +:+ newline).

(** [drawBoardAndScores()]: the two texts it logs. *)
Definition drawBoardAndScores (g : Game) : Outcome (list string) :=
  text ← Board_toString (board g);
  mret [text;
        ((("Black: " +:+ numberToString (scores g).1) +:+ ", White: ")
           +:+ numberToString (scores g).2)%string].

(** ** The loop of play *)

(** The two versions of the program: the one without the networking code,
    and [othello.js]. *)
Inductive Variant := SinglePlayer | Networked.

#[global] Instance Variant_eq_dec : EqDecision Variant.
Proof. solve_decision. Defined.

(** How a run of [play] on a finite list of typed answers ends: the game is
    over; the loop was left after a parse error ([othello.js]); the program
    waits for an answer that is not in the list; the answer [multi] has
    started the networking code, which is not modelled. *)
Inductive PlayEnd :=
| Ended (g : Game) (w : Winner)
| EndedOnParseError (g : Game) (message : string)
| AwaitsInput (g : Game)
| EntersMultiplayer (g : Game).

(** What one iteration of the loop leaves: the end of the run, or the
    number of random draws made so far, the answers not read yet, the
    autopilot flag and the game. *)
Inductive Iteration :=
| Stop (e : PlayEnd)
| Continue (draws : nat) (inputs : list string) (autoPilot : bool) (g : Game).

Section Game.

Variable SIZE : Z.

(** ** The constructor *)

(** [constructor()]: validates the size and initialises the board. *)
Definition constructor : Outcome Board :=
  if 26 <? SIZE then Throw (BoardOutOfBoundsException "Max board size is 26")
  else newBoard SIZE.

(** ** checkForClosure *)

(** The local variables of [checkForClosure]; [flips] is its [flipCount],
    a name the closure record already has. *)
Record Scan := mkScan {
  val : Value;
  checkCol : Z;
  checkRow : Z;
  flips : Z
}.

(** The loop condition. *)
Definition scanCond (color : Color) (s : Scan) : bool :=
  strictNe (val s) VNull && strictNe (val s) (VColor color)
  && (0 <=? checkCol s) && (0 <=? checkRow s)
  && (checkCol s <? SIZE) && (checkRow s <? SIZE).

(** [val = positions[r][c]; if (val !== color && val !== null) flipCount++] *)
Definition probe (b : Board) (color : Color) (s : Scan) (r c : Z) : Outcome Scan :=
  v ← readPosition b r c;
  mret (mkScan v (checkCol s) (checkRow s)
          (if strictNe v (VColor color) && strictNe v VNull
           then flips s + 1 else flips s)).

Definition stepCursor (s : Scan) (dcol drow : Z) : Scan :=
  mkScan (val s) (checkCol s + dcol) (checkRow s + drow) (flips s).

(** The loop body: one [case] of the [switch] per direction. *)
Definition scanBody (b : Board) (color : Color) (d : Direction) (s : Scan)
  : Outcome Scan :=
  match d with
  | Left =>
      s1 ← (if 0 <=? checkCol s - 1
            then probe b color s (checkRow s) (checkCol s - 1) else mret s);
      mret (stepCursor s1 (-1) 0)
  | LeftUp =>
      s1 ← (if (0 <=? checkCol s - 1) && (0 <=? checkRow s - 1)
            then probe b color s (checkRow s - 1) (checkCol s - 1) else mret s);
      mret (stepCursor s1 (-1) (-1))
  | Up =>
      s1 ← (if 0 <=? checkRow s - 1
            then probe b color s (checkRow s - 1) (checkCol s) else mret s);
      mret (stepCursor s1 0 (-1))
  | RightUp =>
      s1 ← (if (checkCol s + 1 <? SIZE) && (0 <=? checkRow s - 1)
            then probe b color s (checkRow s - 1) (checkCol s + 1) else mret s);
      mret (stepCursor s1 1 (-1))
  | Right =>
      s1 ← (if checkCol s + 1 <? SIZE
            then probe b color s (checkRow s) (checkCol s + 1) else mret s);
      mret (stepCursor s1 1 0)
  | RightDown =>
      s1 ← (if (checkCol s + 1 <? SIZE) && (checkRow s + 1 <? SIZE)
            then probe b color s (checkRow s + 1) (checkCol s + 1) else mret s);
      mret (stepCursor s1 1 1)
  | Down =>
      s1 ← (if checkRow s + 1 <? SIZE
            then probe b color s (checkRow s + 1) (checkCol s) else mret s);
      mret (stepCursor s1 0 1)
  | LeftDown =>
      s1 ← (if (0 <=? checkCol s - 1) && (checkRow s + 1 <? SIZE)
            then probe b color s (checkRow s + 1) (checkCol s - 1) else mret s);
      mret (stepCursor s1 (-1) 1)
  end.

(** The scan loop, from the initial locals [val = 0], the cursor on
    [coords], [flipCount = 0]. *)
Definition scanLoop (budget : nat) (b : Board) (color : Color)
    (coords : Coordinate) (d : Direction) : Outcome Scan :=
  while budget (scanCond color) (scanBody b color d)
    (mkScan (VNum 0) (col coords) (row coords) 0).

(** [checkForClosure(color, coords, direction)]; [None] is [null].  The loop
    is given [SIZE] iterations, which it never exhausts
    ([scanLoop_budget]). *)
Definition checkForClosure (b : Board) (color : Color) (coords : Coordinate)
    (d : Direction) : Outcome (option Closure) :=
  s ← scanLoop (Z.to_nat SIZE) b color coords d;
  mret (if bool_decide (val s = VColor color) && (0 <? flips s)
        then Some (mkClosure d (col coords, row coords)
                     (checkCol s, checkRow s) (flips s))
        else None).

(** [getClosures(color, coords)]: the loop over [DIRECTIONS], pushing every
    closure that is not [null]. *)
Fixpoint getClosuresLoop (b : Board) (color : Color) (coords : Coordinate)
    (ds : list Direction) (closures : list Closure) : Outcome (list Closure) :=
  match ds with
  | [] => mret closures
  | d :: ds' =>
      closure ← checkForClosure b color coords d;
      getClosuresLoop b color coords ds'
        (match closure with
         | Some c => closures ++ [c]
         | None => closures
         end)
  end.

Definition getClosures (b : Board) (color : Color) (coords : Coordinate)
  : Outcome (list Closure) :=
  getClosuresLoop b color coords DIRECTIONS [].

(** ** validateMove *)

(** [validateMove(coords, color)]; [None] is the result [false]. *)
Definition validateMove (b : Board) (coords : Coordinate) (color : Color)
  : Outcome (option (list Closure)) :=
  v ← readPosition b (row coords) (col coords);
  if strictNe v VNull then mret None
  else
    closures ← getClosures b color coords;
    if (length closures =? 0)%nat then mret None else mret (Some closures).

(** ** flipPieces *)

(** The board and the loop variables [col], [row] of [flipPieces]; a
    [for] loop over one variable leaves the other component untouched. *)
Record Flip := mkFlip { fboard : Board; fcol : Z; frow : Z }.

Definition flipCond (d : Direction) (endCol endRow : Z) (s : Flip) : bool :=
  match d with
  | Left => endCol <=? fcol s
  | LeftUp => (endCol <=? fcol s) && (endRow <=? frow s)
  | Up => endRow <=? frow s
  | RightUp => (fcol s <=? endCol) && (endRow <=? frow s)
  | Right => fcol s <=? endCol
  | RightDown => (fcol s <=? endCol) && (frow s <=? endRow)
  | Down => frow s <=? endRow
  | LeftDown => (endCol <=? fcol s) && (frow s <=? endRow)
  end.

Definition flipBody (d : Direction) (startCol startRow : Z) (color : Color)
    (s : Flip) : Outcome Flip :=
  match d with
  | Left =>
      b ← writePosition (fboard s) startRow (fcol s) color;
      mret (mkFlip b (fcol s - 1) (frow s))
  | LeftUp =>
      b ← writePosition (fboard s) (frow s) (fcol s) color;
      mret (mkFlip b (fcol s - 1) (frow s - 1))
  | Up =>
      b ← writePosition (fboard s) (frow s) startCol color;
      mret (mkFlip b (fcol s) (frow s - 1))
  | RightUp =>
      b ← writePosition (fboard s) (frow s) (fcol s) color;
      mret (mkFlip b (fcol s + 1) (frow s - 1))
  | Right =>
      b ← writePosition (fboard s) startRow (fcol s) color;
      mret (mkFlip b (fcol s + 1) (frow s))
  | RightDown =>
      b ← writePosition (fboard s) (frow s) (fcol s) color;
      mret (mkFlip b (fcol s + 1) (frow s + 1))
  | Down =>
      b ← writePosition (fboard s) (frow s) startCol color;
      mret (mkFlip b (fcol s) (frow s + 1))
  | LeftDown =>
      b ← writePosition (fboard s) (frow s) (fcol s) color;
      mret (mkFlip b (fcol s - 1) (frow s + 1))
  end.

(** A number of iterations no loop of [flipPieces] exceeds: the loop
    variable runs from its start to its end, both included
    ([flipPieces_budget]). *)
Definition flipBudget (d : Direction) (startCol startRow endCol endRow : Z) : nat :=
  match d with
  | Left | LeftUp | LeftDown => Z.to_nat (startCol - endCol + 1)
  | Right | RightUp | RightDown => Z.to_nat (endCol - startCol + 1)
  | Up => Z.to_nat (startRow - endRow + 1)
  | Down => Z.to_nat (endRow - startRow + 1)
  end.

(** [flipPieces(start, end, direction, color)] *)
Definition flipPieces (b : Board) (start_ end' : Z * Z) (d : Direction)
    (color : Color) : Outcome Board :=
  let '(startCol, startRow) := start_ in
  let '(endCol, endRow) := end' in
  s ← while (flipBudget d startCol startRow endCol endRow)
        (flipCond d endCol endRow) (flipBody d startCol startRow color)
        (mkFlip b startCol startRow);
  mret (fboard s).

(** The loop of [play] over the closures of a move. *)
Fixpoint flipClosures (b : Board) (closures : list Closure) (color : Color)
  : Outcome Board :=
  match closures with
  | [] => mret b
  | c :: rest =>
      b' ← flipPieces b (start c) (end_ c) (direction c) color;
      flipClosures b' rest color
  end.

(** ** getScores *)

(** The range of [for (let i = 0; i < SIZE; i++)]. *)
Definition indices : list Z := seqZ 0 SIZE.

(** The inner loop of [getScores] over the columns of one row; the two
    tests read the same position, which is read once here. *)
Fixpoint getScoresCols (b : Board) (r : Z) (cols : list Z) (acc : Z * Z)
  : Outcome (Z * Z) :=
  match cols with
  | [] => mret acc
  | c :: cols' =>
      v ← readPosition b r c;
      getScoresCols b r cols'
        (if bool_decide (v = VColor BLACK) then (acc.1 + 1, acc.2)
         else if bool_decide (v = VColor WHITE) then (acc.1, acc.2 + 1)
         else acc)
  end.

Fixpoint getScoresRows (b : Board) (rows : list Z) (acc : Z * Z)
  : Outcome (Z * Z) :=
  match rows with
  | [] => mret acc
  | r :: rows' =>
      acc' ← getScoresCols b r indices acc;
      getScoresRows b rows' acc'
  end.

(** [getScores()]: the pair [(black, white)]. *)
Definition getScores (b : Board) : Outcome (Z * Z) :=
  getScoresRows b indices (0, 0).

(** ** Enumerating the moves of a color *)

(** The inner loop of [playerHasAnyValidMoves]; [true] is the early
    [return true]. *)
Fixpoint anyValidInRow (b : Board) (color : Color) (r : Z) (cols : list Z)
  : Outcome bool :=
  match cols with
  | [] => mret false
  | c :: cols' =>
      m ← validateMove b (mkCoordinate r c) color;
      if bool_decide (m ≠ None) then mret true
      else anyValidInRow b color r cols'
  end.

Fixpoint anyValidInRows (b : Board) (color : Color) (rows : list Z)
  : Outcome bool :=
  match rows with
  | [] => mret false
  | r :: rows' =>
      found ← anyValidInRow b color r indices;
      if (found : bool) then mret true else anyValidInRows b color rows'
  end.

(** [playerHasAnyValidMoves(color)] *)
Definition playerHasAnyValidMoves (b : Board) (color : Color) : Outcome bool :=
  anyValidInRows b color indices.

(** The inner loop of [getAllValidMoves], pushing onto [validMoves]. *)
Fixpoint validMovesInRow (b : Board) (color : Color) (r : Z) (cols : list Z)
    (validMoves : list Coordinate) : Outcome (list Coordinate) :=
  match cols with
  | [] => mret validMoves
  | c :: cols' =>
      m ← validateMove b (mkCoordinate r c) color;
      validMovesInRow b color r cols'
        (if bool_decide (m ≠ None) then validMoves ++ [mkCoordinate r c]
         else validMoves)
  end.

Fixpoint validMovesInRows (b : Board) (color : Color) (rows : list Z)
    (validMoves : list Coordinate) : Outcome (list Coordinate) :=
  match rows with
  | [] => mret validMoves
  | r :: rows' =>
      validMoves' ← validMovesInRow b color r indices validMoves;
      validMovesInRows b color rows' validMoves'
  end.

(** [getAllValidMoves(color)] *)
Definition getAllValidMoves (b : Board) (color : Color)
  : Outcome (list Coordinate) :=
  validMovesInRows b color indices [].

(** ** parseCoordinate *)

(** [parseCoordinate(input)] *)
Definition parseCoordinate (input : string) : Outcome ParsedCoordinate :=
  if (String.length input <? 2)%nat || (3 <? String.length input)%nat
  then Throw (CoordinateParseException "Input must be length 2 or 3")
  else
    let col := numSub (firstCharCode input) 97 in
    if numLt col 0 || numGt col (SIZE - 1)
    then Throw (CoordinateParseException "Column out of bounds")
    else
      let row := numSub (parseInt (sliceFrom1 input)) 1 in
      if numLt row 0 || numGt col (SIZE - 1)
      then Throw (CoordinateParseException "Row out of bounds")
      else mret (mkParsed row col).

(** ** The automatic move *)

(** The branch [input === '-' || autoPilot] of [play].  [random] is the
    value of [Math.random()], a rational in [0, 1).  With no valid move
    [bestMove] is [undefined] and reading [bestMove.row] throws.  The
    product [random * length] is exact here and rounded to binary64 in the
    program: there too it stays below [length] for a draw below 1, so the
    index is in range in both, but for a draw next to a multiple of
    [1 / length] the rounded product can reach the next index. *)
Definition autoMove (b : Board) (color : Color) (random : Q) : Outcome Coordinate :=
  validMoves ← getAllValidMoves b color;
  match validMoves with
  | [] => Throw TypeError
  | first :: _ =>
      let bestMoves := (bestMovesLoop validMoves first [first]).2 in
      let i := Qfloor (random * inject_Z (Z.of_nat (length bestMoves))) in
      match bestMoves !! Z.to_nat i with
      | Some bestMove => mret (mkCoordinate (row bestMove) (col bestMove))
      | None => Throw TypeError
      end
  end.

(** ** play *)

(** The starting pieces.  [SIZE / 2] is not an integer for an odd [SIZE],
    and indexing [positions] with it throws. *)
Definition placeStartingPieces (b : Board) : Outcome Board :=
  if Z.even SIZE then
    let middle := SIZE / 2 - 1 in
    b1 ← writePosition b middle middle BLACK;
    b2 ← writePosition b1 middle (middle + 1) WHITE;
    b3 ← writePosition b2 (middle + 1) middle WHITE;
    writePosition b3 (middle + 1) (middle + 1) BLACK
  else Throw TypeError.

(** The winner announced at the end of the game. *)
Definition announce (sc : Z * Z) : Winner :=
  if sc.1 =? sc.2 then Tie
  else if sc.2 <? sc.1 then Wins BLACK
  else Wins WHITE.

(** One iteration of the loop of [play], from the validation of [move] (a
    coordinate typed in, or the automatic one) to the end of the body. *)
Definition turn (g : Game) (move : Coordinate) : Outcome (Game * TurnReport) :=
  closures ← validateMove (board g) move (curPlayer g);
  match closures with
  | None => mret (g, InvalidMove)
  | Some cls =>
      b1 ← writePosition (board g) (row move) (col move) (curPlayer g);
      b2 ← flipClosures b1 cls (curPlayer g);
      sc ← getScores b2;
      let next := otherColor (curPlayer g) in
      some ← playerHasAnyValidMoves b2 next;
      if (some : bool) then mret (mkGame b2 sc next, NextPlayer)
      else
        let back := otherColor next in
        again ← playerHasAnyValidMoves b2 back;
        if (again : bool) then mret (mkGame b2 sc back, SkippedTurn)
        else mret (mkGame b2 sc back, GameOver (announce sc))
  end.

(** What follows the choice of [move] in an iteration of the loop: an
    invalid move and a move that leaves the game open continue the loop, the
    end of the game draws the board a last time. *)
Definition playMove (draws : nat) (inputs : list string) (autoPilot : bool)
    (g : Game) (move : Coordinate) : Outcome Iteration :=
  t ← turn g move;
  match t.2 with
  | InvalidMove => mret (Continue draws inputs autoPilot g)
  | NextPlayer | SkippedTurn => mret (Continue draws inputs autoPilot t.1)
  | GameOver w => _ ← drawBoardAndScores t.1; mret (Stop (Ended t.1 w))
  end.

(** The coordinate typed in: [parseCoordinate] and its [catch], which
    continues the loop in the first version and leaves it in [othello.js];
    then the move.  A row that is [NaN] indexes no row of [positions]. *)
Definition playTyped (v : Variant) (draws : nat) (inputs : list string)
    (g : Game) (input : string) : Outcome Iteration :=
  match parseCoordinate input with
  | Throw (CoordinateParseException message) =>
      match v with
      | SinglePlayer => mret (Continue draws inputs false g)
      | Networked => mret (Stop (EndedOnParseError g message))
      end
  | Throw e => Throw e
  | Diverge => Diverge
  | Ret p =>
      match parsedRow p, parsedCol p with
      | NaN, _ => Throw TypeError
      | Num r, Num c => playMove draws inputs false g (mkCoordinate r c)
      | Num r, NaN =>
          match positions (board g) !! r with
          | None => Throw TypeError
          | Some _ => mret (Continue draws inputs false g)
          end
      end
  end.

(** The automatic move of an iteration, with the next random draw. *)
Definition playAuto (random : nat -> Q) (draws : nat) (inputs : list string)
    (autoPilot : bool) (g : Game) : Outcome Iteration :=
  move ← autoMove (board g) (curPlayer g) (random draws);
  playMove (S draws) inputs autoPilot g move.

(** One iteration of the loop of [play], outside a network game: the
    board is drawn; unless the autopilot is on, an answer is read, and
    [autopilot] turns the autopilot on ([multi] starts a network game in
    [othello.js]); the move is the automatic one on the autopilot and for
    the answer [-], the coordinate typed in otherwise. *)
Definition playIteration (v : Variant) (random : nat -> Q) (draws : nat)
    (inputs : list string) (autoPilot : bool) (g : Game) : Outcome Iteration :=
  _ ← drawBoardAndScores g;
  if autoPilot then playAuto random draws inputs true g
  else
    match inputs with
    | [] => mret (Stop (AwaitsInput g))
    | input :: rest =>
        if bool_decide (input = "multi"%string) && bool_decide (v = Networked)
        then mret (Stop (EntersMultiplayer g))
        else if bool_decide (input = "autopilot"%string)
        then playAuto random draws rest true g
        else if bool_decide (input = "-"%string)
        then playAuto random draws rest false g
        else playTyped v draws rest g input
    end.

(** [while (true)], for at most [budget] iterations. *)
Fixpoint playLoop (budget : nat) (v : Variant) (random : nat -> Q) (draws : nat)
    (inputs : list string) (autoPilot : bool) (g : Game) : Outcome PlayEnd :=
  match budget with
  | O => Diverge
  | S budget' =>
      it ← playIteration v random draws inputs autoPilot g;
      match it with
      | Stop e => mret e
      | Continue draws' inputs' autoPilot' g' =>
          playLoop budget' v random draws' inputs' autoPilot' g'
      end
  end.

(** The program: [new Othello()], then [play()] on the answers [inputs],
    with [random] the successive values of [Math.random()]; the first of
    them draws the first player.  An iteration reads an answer or places a
    piece, so the loop is given one iteration for every answer and every
    cell, and one more ([playLoop_budget]). *)
Definition play (v : Variant) (random : nat -> Q) (inputs : list string)
  : Outcome PlayEnd :=
  b0 ← constructor;
  b ← placeStartingPieces b0;
  sc ← getScores b;
  let first := if Qlt_le_dec (random O) (1 # 2) then BLACK else WHITE in
  playLoop (length inputs + Z.to_nat (SIZE * SIZE) + 1) v random 1 inputs false
    (mkGame b sc first).

(** ** The vocabulary of the properties *)

(** The content of position [(r, c)], if the board has one there. *)
Definition cellAt (b : Board) (r c : Z) : option Cell :=
  cells ← positions b !! r; cells !! c.

Definition inBoard (r c : Z) : Prop := 0 <= r < SIZE /\ 0 <= c < SIZE.

(** A board of the game: every position of the grid holds [null] or a
    color. *)
Definition wf_board (b : Board) : Prop :=
  forall r c, inBoard r c -> is_Some (cellAt b r c).

(** The unit step of a direction, on rows and on columns. *)
Definition drow (d : Direction) : Z :=
  match d with
  | Left | Right => 0
  | LeftUp | Up | RightUp => -1
  | RightDown | Down | LeftDown => 1
  end.
Definition dcol (d : Direction) : Z :=
  match d with
  | Up | Down => 0
  | Left | LeftUp | LeftDown => -1
  | RightUp | Right | RightDown => 1
  end.

(** The number of steps from [(r, c)] along [d] that leave the board. *)
Definition edgeDistance (d : Direction) (r c : Z) : Z :=
  match d with
  | Left => c + 1
  | LeftUp => Z.min (c + 1) (r + 1)
  | Up => r + 1
  | RightUp => Z.min (SIZE - c) (r + 1)
  | Right => SIZE - c
  | RightDown => Z.min (SIZE - c) (SIZE - r)
  | Down => SIZE - r
  | LeftDown => Z.min (c + 1) (SIZE - r)
  end.

(** From [(r, c)] along [d]: [k] cells of the opposing color, each on the
    board, then a cell of [color] on the board. *)
Definition run (b : Board) (color : Color) (d : Direction) (r c k : Z) : Prop :=
  (forall i, 1 <= i <= k ->
     inBoard (r + i * drow d) (c + i * dcol d) /\
     cellAt b (r + i * drow d) (c + i * dcol d) = Some (Piece (otherColor color)))
  /\ inBoard (r + (k + 1) * drow d) (c + (k + 1) * dcol d)
  /\ cellAt b (r + (k + 1) * drow d) (c + (k + 1) * dcol d) = Some (Piece color).

(** Direction [d] closes for [color] placed on [(r, c)]: a run of one or
    more opposing cells next to it, ended by a cell of [color]. *)
Definition closes (b : Board) (color : Color) (r c : Z) (d : Direction) : Prop :=
  exists k, 1 <= k /\ run b color d r c k.

(** The closure that [checkForClosure] reports for a run of length [k]. *)
Definition closureOf (d : Direction) (r c k : Z) : Closure :=
  mkClosure d (c, r) (c + (k + 1) * dcol d, r + (k + 1) * drow d) k.

(** The move of [color] to [(r, c)] is legal. *)
Definition legal (b : Board) (color : Color) (r c : Z) : Prop :=
  cellAt b r c = Some Null /\ exists d, closes b color r c d.

(** The cells a closure spans, from its start to its end, both included;
    and the cells strictly between the two, the ones the move captures. *)
Definition onClosure (cl : Closure) (r c : Z) : Prop :=
  exists i, 0 <= i <= flipCount cl + 1 /\
    r = (start cl).2 + i * drow (direction cl) /\
    c = (start cl).1 + i * dcol (direction cl).
Definition insideClosure (cl : Closure) (r c : Z) : Prop :=
  exists i, 1 <= i <= flipCount cl /\
    r = (start cl).2 + i * drow (direction cl) /\
    c = (start cl).1 + i * dcol (direction cl).

(** A closure as [checkForClosure] builds it, its cells on rows of the
    board. *)
Definition onBoardRows (cl : Closure) : Prop :=
  0 <= flipCount cl /\
  end_ cl = ((start cl).1 + (flipCount cl + 1) * dcol (direction cl),
             (start cl).2 + (flipCount cl + 1) * drow (direction cl)) /\
  forall i, 0 <= i <= flipCount cl + 1 ->
    0 <= (start cl).2 + i * drow (direction cl) < SIZE.

(** Counting over the grid. *)
Definition sumZ (f : Z -> Z) (l : list Z) : Z := foldr (fun i acc => f i + acc) 0 l.
Definition countCells (p : option Cell -> bool) (b : Board) : Z :=
  sumZ (fun r => sumZ (fun c => if p (cellAt b r c) then 1 else 0) indices) indices.

Definition isOccupied (x : option Cell) : bool :=
  match x with Some (Piece _) => true | _ => false end.
Definition holds (color : Color) (x : option Cell) : bool :=
  bool_decide (x = Some (Piece color)).

(** The number of occupied cells, and of cells of one color. *)
Definition occupiedCells (b : Board) : Z := countCells isOccupied b.
Definition countColor (color : Color) (b : Board) : Z := countCells (holds color) b.

(** Some position of the board is a legal move of [color]. *)
Definition hasLegalMove (b : Board) (color : Color) : Prop :=
  exists r c, inBoard r c /\ legal b color r c.

(** The coordinates of the grid, row by row. *)
Definition allCoordinates : list Coordinate :=
  indices ≫= (fun r => mkCoordinate r <$> indices).

(** A board as the constructor makes it and the moves keep it: of size
    [SIZE], with exactly the rows and the columns of the grid. *)
Definition programBoard (b : Board) : Prop :=
  size b = SIZE /\
  (forall r, is_Some (positions b !! r) <-> 0 <= r < SIZE) /\
  (forall r c, 0 <= r < SIZE -> (is_Some (cellAt b r c) <-> 0 <= c < SIZE)).

(** What the starting position holds on [(r, c)]: black on the two cells
    of one diagonal of the centre, white on the other two. *)
Definition startingCell (r c : Z) : Cell :=
  let m := SIZE / 2 in
  if bool_decide ((r = m - 1 /\ c = m - 1) \/ (r = m /\ c = m)) then Piece BLACK
  else if bool_decide ((r = m - 1 /\ c = m) \/ (r = m /\ c = m - 1)) then Piece WHITE
  else Null.

(** Two boards with the same size and the same rows. *)
Definition sameRows (b b' : Board) : Prop :=
  size b' = size b /\
  forall r, is_Some (positions b' !! r) <-> is_Some (positions b !! r).

(** The number of cells of the grid that satisfy a test. *)
Definition gridCount (f : Z -> Z -> bool) : Z :=
  sumZ (fun r => sumZ (fun c => if f r c then 1 else 0) indices) indices.

(** The cells strictly inside a closure, as pairs [(row, col)], from the
    start outward; and those of all the closures of a move. *)
Definition insideCells (cl : Closure) : list (Z * Z) :=
  (fun i => ((start cl).2 + i * drow (direction cl),
             (start cl).1 + i * dcol (direction cl))) <$> seqZ 1 (flipCount cl).
Definition capturedCells (cls : list Closure) : list (Z * Z) :=
  cls ≫= insideCells.

(** The score of a color in the pair [(black, white)]. *)
Definition scoreOf (color : Color) (sc : Z * Z) : Z :=
  match color with BLACK => sc.1 | WHITE => sc.2 end.

(** The game an end of [play] leaves. *)
Definition gameOf (e : PlayEnd) : Game :=
  match e with
  | Ended g _ | EndedOnParseError g _ | AwaitsInput g | EntersMultiplayer g => g
  end.

(** A game whose board is a program board and whose scores are the
    numbers of pieces on it. *)
Definition consistent (g : Game) : Prop :=
  programBoard (board g) /\
  scores g = (countColor BLACK (board g), countColor WHITE (board g)).

(** An end of [play] in version [v] on a board of at least [n] pieces:
    the game is consistent; a game that is over announces the winner of
    its scores and leaves no move to either color; a parse error ends
    [play], and [multi] starts a network game, in [othello.js] only. *)
Definition endsWell (v : Variant) (n : Z) (e : PlayEnd) : Prop :=
  consistent (gameOf e) /\ n <= occupiedCells (board (gameOf e)) /\
  match e with
  | Ended g w =>
      w = announce (scores g) /\
      ~ hasLegalMove (board g) BLACK /\ ~ hasLegalMove (board g) WHITE
  | EndedOnParseError _ message =>
      v = Networked /\
      message ∈ ["Input must be length 2 or 3"; "Column out of bounds";
                 "Row out of bounds"]%string
  | EntersMultiplayer _ => v = Networked
  | AwaitsInput _ => True
  end.

(** The text of the board, line by line.  [joined f l] is the texts
    [f x] of the members of [l], one after the other. *)
Definition joined (f : Z -> string) (l : list Z) : string :=
  foldr (fun x acc => f x +:+ acc) ""%string l.

(** A cell on the board: the initial of its color, or a space. *)
Definition cellText (x : option Cell) : string :=
  match x with Some (Piece c) => abbreviation c | _ => " "%string end.

(** The header: three spaces, then a letter and a space for every
    column. *)
Definition headerLine : string :=
  "   " +:+ joined (fun c => columnLabel c +:+ " ") indices.

(** The number of a row, followed by two spaces up to row 9 and by one
    from row 10 on. *)
Definition rowLabel (r : Z) : string :=
  numberToString (r + 1) +:+ (if r <? 9 then "  " else " ").

(** A row: its label, then its cells with a space between two of them. *)
Definition rowLine (b : Board) (r : Z) : string :=
  rowLabel r +:+
  joined (fun c => cellText (cellAt b r c) +:+
                   (if c <? SIZE - 1 then " " else "")) indices.

(** The board: the header and the rows, a line break after each. *)
Definition boardText (b : Board) : string :=
  (headerLine +:+ newline) +:+ joined (fun r => rowLine b r +:+ newline) indices.

(** [wf_board] as a check over the grid. *)
Definition wf_boardb (b : Board) : bool :=
  forallb (fun r => forallb (fun c => bool_decide (is_Some (cellAt b r c))) indices)
    indices.

(** * Properties *)

(** ** The monad and the loops *)

Lemma bind_Ret {A B : Type} (a : A) (f : A -> Outcome B) : Ret a ≫= f = f a.
Proof. reflexivity. Qed.

Lemma bind_Ret_inv {A B : Type} (m : Outcome A) (f : A -> Outcome B) (y : B) :
  m ≫= f = Ret y -> exists a, m = Ret a /\ f a = Ret y.
Proof. destruct m as [a| |]; [eauto | discriminate | discriminate]. Qed.

Lemma bind_not_Diverge {A B : Type} (m : Outcome A) (f : A -> Outcome B) :
  m <> Diverge -> (forall a, m = Ret a -> f a <> Diverge) -> m ≫= f <> Diverge.
Proof.
  intros Hm Hf. destruct m as [a| |]; simpl;
    [apply Hf; reflexivity | discriminate | congruence].
Qed.

Lemma while_exit {S : Type} (cond : S -> bool) (body : S -> Outcome S) n s :
  cond s = false -> while n cond body s = Ret s.
Proof. intros H. destruct n; simpl; rewrite H; reflexivity. Qed.

(** A loop that exits within its budget does the same with a larger one. *)
Lemma while_more {S : Type} (cond : S -> bool) (body : S -> Outcome S) :
  forall (n m : nat) (s : S),
    while n cond body s <> Diverge -> (n <= m)%nat ->
    while m cond body s = while n cond body s.
Proof.
  induction n as [|n IH]; intros m s Hn Hle.
  - destruct m; simpl in *; destruct (cond s); congruence.
  - destruct m as [|m]; [lia|]. simpl in *.
    destruct (cond s); [|reflexivity].
    destruct (body s) as [s'| |]; simpl in *; try reflexivity.
    apply IH; [exact Hn | lia].
Qed.

(** ** Reading and writing positions *)

Lemma readPosition_cellAt b r c x :
  cellAt b r c = Some x -> readPosition b r c = Ret (valueOfCell x).
Proof.
  unfold cellAt, readPosition. destruct (positions b !! r) as [cells|]; simpl.
  - intros ->. reflexivity.
  - discriminate.
Qed.

Lemma readPosition_not_Diverge b r c : readPosition b r c <> Diverge.
Proof. unfold readPosition. destruct (positions b !! r); discriminate. Qed.

Lemma writePosition_not_Diverge b r c color : writePosition b r c color <> Diverge.
Proof. unfold writePosition. destruct (positions b !! r); discriminate. Qed.

(** Writing on an existing row changes exactly the position written. *)
Lemma writePosition_cellAt b r c color :
  is_Some (positions b !! r) ->
  exists b', writePosition b r c color = Ret b' /\
    (forall r', is_Some (positions b !! r') -> is_Some (positions b' !! r')) /\
    forall r' c', cellAt b' r' c' =
      if bool_decide (r' = r /\ c' = c) then Some (Piece color) else cellAt b r' c'.
Proof.
  intros [cells Hcells]. unfold writePosition. rewrite Hcells.
  eexists; split; [reflexivity|]. split.
  { intros r' Hr'. simpl. destruct (decide (r' = r)) as [->|Hne].
    - rewrite lookup_insert_eq. eauto.
    - rewrite lookup_insert_ne by congruence. exact Hr'. }
  intros r' c'. unfold cellAt; simpl.
  destruct (decide (r' = r)) as [->|Hr].
  - rewrite lookup_insert_eq, Hcells; simpl.
    destruct (decide (c' = c)) as [->|Hc].
    + rewrite lookup_insert_eq, bool_decide_eq_true_2; auto.
    + rewrite lookup_insert_ne, bool_decide_eq_false_2; [auto|tauto|congruence].
  - rewrite lookup_insert_ne, bool_decide_eq_false_2; [auto|tauto|congruence].
Qed.

Lemma cellAt_row b r c : is_Some (cellAt b r c) -> is_Some (positions b !! r).
Proof.
  unfold cellAt. destruct (positions b !! r); simpl; [eauto|].
  intros [x Hx]; discriminate.
Qed.

Lemma wf_board_row b r : wf_board b -> 0 <= r < SIZE -> is_Some (positions b !! r).
Proof.
  intros Hwf Hr. apply (cellAt_row b r 0). apply Hwf. unfold inBoard. lia.
Qed.

Lemma writePosition_wf b r c color :
  wf_board b -> 0 <= r < SIZE ->
  exists b', writePosition b r c color = Ret b' /\ wf_board b' /\
    forall r' c', cellAt b' r' c' =
      if bool_decide (r' = r /\ c' = c) then Some (Piece color) else cellAt b r' c'.
Proof.
  intros Hwf Hr.
  destruct (writePosition_cellAt b r c color (wf_board_row b r Hwf Hr))
    as (b' & Hw & _ & Hcell).
  exists b'. split; [exact Hw|]. split; [|exact Hcell].
  intros r' c' Hin. rewrite Hcell. case_bool_decide; [eauto|]. apply Hwf, Hin.
Qed.

(** ** The scan loop of checkForClosure *)

Lemma scanCond_true color s :
  scanCond color s = true <->
  val s <> VNull /\ val s <> VColor color /\ inBoard (checkRow s) (checkCol s).
Proof.
  unfold scanCond, strictNe, inBoard.
  rewrite !andb_true_iff, !bool_decide_eq_true, !Z.leb_le, !Z.ltb_lt. tauto.
Qed.

Lemma scanCond_false color s :
  val s = VNull \/ val s = VColor color \/ ~ inBoard (checkRow s) (checkCol s) ->
  scanCond color s = false.
Proof.
  intros H. apply not_true_is_false. rewrite scanCond_true. tauto.
Qed.

Ltac decide_guards :=
  repeat match goal with
    | |- context [?a <=? ?b] => destruct (Z.leb_spec a b)
    | |- context [?a <? ?b] => destruct (Z.ltb_spec a b)
    end.

(** Every iteration moves the cursor by the unit step of the direction. *)
Lemma scanBody_cursor b color d s s' :
  scanBody b color d s = Ret s' ->
  checkRow s' = checkRow s + drow d /\ checkCol s' = checkCol s + dcol d.
Proof.
  unfold scanBody, probe. intros H.
  destruct d; simpl; apply bind_Ret_inv in H as (s1 & H1 & H2);
    injection H2 as <-; simpl;
    (match type of H1 with (if ?g then _ else _) = _ => destruct g end);
    first
      [ apply bind_Ret_inv in H1 as (v & _ & Hv); injection Hv as <-; simpl; lia
      | injection H1 as <-; lia ].
Qed.

Lemma scanBody_not_Diverge b color d s : scanBody b color d s <> Diverge.
Proof.
  assert (Hprobe : forall r c, probe b color s r c <> Diverge).
  { intros r c. unfold probe. apply bind_not_Diverge.
    - apply readPosition_not_Diverge.
    - intros; unfold mret, Outcome_ret; discriminate. }
  unfold scanBody.
  destruct d; (apply bind_not_Diverge;
    [ match goal with |- (if ?g then _ else _) <> _ => destruct g end;
      [ apply Hprobe | unfold mret, Outcome_ret; discriminate ]
    | intros; unfold mret, Outcome_ret; discriminate ]).
Qed.

Lemma edgeDistance_step d r c :
  edgeDistance d (r + drow d) (c + dcol d) = edgeDistance d r c - 1.
Proof. destruct d; simpl; lia. Qed.

Lemma edgeDistance_inBoard d r c : inBoard r c -> 1 <= edgeDistance d r c <= SIZE.
Proof. unfold inBoard. destruct d; simpl; lia. Qed.

(** The loop exits within as many iterations as the cursor is away from
    the edge, on any board. *)
Lemma scan_exits b color d :
  forall (n : nat) (s : Scan),
    edgeDistance d (checkRow s) (checkCol s) <= Z.of_nat n ->
    while n (scanCond color) (scanBody b color d) s <> Diverge.
Proof.
  induction n as [|n IH]; intros s Hn; simpl.
  - destruct (scanCond color s) eqn:Hc; [|discriminate].
    apply scanCond_true in Hc as (_ & _ & Hin).
    pose proof (edgeDistance_inBoard d _ _ Hin). lia.
  - destruct (scanCond color s) eqn:Hc; [|discriminate].
    apply bind_not_Diverge; [apply scanBody_not_Diverge|].
    intros s' Hs'. apply IH.
    apply scanBody_cursor in Hs' as [-> ->]. rewrite edgeDistance_step. lia.
Qed.

(** [SIZE] iterations are enough from any coordinate, on any board, and
    a larger budget changes nothing. *)
Lemma scanLoop_budget b color coords d :
  scanLoop (Z.to_nat SIZE) b color coords d <> Diverge /\
  forall n, (Z.to_nat SIZE <= n)%nat ->
    scanLoop n b color coords d = scanLoop (Z.to_nat SIZE) b color coords d.
Proof.
  assert (Hexit : scanLoop (Z.to_nat SIZE) b color coords d <> Diverge).
  { unfold scanLoop.
    destruct (scanCond color (mkScan (VNum 0) (col coords) (row coords) 0)) eqn:Hc.
    - apply scan_exits. apply scanCond_true in Hc as (_ & _ & Hin).
      pose proof (edgeDistance_inBoard d _ _ Hin). lia.
    - rewrite while_exit by exact Hc. discriminate. }
  split; [exact Hexit|].
  intros n Hn. unfold scanLoop in *. apply while_more; assumption.
Qed.

Lemma checkForClosure_not_Diverge b color coords d :
  checkForClosure b color coords d <> Diverge.
Proof.
  unfold checkForClosure. apply bind_not_Diverge.
  - apply scanLoop_budget.
  - intros; unfold mret, Outcome_ret; discriminate.
Qed.

(** The iteration when the next cell is on the board. *)
Lemma scanBody_inside b color d s x :
  inBoard (checkRow s) (checkCol s) ->
  inBoard (checkRow s + drow d) (checkCol s + dcol d) ->
  cellAt b (checkRow s + drow d) (checkCol s + dcol d) = Some x ->
  scanBody b color d s =
    Ret (mkScan (valueOfCell x) (checkCol s + dcol d) (checkRow s + drow d)
           (if strictNe (valueOfCell x) (VColor color) && strictNe (valueOfCell x) VNull
            then flips s + 1 else flips s)).
Proof.
  unfold inBoard, scanBody, probe. intros Hin Hnext Hcell.
  destruct d; simpl in *; rewrite ?Z.add_0_r in Hcell, Hnext;
    decide_guards; try lia; simpl;
    (erewrite readPosition_cellAt by exact Hcell); reflexivity.
Qed.

(** The iteration when the next cell is off the board. *)
Lemma scanBody_outside b color d s :
  inBoard (checkRow s) (checkCol s) ->
  ~ inBoard (checkRow s + drow d) (checkCol s + dcol d) ->
  scanBody b color d s =
    Ret (mkScan (val s) (checkCol s + dcol d) (checkRow s + drow d) (flips s)).
Proof.
  unfold inBoard, scanBody, probe. intros Hin Hnext.
  destruct d; simpl in *; rewrite ?Z.add_0_r in Hnext;
    decide_guards; try lia; reflexivity.
Qed.

Lemma inBoard_dec r c : {inBoard r c} + {~ inBoard r c}.
Proof. unfold inBoard. destruct (decide (0 <= r < SIZE /\ 0 <= c < SIZE)); auto. Qed.

(** The first cell of a run. *)
Lemma run_first b color d r c k :
  0 <= k -> run b color d r c k ->
  inBoard (r + drow d) (c + dcol d) /\
  ((k = 0 /\ cellAt b (r + drow d) (c + dcol d) = Some (Piece color)) \/
   (1 <= k /\ cellAt b (r + drow d) (c + dcol d) = Some (Piece (otherColor color)))).
Proof.
  intros Hk (Hrun & Hin & Hend).
  destruct (decide (k = 0)) as [->|Hk0].
  - rewrite Z.add_0_l, !Z.mul_1_l in Hin, Hend. auto.
  - destruct (Hrun 1) as [H1 H2]; [lia|]. rewrite !Z.mul_1_l in H1, H2.
    split; [exact H1|]. right. split; [lia | exact H2].
Qed.

(** A run seen from its first cell. *)
Lemma run_step b color d r c k :
  0 <= k ->
  inBoard (r + drow d) (c + dcol d) ->
  cellAt b (r + drow d) (c + dcol d) = Some (Piece (otherColor color)) ->
  (run b color d (r + drow d) (c + dcol d) k <-> run b color d r c (k + 1)).
Proof.
  intros Hk Hin Hcell. unfold run. split.
  - intros (Hrun & Hin' & Hend). split; [|split].
    + intros i Hi. destruct (decide (i = 1)) as [->|Hi1].
      * rewrite !Z.mul_1_l. auto.
      * replace (r + i * drow d) with (r + drow d + (i - 1) * drow d) by ring.
        replace (c + i * dcol d) with (c + dcol d + (i - 1) * dcol d) by ring.
        apply Hrun. lia.
    + replace (r + (k + 1 + 1) * drow d) with (r + drow d + (k + 1) * drow d) by ring.
      replace (c + (k + 1 + 1) * dcol d) with (c + dcol d + (k + 1) * dcol d) by ring.
      exact Hin'.
    + replace (r + (k + 1 + 1) * drow d) with (r + drow d + (k + 1) * drow d) by ring.
      replace (c + (k + 1 + 1) * dcol d) with (c + dcol d + (k + 1) * dcol d) by ring.
      exact Hend.
  - intros (Hrun & Hin' & Hend). split; [|split].
    + intros i Hi.
      replace (r + drow d + i * drow d) with (r + (i + 1) * drow d) by ring.
      replace (c + dcol d + i * dcol d) with (c + (i + 1) * dcol d) by ring.
      apply Hrun. lia.
    + replace (r + drow d + (k + 1) * drow d) with (r + (k + 1 + 1) * drow d) by ring.
      replace (c + dcol d + (k + 1) * dcol d) with (c + (k + 1 + 1) * dcol d) by ring.
      exact Hin'.
    + replace (r + drow d + (k + 1) * drow d) with (r + (k + 1 + 1) * drow d) by ring.
      replace (c + dcol d + (k + 1) * dcol d) with (c + (k + 1 + 1) * dcol d) by ring.
      exact Hend.
Qed.

(** The length of a run is determined by the board. *)
Lemma run_unique b color d r c k k' :
  0 <= k -> 0 <= k' -> run b color d r c k -> run b color d r c k' -> k = k'.
Proof.
  intros Hk Hk' (Hrun & _ & Hend) (Hrun' & _ & Hend').
  destruct (Z.lt_trichotomy k k') as [Hlt|[Heq|Hgt]]; [|exact Heq|].
  - destruct (Hrun' (k + 1)) as [_ H]; [lia|].
    rewrite Hend in H. destruct color; discriminate.
  - destruct (Hrun (k' + 1)) as [_ H]; [lia|].
    rewrite Hend' in H. destruct color; discriminate.
Qed.

(** What the loop computes on a board of the game: it stops on the cell
    that ends the run with the length of the run counted, or it stops with
    [val] other than [color] and there is no run. *)
Lemma scan_run b color d :
  wf_board b ->
  forall (n : nat) (s : Scan),
    inBoard (checkRow s) (checkCol s) ->
    val s <> VNull -> val s <> VColor color ->
    edgeDistance d (checkRow s) (checkCol s) <= Z.of_nat n ->
    exists s', while n (scanCond color) (scanBody b color d) s = Ret s' /\
      ((exists k, 0 <= k /\ run b color d (checkRow s) (checkCol s) k /\
          val s' = VColor color /\ flips s' = flips s + k /\
          checkRow s' = checkRow s + (k + 1) * drow d /\
          checkCol s' = checkCol s + (k + 1) * dcol d)
       \/ (val s' <> VColor color /\
           forall k, 0 <= k -> ~ run b color d (checkRow s) (checkCol s) k)).
Proof.
  intros Hwf. induction n as [|n IH]; intros s Hin Hnull Hcol Hn.
  { pose proof (edgeDistance_inBoard d _ _ Hin). lia. }
  simpl. rewrite (proj2 (scanCond_true color s)) by auto.
  destruct (inBoard_dec (checkRow s + drow d) (checkCol s + dcol d)) as [Hnext|Hnext].
  - destruct (Hwf _ _ Hnext) as [x Hx].
    rewrite (scanBody_inside b color d s x Hin Hnext Hx), bind_Ret.
    set (s1 := mkScan _ _ _ _).
    destruct x as [|c]; [|destruct (decide (c = color)) as [->|Hc]].
    + (* an empty cell *)
      exists s1. rewrite while_exit by (apply scanCond_false; left; reflexivity).
      split; [reflexivity|]. right. split; [discriminate|].
      intros k Hk Hrun. apply run_first in Hrun as (_ & [[_ H]|[_ H]]);
        try rewrite Hx in H; try discriminate; exact Hk.
    + (* a cell of the mover: the run ends *)
      exists s1.
      rewrite while_exit by (apply scanCond_false; right; left; reflexivity).
      split; [reflexivity|]. left. exists 0.
      split; [lia|]. split; [|split; [reflexivity|]].
      * split; [intros i Hi; lia|]. rewrite Z.add_0_l, !Z.mul_1_l. auto.
      * subst s1; simpl. unfold strictNe.
        rewrite bool_decide_eq_false_2 by auto. simpl. lia.
    + (* an opposing cell: the scan goes on from it *)
      assert (Hopp : c = otherColor color) by (destruct c, color; simpl; congruence).
      subst c.
      destruct (IH s1) as (s' & Hs' & Hres).
      { exact Hnext. }
      { discriminate. }
      { subst s1; simpl. congruence. }
      { subst s1; simpl. rewrite edgeDistance_step. lia. }
      exists s'. split; [exact Hs'|]. subst s1; simpl in Hres.
      unfold strictNe in Hres.
      rewrite !bool_decide_eq_true_2 in Hres by congruence. simpl in Hres.
      destruct Hres as [(k & Hk & Hrun & Hval & Hfl & Hr & Hc')|[Hval Hno]].
      * left. exists (k + 1). split; [lia|]. split; [apply run_step; auto|].
        split; [exact Hval|]. lia.
      * right. split; [exact Hval|]. intros k Hk Hrun.
        pose proof (run_first _ _ _ _ _ _ Hk Hrun) as (_ & [[_ H]|[Hk1 _]]).
        { rewrite Hx in H. congruence. }
        apply (Hno (k - 1)); [lia|]. apply run_step; auto; [lia|].
        replace (k - 1 + 1) with k by lia. exact Hrun.
  - rewrite (scanBody_outside b color d s Hin Hnext), bind_Ret.
    set (s1 := mkScan _ _ _ _).
    exists s1.
    rewrite while_exit by (apply scanCond_false; right; right; exact Hnext).
    split; [reflexivity|]. right. split; [exact Hcol|].
    intros k Hk Hrun. apply run_first in Hrun as (H & _); auto.
Qed.

(** What [checkForClosure] returns on a board of the game, from a
    coordinate of the board. *)
Lemma checkForClosure_spec b color r c d :
  wf_board b -> inBoard r c ->
  (exists k, 1 <= k /\ run b color d r c k /\
     checkForClosure b color (mkCoordinate r c) d = Ret (Some (closureOf d r c k)))
  \/ (~ closes b color r c d /\
      checkForClosure b color (mkCoordinate r c) d = Ret None).
Proof.
  intros Hwf Hin. unfold checkForClosure, scanLoop. cbn [row col].
  destruct (scan_run b color d Hwf (Z.to_nat SIZE)
              (mkScan (VNum 0) c r 0)) as (s' & Hs' & Hres).
  { exact Hin. } { discriminate. } { discriminate. }
  { simpl. pose proof (edgeDistance_inBoard d _ _ Hin). lia. }
  rewrite Hs', bind_Ret. simpl in Hres.
  destruct Hres as [(k & Hk & Hrun & Hval & Hfl & Hr & Hc)|[Hval Hno]].
  - rewrite bool_decide_eq_true_2 by exact Hval. simpl.
    destruct (Z.ltb_spec 0 (flips s')) as [Hpos|Hzero].
    + left. exists k. split; [lia|]. split; [exact Hrun|].
      unfold closureOf. rewrite Hr, Hc, Hfl. reflexivity.
    + right. split; [|reflexivity].
      intros (k' & Hk' & Hrun').
      assert (k = k') by (eapply run_unique; eauto; lia). lia.
  - rewrite bool_decide_eq_false_2 by exact Hval. simpl.
    right. split; [|reflexivity].
    intros (k & Hk & Hrun). apply (Hno k); [lia | exact Hrun].
Qed.

(** [getClosures] collects the closures of the directions that close. *)
Lemma getClosuresLoop_spec b color r c :
  wf_board b -> inBoard r c ->
  forall (ds : list Direction) (acc : list Closure),
    exists cls, getClosuresLoop b color (mkCoordinate r c) ds acc = Ret cls /\
      forall cl, cl ∈ cls <->
        cl ∈ acc \/ exists d k, d ∈ ds /\ 1 <= k /\ run b color d r c k /\
                                 cl = closureOf d r c k.
Proof.
  intros Hwf Hin. induction ds as [|d ds IH]; intros acc; simpl.
  - exists acc. split; [reflexivity|]. intros cl. split; [auto|].
    intros [H|(d & k & Hd & _)]; [exact H|]. inversion Hd.
  - destruct (checkForClosure_spec b color r c d Hwf Hin)
      as [(k & Hk & Hrun & ->)|[Hno ->]]; rewrite bind_Ret.
    + destruct (IH (acc ++ [closureOf d r c k])) as (cls & -> & Hcls).
      exists cls. split; [reflexivity|]. intros cl. rewrite Hcls, elem_of_app.
      rewrite list_elem_of_singleton. split.
      * intros [[H| ->]|(d' & k' & Hd' & H)]; [auto| |].
        -- right. exists d, k. split; [left|]; auto.
        -- right. exists d', k'. split; [right|]; auto.
      * intros [H|(d' & k' & Hd' & Hk' & Hrun' & ->)]; [auto|].
        apply elem_of_cons in Hd' as [->|Hd'].
        -- left. right. f_equal. eapply run_unique; eauto; lia.
        -- right. exists d', k'. auto.
    + destruct (IH acc) as (cls & -> & Hcls).
      exists cls. split; [reflexivity|]. intros cl. rewrite Hcls. split.
      * intros [H|(d' & k' & Hd' & H)]; [auto|].
        right. exists d', k'. split; [right|]; auto.
      * intros [H|(d' & k' & Hd' & Hk' & Hrun' & ->)]; [auto|].
        apply elem_of_cons in Hd' as [->|Hd'].
        -- exfalso. apply Hno. exists k'. auto.
        -- right. exists d', k'. auto.
Qed.

Lemma elem_of_DIRECTIONS d : d ∈ DIRECTIONS.
Proof. unfold DIRECTIONS. destruct d; set_solver. Qed.

Lemma getClosures_spec b color r c :
  wf_board b -> inBoard r c ->
  exists cls, getClosures b color (mkCoordinate r c) = Ret cls /\
    forall cl, cl ∈ cls <->
      exists d k, 1 <= k /\ run b color d r c k /\ cl = closureOf d r c k.
Proof.
  intros Hwf Hin. unfold getClosures.
  destruct (getClosuresLoop_spec b color r c Hwf Hin DIRECTIONS [])
    as (cls & Hcls & Hiff).
  exists cls. split; [exact Hcls|]. intros cl. rewrite Hiff. split.
  - intros [H|(d & k & _ & H)]; [inversion H | eauto].
  - intros (d & k & H). right. exists d, k. split; [apply elem_of_DIRECTIONS | exact H].
Qed.

(** ** validateMove and the enumeration of the moves *)

(** On a board of the game and a coordinate of the board, [validateMove]
    returns the closures of a legal move, a non-empty list, or [false]. *)
Lemma validateMove_spec b color r c :
  wf_board b -> inBoard r c ->
  (legal b color r c /\
   exists cls, validateMove b (mkCoordinate r c) color = Ret (Some cls) /\
     cls <> [] /\
     forall cl, cl ∈ cls <->
       exists d k, 1 <= k /\ run b color d r c k /\ cl = closureOf d r c k)
  \/ (~ legal b color r c /\ validateMove b (mkCoordinate r c) color = Ret None).
Proof.
  intros Hwf Hin. unfold validateMove, legal. cbn [row col].
  destruct (Hwf r c Hin) as [x Hx].
  rewrite (readPosition_cellAt b r c x Hx), bind_Ret.
  destruct x as [|c0]; unfold strictNe; simpl.
  - destruct (getClosures_spec b color r c Hwf Hin) as (cls & -> & Hcls).
    rewrite bind_Ret. destruct cls as [|cl cls]; simpl.
    + right. split; [|reflexivity]. intros (_ & d & k & Hk & Hrun).
      assert (H : closureOf d r c k ∈ []) by (apply Hcls; eauto).
      inversion H.
    + left. split; [|exists (cl :: cls); split; [reflexivity|split; [discriminate|exact Hcls]]].
      split; [exact Hx|].
      destruct (proj1 (Hcls cl)) as (d & k & Hk & Hrun & _); [left|].
      exists d, k. auto.
  - right. split; [|reflexivity]. rewrite Hx. intros [H _]. discriminate.
Qed.

Lemma elem_of_indices i : i ∈ indices <-> 0 <= i < SIZE.
Proof. unfold indices. rewrite elem_of_seqZ. lia. Qed.

Lemma anyValidInRow_spec b color r :
  wf_board b -> 0 <= r < SIZE ->
  forall cols, (forall c, c ∈ cols -> 0 <= c < SIZE) ->
    exists found, anyValidInRow b color r cols = Ret found /\
      (found = true <-> exists c, c ∈ cols /\ legal b color r c).
Proof.
  intros Hwf Hr. induction cols as [|c cols IH]; intros Hcols; simpl.
  - exists false. split; [reflexivity|]. split; [discriminate|].
    intros (c & Hc & _). inversion Hc.
  - assert (Hin : inBoard r c) by (split; [exact Hr | apply Hcols; left]).
    destruct (validateMove_spec b color r c Hwf Hin)
      as [(Hlegal & cls & -> & _)|(Hno & ->)]; rewrite bind_Ret.
    + rewrite bool_decide_eq_true_2 by discriminate.
      exists true. split; [reflexivity|]. split; [|reflexivity].
      intros _. exists c. split; [left | exact Hlegal].
    + rewrite bool_decide_eq_false_2 by auto.
      destruct IH as (found & -> & Hfound); [intros; apply Hcols; right; auto|].
      exists found. split; [reflexivity|]. rewrite Hfound. split.
      * intros (c' & Hc' & H). exists c'. split; [right|]; auto.
      * intros (c' & Hc' & H). apply elem_of_cons in Hc' as [->|Hc']; [tauto|eauto].
Qed.

Lemma anyValidInRows_spec b color :
  wf_board b ->
  forall rows, (forall r, r ∈ rows -> 0 <= r < SIZE) ->
    exists found, anyValidInRows b color rows = Ret found /\
      (found = true <-> exists r c, r ∈ rows /\ 0 <= c < SIZE /\ legal b color r c).
Proof.
  intros Hwf. induction rows as [|r rows IH]; intros Hrows; simpl.
  - exists false. split; [reflexivity|]. split; [discriminate|].
    intros (r & c & Hr & _). inversion Hr.
  - destruct (anyValidInRow_spec b color r Hwf (Hrows r ltac:(left)) indices)
      as (found & -> & Hfound); [intros c; apply elem_of_indices|].
    rewrite bind_Ret. destruct found.
    + exists true. split; [reflexivity|]. split; [|reflexivity]. intros _.
      destruct (proj1 Hfound eq_refl) as (c & Hc & H).
      exists r, c. split; [left|]. split; [apply elem_of_indices, Hc | exact H].
    + destruct IH as (found & -> & Hrest); [intros; apply Hrows; right; auto|].
      exists found. split; [reflexivity|]. rewrite Hrest. split.
      * intros (r' & c & Hr' & H). exists r', c. split; [right|]; auto.
      * intros (r' & c & Hr' & Hc & H).
        apply elem_of_cons in Hr' as [->|Hr']; [|eauto].
        assert (false = true); [|discriminate].
        apply Hfound. exists c. split; [apply elem_of_indices, Hc | exact H].
Qed.

(** [playerHasAnyValidMoves] decides whether some position of the board
    is a legal move. *)
Lemma playerHasAnyValidMoves_spec b color :
  wf_board b ->
  exists found, playerHasAnyValidMoves b color = Ret found /\
    (found = true <-> exists r c, inBoard r c /\ legal b color r c).
Proof.
  intros Hwf. unfold playerHasAnyValidMoves.
  destruct (anyValidInRows_spec b color Hwf indices) as (found & -> & Hfound);
    [intros r; apply elem_of_indices|].
  exists found. split; [reflexivity|]. rewrite Hfound. unfold inBoard. split.
  - intros (r & c & Hr & Hc & H). apply elem_of_indices in Hr. eauto.
  - intros (r & c & [Hr Hc] & H). exists r, c. rewrite elem_of_indices. auto.
Qed.

Lemma validMovesInRow_spec b color r :
  wf_board b -> 0 <= r < SIZE ->
  forall cols acc, (forall c, c ∈ cols -> 0 <= c < SIZE) ->
    exists l, validMovesInRow b color r cols acc = Ret l /\
      forall m, m ∈ l <->
        m ∈ acc \/ exists c, c ∈ cols /\ m = mkCoordinate r c /\ legal b color r c.
Proof.
  intros Hwf Hr. induction cols as [|c cols IH]; intros acc Hcols; simpl.
  - exists acc. split; [reflexivity|]. intros m. split; [auto|].
    intros [H|(c & Hc & _)]; [exact H | inversion Hc].
  - assert (Hin : inBoard r c) by (split; [exact Hr | apply Hcols; left]).
    destruct (validateMove_spec b color r c Hwf Hin)
      as [(Hlegal & cls & -> & _)|(Hno & ->)]; rewrite bind_Ret.
    + rewrite bool_decide_eq_true_2 by discriminate.
      destruct (IH (acc ++ [mkCoordinate r c])) as (l & -> & Hl);
        [intros; apply Hcols; right; auto|].
      exists l. split; [reflexivity|]. intros m.
      rewrite Hl, elem_of_app, list_elem_of_singleton. split.
      * intros [[H| ->]|(c' & Hc' & H)]; [auto| |].
        -- right. exists c. split; [left|]; auto.
        -- right. exists c'. split; [right|]; auto.
      * intros [H|(c' & Hc' & -> & H)]; [auto|].
        apply elem_of_cons in Hc' as [->|Hc']; [auto|].
        right. exists c'. auto.
    + rewrite bool_decide_eq_false_2 by auto.
      destruct (IH acc) as (l & -> & Hl); [intros; apply Hcols; right; auto|].
      exists l. split; [reflexivity|]. intros m. rewrite Hl. split.
      * intros [H|(c' & Hc' & H)]; [auto|].
        right. exists c'. split; [right|]; auto.
      * intros [H|(c' & Hc' & -> & H)]; [auto|].
        apply elem_of_cons in Hc' as [->|Hc']; [tauto|].
        right. exists c'. auto.
Qed.

Lemma validMovesInRows_spec b color :
  wf_board b ->
  forall rows acc, (forall r, r ∈ rows -> 0 <= r < SIZE) ->
    exists l, validMovesInRows b color rows acc = Ret l /\
      forall m, m ∈ l <->
        m ∈ acc \/ (row m ∈ rows /\ 0 <= col m < SIZE /\ legal b color (row m) (col m)).
Proof.
  intros Hwf. induction rows as [|r rows IH]; intros acc Hrows; simpl.
  - exists acc. split; [reflexivity|]. intros m. split; [auto|].
    intros [H|(Hr & _)]; [exact H | inversion Hr].
  - destruct (validMovesInRow_spec b color r Hwf (Hrows r ltac:(left)) indices acc)
      as (l1 & -> & Hl1); [intros c; apply elem_of_indices|].
    rewrite bind_Ret.
    destruct (IH l1) as (l & -> & Hl); [intros; apply Hrows; right; auto|].
    exists l. split; [reflexivity|]. intros m. rewrite Hl, Hl1. split.
    + intros [[H|(c & Hc & -> & H)]|(Hr' & H)]; [auto| |].
      * right. simpl. split; [left|]. split; [apply elem_of_indices, Hc | exact H].
      * right. split; [right|]; auto.
    + intros [H|(Hr' & Hc & H)]; [auto|].
      apply elem_of_cons in Hr' as [Hr'|Hr'].
      * left. right. exists (col m). rewrite elem_of_indices.
        split; [exact Hc|]. split; [destruct m; simpl in *; congruence|].
        rewrite <- Hr'. exact H.
      * right. auto.
Qed.

(** [getAllValidMoves] lists the legal moves of the board. *)
Lemma getAllValidMoves_spec b color :
  wf_board b ->
  exists l, getAllValidMoves b color = Ret l /\
    forall m, m ∈ l <-> inBoard (row m) (col m) /\ legal b color (row m) (col m).
Proof.
  intros Hwf. unfold getAllValidMoves.
  destruct (validMovesInRows_spec b color Hwf indices [])
    as (l & -> & Hl); [intros r; apply elem_of_indices|].
  exists l. split; [reflexivity|]. intros m.
  rewrite Hl, elem_of_indices. unfold inBoard. split.
  - intros [H|H]; [inversion H | tauto].
  - intros H. right. tauto.
Qed.

(** ** flipPieces *)

(** The loops of [flipPieces] walk from [(r0, c0)] along [d]; after [j]
    iterations the loop variables are [j] steps away. *)
Lemma flipCond_at b d r0 c0 m j :
  flipCond d (c0 + m * dcol d) (r0 + m * drow d)
    (mkFlip b (c0 + j * dcol d) (r0 + j * drow d)) = (j <=? m).
Proof.
  apply eq_iff_eq_true.
  destruct d; simpl; rewrite ?andb_true_iff, !Z.leb_le; lia.
Qed.

Lemma flipBody_at b d r0 c0 color j :
  flipBody d c0 r0 color (mkFlip b (c0 + j * dcol d) (r0 + j * drow d)) =
    b' ← writePosition b (r0 + j * drow d) (c0 + j * dcol d) color;
    mret (mkFlip b' (c0 + (j + 1) * dcol d) (r0 + (j + 1) * drow d)).
Proof.
  destruct d; simpl; rewrite ?Z.mul_0_r, ?Z.add_0_r;
    (match goal with |- context [writePosition ?b ?r ?c ?k] =>
       destruct (writePosition b r c k) end); simpl; try reflexivity;
    do 2 f_equal; lia.
Qed.

Lemma flip_loop d r0 c0 color m :
  forall (n : nat) (j : Z) (b : Board),
    0 <= j <= m + 1 -> m + 1 - j <= Z.of_nat n ->
    (forall i, j <= i <= m -> is_Some (positions b !! (r0 + i * drow d))) ->
    exists b',
      while n (flipCond d (c0 + m * dcol d) (r0 + m * drow d))
        (flipBody d c0 r0 color)
        (mkFlip b (c0 + j * dcol d) (r0 + j * drow d)) =
      Ret (mkFlip b' (c0 + (m + 1) * dcol d) (r0 + (m + 1) * drow d)) /\
      (forall r, is_Some (positions b !! r) -> is_Some (positions b' !! r)) /\
      (forall i, j <= i <= m ->
         cellAt b' (r0 + i * drow d) (c0 + i * dcol d) = Some (Piece color)) /\
      (forall r c, cellAt b' r c = cellAt b r c \/
         (cellAt b' r c = Some (Piece color) /\
          exists i, j <= i <= m /\ r = r0 + i * drow d /\ c = c0 + i * dcol d)).
Proof.
  induction n as [|n IH]; intros j b Hj Hn Hrows.
  - assert (j = m + 1) as -> by lia.
    rewrite while_exit by (rewrite flipCond_at; apply Z.leb_gt; lia).
    exists b. split; [reflexivity|]. split; [auto|]. split; [intros; lia | auto].
  - destruct (decide (j = m + 1)) as [->|Hne].
    + rewrite while_exit by (rewrite flipCond_at; apply Z.leb_gt; lia).
      exists b. split; [reflexivity|]. split; [auto|]. split; [intros; lia | auto].
    + cbn [while]. rewrite flipCond_at.
      rewrite (proj2 (Z.leb_le j m)) by lia. rewrite flipBody_at.
      destruct (writePosition_cellAt b (r0 + j * drow d) (c0 + j * dcol d) color)
        as (b1 & -> & Hrows1 & Hcell1); [apply Hrows; lia|].
      rewrite !bind_Ret.
      destruct (IH (j + 1) b1) as (b' & Hloop & Hrows' & Hset & Hframe);
        [lia | lia | intros; apply Hrows1, Hrows; lia |].
      exists b'. split; [exact Hloop|]. split; [auto|]. split.
      * intros i Hi. destruct (decide (i = j)) as [->|Hij].
        -- destruct (Hframe (r0 + j * drow d) (c0 + j * dcol d)) as [->|[H _]];
             [|exact H].
           rewrite Hcell1, bool_decide_eq_true_2; auto.
        -- apply Hset. lia.
      * intros r c. destruct (Hframe r c) as [->|[H (i & Hi & Hr & Hc)]].
        -- rewrite Hcell1. case_bool_decide as Hrc; [|auto].
           right. split; [reflexivity|]. exists j. split; [lia|tauto].
        -- right. split; [exact H|]. exists i. split; [lia|auto].
Qed.

Lemma flipBudget_at d r0 c0 m :
  0 <= m ->
  flipBudget d c0 r0 (c0 + m * dcol d) (r0 + m * drow d) = Z.to_nat (m + 1).
Proof. intros Hm. destruct d; simpl; f_equal; lia. Qed.

(** [flipPieces] on the segment of [m + 1] cells from [(r0, c0)] along [d]:
    every cell of the segment gets the color, every other cell keeps its
    content. *)
Lemma flipPieces_segment b d r0 c0 color m :
  0 <= m ->
  (forall i, 0 <= i <= m -> is_Some (positions b !! (r0 + i * drow d))) ->
  exists b',
    flipPieces b (c0, r0) (c0 + m * dcol d, r0 + m * drow d) d color = Ret b' /\
    (forall r, is_Some (positions b !! r) -> is_Some (positions b' !! r)) /\
    (forall i, 0 <= i <= m ->
       cellAt b' (r0 + i * drow d) (c0 + i * dcol d) = Some (Piece color)) /\
    (forall r c, cellAt b' r c = cellAt b r c \/
       (cellAt b' r c = Some (Piece color) /\
        exists i, 0 <= i <= m /\ r = r0 + i * drow d /\ c = c0 + i * dcol d)).
Proof.
  intros Hm Hrows. unfold flipPieces. rewrite flipBudget_at by exact Hm.
  destruct (flip_loop d r0 c0 color m (Z.to_nat (m + 1)) 0 b)
    as (b' & Hloop & H); [lia | lia | auto |].
  rewrite !Z.mul_0_l, !Z.add_0_r in Hloop. rewrite Hloop, bind_Ret.
  exists b'. split; [reflexivity | exact H].
Qed.

(** The loops of [flipPieces] exit within their budget, whatever the
    arguments. *)
Lemma flipPieces_budget b start_ end' d color :
  flipPieces b start_ end' d color <> Diverge.
Proof.
  destruct start_ as [startCol startRow], end' as [endCol endRow].
  unfold flipPieces.
  set (mu := fun s : Flip =>
    match d with
    | Left | LeftUp | LeftDown => fcol s - endCol + 1
    | Right | RightUp | RightDown => endCol - fcol s + 1
    | Up => frow s - endRow + 1
    | Down => endRow - frow s + 1
    end).
  assert (Hloop : forall (n : nat) (s : Flip), mu s <= Z.of_nat n ->
            while n (flipCond d endCol endRow) (flipBody d startCol startRow color) s
            <> Diverge).
  { induction n as [|n IH]; intros s Hmu; simpl;
      destruct (flipCond d endCol endRow s) eqn:Hc; try discriminate.
    - exfalso. subst mu. destruct d; simpl in *;
        rewrite ?andb_true_iff, ?Z.leb_le in Hc; lia.
    - apply bind_not_Diverge.
      + destruct d; simpl; (apply bind_not_Diverge;
          [apply writePosition_not_Diverge
          | intros; unfold mret, Outcome_ret; discriminate]).
      + intros s' Hs'. apply IH. subst mu.
        destruct d; simpl in *; rewrite ?andb_true_iff, ?Z.leb_le in Hc;
          apply bind_Ret_inv in Hs' as (b' & _ & Hb'); injection Hb' as <-;
          simpl; lia. }
  apply bind_not_Diverge.
  - apply Hloop. subst mu. destruct d; simpl; lia.
  - intros; unfold mret, Outcome_ret; discriminate.
Qed.

Lemma flipClosures_spec color :
  forall (cls : list Closure) (b : Board),
    wf_board b -> (forall cl, cl ∈ cls -> onBoardRows cl) ->
    exists b', flipClosures b cls color = Ret b' /\ wf_board b' /\
      (forall cl r c, cl ∈ cls -> onClosure cl r c ->
         cellAt b' r c = Some (Piece color)) /\
      (forall r c, cellAt b' r c = cellAt b r c \/
         (cellAt b' r c = Some (Piece color) /\
          exists cl, cl ∈ cls /\ onClosure cl r c)).
Proof.
  induction cls as [|cl cls IH]; intros b Hwf Hcls; simpl.
  - exists b. split; [reflexivity|]. split; [exact Hwf|]. split; [|auto].
    intros cl r c H. inversion H.
  - destruct (Hcls cl ltac:(left)) as (Hk & Hend & Hrows).
    destruct cl as [d [c0 r0] e k]; cbn [start end_ direction flipCount fst snd] in *.
    subst e. cbn [start end_ direction].
    destruct (flipPieces_segment b d r0 c0 color (k + 1))
      as (b1 & -> & _ & Hset & Hframe);
      [lia | intros; apply wf_board_row; auto |].
    rewrite bind_Ret.
    assert (Hwf1 : wf_board b1).
    { intros r c Hin. destruct (Hframe r c) as [->|[-> _]]; [apply Hwf, Hin | eauto]. }
    destruct (IH b1 Hwf1) as (b' & -> & Hwf' & Hset' & Hframe');
      [intros; apply Hcls; right; auto|].
    exists b'. split; [reflexivity|]. split; [exact Hwf'|]. split.
    + intros cl r c Hcl Hon. apply elem_of_cons in Hcl as [->|Hcl]; [|eauto].
      destruct Hon as (i & Hi & -> & ->); simpl in *.
      destruct (Hframe' (r0 + i * drow d) (c0 + i * dcol d)) as [->|[H _]];
        [apply Hset, Hi | exact H].
    + intros r c. destruct (Hframe' r c) as [->|[H (cl & Hcl & Hon)]].
      * destruct (Hframe r c) as [->|[H (i & Hi & -> & ->)]]; [auto|].
        right. split; [exact H|]. eexists. split; [left|]. exists i. auto.
      * right. split; [exact H|]. exists cl. split; [right|]; auto.
Qed.

(** Placing a piece on a legal move and flipping its closures. *)
Lemma applyMove_spec b color r c cls :
  wf_board b -> inBoard r c ->
  (forall cl, cl ∈ cls <->
     exists d k, 1 <= k /\ run b color d r c k /\ cl = closureOf d r c k) ->
  exists b1 b2,
    writePosition b r c color = Ret b1 /\ flipClosures b1 cls color = Ret b2 /\
    wf_board b2 /\
    (forall r' c', cellAt b1 r' c' =
       if bool_decide (r' = r /\ c' = c) then Some (Piece color) else cellAt b r' c') /\
    cellAt b2 r c = Some (Piece color) /\
    (forall cl r' c', cl ∈ cls -> onClosure cl r' c' ->
       cellAt b2 r' c' = Some (Piece color)) /\
    (forall r' c', ~ (r' = r /\ c' = c) ->
       (forall cl, cl ∈ cls -> ~ insideClosure cl r' c') ->
       cellAt b2 r' c' = cellAt b r' c') /\
    (forall r' c', isOccupied (cellAt b2 r' c') = isOccupied (cellAt b1 r' c')).
Proof.
  intros Hwf Hin Hcls.
  destruct (writePosition_wf b r c color Hwf (proj1 Hin)) as (b1 & Hb1 & Hwf1 & Hcell1).
  assert (Hrows : forall cl, cl ∈ cls -> onBoardRows cl).
  { intros cl Hcl. apply Hcls in Hcl as (d & k & Hk & (Hrun & Hend & _) & ->).
    unfold onBoardRows; simpl. split; [lia|]. split; [reflexivity|].
    intros i Hi. destruct (decide (i = 0)) as [->|Hi0];
      [destruct Hin; lia|].
    destruct (decide (i = k + 1)) as [->|Hik]; [apply Hend|].
    apply (Hrun i). lia. }
  destruct (flipClosures_spec color cls b1 Hwf1 Hrows)
    as (b2 & Hb2 & Hwf2 & Hset & Hframe).
  (* what the cells of a closure held before the flips *)
  assert (Hbefore : forall cl r' c', cl ∈ cls -> onClosure cl r' c' ->
            (r' = r /\ c' = c) \/ insideClosure cl r' c' \/
            cellAt b r' c' = Some (Piece color)).
  { intros cl r' c' Hcl (i & Hi & Hr & Hc).
    destruct (decide (i = 0)) as [->|Hi0]; [left|right].
    - apply Hcls in Hcl as (d & k & _ & _ & ->). simpl in *. lia.
    - destruct (decide (i = flipCount cl + 1)) as [->|Hik]; [right|left].
      + apply Hcls in Hcl as (d & k & _ & (_ & _ & Hend) & ->). simpl in *.
        subst r' c'. exact Hend.
      + exists i. split; [lia|auto]. }
  exists b1, b2. split; [exact Hb1|]. split; [exact Hb2|]. split; [exact Hwf2|].
  split; [exact Hcell1|]. split; [|split; [exact Hset|split]].
  - destruct (Hframe r c) as [->|[H _]]; [|exact H].
    rewrite Hcell1, bool_decide_eq_true_2; auto.
  - intros r' c' Hne Hout.
    destruct (Hframe r' c') as [->|[H (cl & Hcl & Hon)]].
    + rewrite Hcell1, bool_decide_eq_false_2; auto.
    + destruct (Hbefore cl r' c' Hcl Hon) as [Heq|[Hins|Hend]].
      * tauto.
      * destruct (Hout cl Hcl Hins).
      * congruence.
  - intros r' c'.
    destruct (Hframe r' c') as [->|[H (cl & Hcl & Hon)]]; [reflexivity|].
    rewrite H, Hcell1. case_bool_decide as Hrc; [reflexivity|].
    destruct (Hbefore cl r' c' Hcl Hon) as [Heq|[(i & Hi & -> & ->)|Hend]].
    + tauto.
    + apply Hcls in Hcl as (d & k & _ & (Hrun & _) & ->). simpl in *.
      destruct (Hrun i Hi) as [_ ->]. reflexivity.
    + rewrite Hend. reflexivity.
Qed.

(** ** Counting cells and getScores *)

Lemma sumZ_ext (f g : Z -> Z) (l : list Z) :
  (forall i, i ∈ l -> f i = g i) -> sumZ f l = sumZ g l.
Proof.
  induction l as [|x l IH]; intros H; simpl; [reflexivity|].
  rewrite (H x) by left. rewrite IH; [reflexivity|]. intros; apply H; right; auto.
Qed.

Lemma sumZ_plus (f g : Z -> Z) (l : list Z) :
  sumZ (fun i => f i + g i) l = sumZ f l + sumZ g l.
Proof. induction l as [|x l IH]; simpl; lia. Qed.

(** Raising one term of a sum by one raises the sum by one. *)
Lemma sumZ_bump (f g : Z -> Z) (l : list Z) (x : Z) :
  NoDup l -> x ∈ l ->
  (forall i, i ∈ l -> i <> x -> g i = f i) -> g x = f x + 1 ->
  sumZ g l = sumZ f l + 1.
Proof.
  induction l as [|y l IH]; intros Hnd Hx Hrest Hat; [inversion Hx|].
  apply NoDup_cons in Hnd as [Hy Hnd]. simpl.
  apply elem_of_cons in Hx as [->|Hx].
  - rewrite Hat, (sumZ_ext g f l); [lia|].
    intros i Hi. apply Hrest; [right; auto|]. intros ->. auto.
  - rewrite IH by (auto; intros; apply Hrest; auto; right; auto).
    rewrite Hrest; [lia | left | intros ->; auto].
Qed.

Lemma NoDup_indices : NoDup indices.
Proof. apply NoDup_seqZ. Qed.

Lemma countCells_ext (p q : option Cell -> bool) b b' :
  (forall r c, inBoard r c -> p (cellAt b' r c) = q (cellAt b r c)) ->
  countCells p b' = countCells q b.
Proof.
  intros H. unfold countCells. apply sumZ_ext. intros r Hr.
  apply sumZ_ext. intros c Hc. rewrite H; [reflexivity|].
  apply elem_of_indices in Hr, Hc. split; auto.
Qed.

(** A board that differs from another by one more cell with property [p]. *)
Lemma countCells_bump (p : option Cell -> bool) b b' r0 c0 :
  inBoard r0 c0 ->
  (forall r c, ~ (r = r0 /\ c = c0) -> p (cellAt b' r c) = p (cellAt b r c)) ->
  p (cellAt b r0 c0) = false -> p (cellAt b' r0 c0) = true ->
  countCells p b' = countCells p b + 1.
Proof.
  intros [Hr0 Hc0] Hrest Hold Hnew. unfold countCells.
  apply (sumZ_bump _ _ indices r0);
    [apply NoDup_indices | apply elem_of_indices, Hr0 | |].
  - intros r Hr Hne. apply sumZ_ext. intros c _. rewrite Hrest; [reflexivity|tauto].
  - apply (sumZ_bump _ _ indices c0);
      [apply NoDup_indices | apply elem_of_indices, Hc0 | |].
    + intros c Hc Hne. rewrite Hrest; [reflexivity|tauto].
    + rewrite Hold, Hnew. reflexivity.
Qed.

Lemma occupiedCells_colors b :
  occupiedCells b = countColor BLACK b + countColor WHITE b.
Proof.
  unfold occupiedCells, countColor, countCells. rewrite <- sumZ_plus.
  apply sumZ_ext. intros r _. rewrite <- sumZ_plus.
  apply sumZ_ext. intros c _.
  destruct (cellAt b r c) as [[|[|]]|]; reflexivity.
Qed.

Lemma getScoresCols_spec b r :
  wf_board b -> 0 <= r < SIZE ->
  forall cols acc, (forall c, c ∈ cols -> 0 <= c < SIZE) ->
    getScoresCols b r cols acc =
      Ret (acc.1 + sumZ (fun c => if holds BLACK (cellAt b r c) then 1 else 0) cols,
           acc.2 + sumZ (fun c => if holds WHITE (cellAt b r c) then 1 else 0) cols).
Proof.
  intros Hwf Hr. induction cols as [|c cols IH]; intros [bl wh] Hcols; simpl.
  - rewrite !Z.add_0_r. reflexivity.
  - destruct (Hwf r c) as [x Hx]; [split; [exact Hr | apply Hcols; left]|].
    rewrite (readPosition_cellAt b r c x Hx), bind_Ret, Hx.
    rewrite IH by (intros; apply Hcols; right; auto).
    destruct x as [|[|]]; simpl; f_equal; f_equal; lia.
Qed.

Lemma getScoresRows_spec b :
  wf_board b ->
  forall rows acc, (forall r, r ∈ rows -> 0 <= r < SIZE) ->
    getScoresRows b rows acc =
      Ret (acc.1 + sumZ (fun r => sumZ (fun c =>
                     if holds BLACK (cellAt b r c) then 1 else 0) indices) rows,
           acc.2 + sumZ (fun r => sumZ (fun c =>
                     if holds WHITE (cellAt b r c) then 1 else 0) indices) rows).
Proof.
  intros Hwf. induction rows as [|r rows IH]; intros [bl wh] Hrows; simpl.
  - rewrite !Z.add_0_r. reflexivity.
  - rewrite (getScoresCols_spec b r Hwf (Hrows r ltac:(left)))
      by (intros c; apply elem_of_indices).
    rewrite bind_Ret, IH by (intros; apply Hrows; right; auto).
    simpl. f_equal; f_equal; lia.
Qed.

(** [getScores] counts the cells of each color. *)
Lemma getScores_spec b :
  wf_board b -> getScores b = Ret (countColor BLACK b, countColor WHITE b).
Proof.
  intros Hwf. unfold getScores.
  rewrite (getScoresRows_spec b Hwf) by (intros r; apply elem_of_indices).
  reflexivity.
Qed.

(** ** One turn *)

Lemma validateMove_accepted b color r c cls :
  wf_board b -> inBoard r c ->
  validateMove b (mkCoordinate r c) color = Ret (Some cls) ->
  legal b color r c /\ cls <> [] /\
  forall cl, cl ∈ cls <->
    exists d k, 1 <= k /\ run b color d r c k /\ cl = closureOf d r c k.
Proof.
  intros Hwf Hin Hv.
  destruct (validateMove_spec b color r c Hwf Hin)
    as [(Hlegal & cls' & Hv' & Hne & Hcls)|(_ & Hv')]; rewrite Hv' in Hv;
    [|discriminate].
  injection Hv as <-. auto.
Qed.

Lemma announce_spec sc :
  (announce sc = Tie <-> sc.1 = sc.2) /\
  (announce sc = Wins BLACK <-> sc.2 < sc.1) /\
  (announce sc = Wins WHITE <-> sc.1 < sc.2).
Proof.
  unfold announce.
  destruct (Z.eqb_spec sc.1 sc.2); [|destruct (Z.ltb_spec sc.2 sc.1)];
    repeat split; intros; try discriminate; try lia; reflexivity.
Qed.

(** An accepted move: the piece is placed, the closures are flipped, the
    scores are recounted, and the next player is the other color if it has
    a legal move, the mover otherwise. *)
Lemma turn_accepted g r c cls :
  wf_board (board g) -> inBoard r c ->
  validateMove (board g) (mkCoordinate r c) (curPlayer g) = Ret (Some cls) ->
  exists b1 b2 player report,
    writePosition (board g) r c (curPlayer g) = Ret b1 /\
    flipClosures b1 cls (curPlayer g) = Ret b2 /\
    wf_board b2 /\
    turn g (mkCoordinate r c) =
      Ret (mkGame b2 (countColor BLACK b2, countColor WHITE b2) player, report) /\
    (hasLegalMove b2 (otherColor (curPlayer g)) ->
       player = otherColor (curPlayer g) /\ report = NextPlayer) /\
    (~ hasLegalMove b2 (otherColor (curPlayer g)) ->
       player = curPlayer g /\
       (hasLegalMove b2 (curPlayer g) -> report = SkippedTurn) /\
       (~ hasLegalMove b2 (curPlayer g) ->
          report = GameOver (announce (countColor BLACK b2, countColor WHITE b2)))).
Proof.
  intros Hwf Hin Hv.
  destruct (validateMove_accepted _ _ _ _ _ Hwf Hin Hv) as (_ & _ & Hcls).
  destruct (applyMove_spec _ _ _ _ _ Hwf Hin Hcls)
    as (b1 & b2 & Hb1 & Hb2 & Hwf2 & _).
  assert (Hback : otherColor (otherColor (curPlayer g)) = curPlayer g)
    by (destruct (curPlayer g); reflexivity).
  unfold turn. rewrite Hv, bind_Ret. cbn [row col].
  rewrite Hb1, bind_Ret, Hb2, bind_Ret, (getScores_spec b2 Hwf2), bind_Ret.
  destruct (playerHasAnyValidMoves_spec b2 (otherColor (curPlayer g)) Hwf2)
    as (some & -> & Hsome).
  rewrite bind_Ret. fold (hasLegalMove b2 (otherColor (curPlayer g))) in Hsome.
  destruct some.
  - exists b1, b2, (otherColor (curPlayer g)), NextPlayer.
    split; [reflexivity|]. split; [exact Hb2|]. split; [exact Hwf2|].
    split; [reflexivity|]. split; [auto|].
    intros Hno. exfalso. apply Hno, Hsome. reflexivity.
  - assert (Hnone : ~ hasLegalMove b2 (otherColor (curPlayer g))).
    { intros H. apply Hsome in H. discriminate. }
    rewrite Hback.
    destruct (playerHasAnyValidMoves_spec b2 (curPlayer g) Hwf2)
      as (again & -> & Hagain).
    rewrite bind_Ret. fold (hasLegalMove b2 (curPlayer g)) in Hagain.
    destruct again.
    + exists b1, b2, (curPlayer g), SkippedTurn.
      split; [reflexivity|]. split; [exact Hb2|]. split; [exact Hwf2|].
      split; [reflexivity|]. split; [tauto|].
      intros _. split; [reflexivity|]. split; [auto|].
      intros Hno. exfalso. apply Hno, Hagain. reflexivity.
    + exists b1, b2, (curPlayer g),
        (GameOver (announce (countColor BLACK b2, countColor WHITE b2))).
      split; [reflexivity|]. split; [exact Hb2|]. split; [exact Hwf2|].
      split; [reflexivity|]. split; [tauto|].
      intros _. split; [reflexivity|]. split; [|auto].
      intros H. apply Hagain in H. discriminate.
Qed.

Lemma wf_boardb_correct b : wf_boardb b = true -> wf_board b.
Proof.
  unfold wf_boardb. rewrite forallb_forall. intros H r c [Hr Hc].
  specialize (H r). rewrite forallb_forall in H.
  assert (Hb : bool_decide (is_Some (cellAt b r c)) = true).
  { apply H; apply list_elem_of_In, elem_of_indices; assumption. }
  apply bool_decide_eq_true in Hb. exact Hb.
Qed.

(** ** The constructor *)

Lemma lookup_filled {A : Type} (n : nat) (v : A) (i : Z) :
  filled n v !! i = if bool_decide (0 <= i < Z.of_nat n) then Some v else None.
Proof.
  induction n as [|n IH]; simpl.
  - rewrite lookup_empty, bool_decide_eq_false_2; [reflexivity|lia].
  - destruct (decide (i = Z.of_nat n)) as [->|Hne].
    + rewrite lookup_insert_eq, bool_decide_eq_true_2; [reflexivity|lia].
    + rewrite lookup_insert_ne, IH by congruence.
      repeat case_bool_decide; try reflexivity; lia.
Qed.

(** ** The automatic move and parseCoordinate, as they behave *)

(** No [Coordinate] has a [flipCount]: the selection loop keeps its first
    [bestMove] and pushes every valid move. *)
Lemma bestMovesLoop_all validMoves bestMove bestMoves :
  bestMovesLoop validMoves bestMove bestMoves = (bestMove, bestMoves ++ validMoves).
Proof.
  revert bestMoves. induction validMoves as [|m rest IH]; intros bestMoves; simpl.
  - rewrite app_nil_r. reflexivity.
  - rewrite IH, <- app_assoc. reflexivity.
Qed.

(** The automatic move draws from all the valid moves, the first one
    listed twice. *)
Lemma autoMove_candidates b color random first rest :
  getAllValidMoves b color = Ret (first :: rest) ->
  autoMove b color random =
    match (first :: first :: rest) !!
            Z.to_nat (Qfloor (random * inject_Z
                                (Z.of_nat (length (first :: first :: rest))))) with
    | Some m => Ret m
    | None => Throw TypeError
    end.
Proof.
  intros H. unfold autoMove. rewrite H, bind_Ret, bestMovesLoop_all.
  cbn [snd app].
  destruct (_ !! _) as [[r c]|]; reflexivity.
Qed.

(** What [parseCoordinate] checks of a token it accepts: its length, the
    column, and that the row is not below zero. *)
Lemma parseCoordinate_accepts input p :
  parseCoordinate input = Ret p ->
  (2 <= String.length input <= 3)%nat /\
  (exists c, parsedCol p = Num c /\ 0 <= c < SIZE) /\
  (parsedRow p = NaN \/ exists r, parsedRow p = Num r /\ 0 <= r).
Proof.
  unfold parseCoordinate.
  destruct (Nat.ltb_spec (String.length input) 2); [discriminate|].
  destruct (Nat.ltb_spec 3 (String.length input)); [discriminate|]. simpl.
  destruct (numSub (firstCharCode input) 97) as [|c] eqn:Hc; simpl.
  - destruct input; [simpl in *; lia | discriminate].
  - destruct (Z.ltb_spec c 0); [discriminate|].
    destruct (Z.ltb_spec (SIZE - 1) c); [discriminate|]. simpl.
    destruct (numSub (parseInt (sliceFrom1 input)) 1) as [|r]; simpl.
    + intros H'. injection H' as <-. simpl.
      split; [lia|]. split; [exists c; split; [reflexivity|lia] | left; reflexivity].
    + destruct (Z.ltb_spec r 0); [discriminate|]. simpl.
      intros H'. injection H' as <-. simpl.
      split; [lia|]. split; [exists c; split; [reflexivity|lia]|].
      right. exists r. split; [reflexivity|lia].
Qed.

(** Conversely, a row number is accepted however large it is. *)
Lemma parseCoordinate_row_unbounded input c n :
  (2 <= String.length input <= 3)%nat ->
  firstCharCode input = Num (c + 97) -> 0 <= c < SIZE ->
  parseInt (sliceFrom1 input) = Num n -> 1 <= n ->
  parseCoordinate input = Ret (mkParsed (Num (n - 1)) (Num c)).
Proof.
  intros Hlen Hcol Hc Hrow Hn. unfold parseCoordinate.
  rewrite (proj2 (Nat.ltb_ge (String.length input) 2)) by lia.
  rewrite (proj2 (Nat.ltb_ge 3 (String.length input))) by lia.
  rewrite Hcol, Hrow. simpl.
  replace (c + 97 - 97) with c by lia.
  rewrite (proj2 (Z.ltb_ge c 0)) by lia.
  rewrite (proj2 (Z.ltb_ge (SIZE - 1) c)) by lia.
  rewrite (proj2 (Z.ltb_ge (n - 1) 0)) by lia.
  reflexivity.
Qed.

(** ** The boards the program reaches *)

Lemma constructor_cells b :
  constructor = Ret b ->
  size b = SIZE /\
  forall r c, cellAt b r c =
    if bool_decide (0 <= r < SIZE /\ 0 <= c < SIZE) then Some Null else None.
Proof.
  unfold constructor, newBoard, newArray.
  destruct (26 <? SIZE); [discriminate|].
  destruct (Z.ltb_spec SIZE 0); [discriminate|].
  destruct (2 ^ 32 <=? SIZE); [discriminate|]. simpl.
  intros H'. injection H' as <-. split; [reflexivity|].
  intros r c. unfold cellAt; simpl. rewrite lookup_fmap, lookup_filled.
  case_bool_decide as Hr; simpl.
  - rewrite lookup_filled. repeat case_bool_decide; try reflexivity; lia.
  - rewrite bool_decide_eq_false_2; [reflexivity|lia].
Qed.

(** The board the constructor returns is a board of the game, and so are
    the boards after the starting pieces and after every turn. *)
Lemma constructor_wf b : constructor = Ret b -> wf_board b.
Proof.
  intros H r c Hin. rewrite (proj2 (constructor_cells b H)).
  rewrite bool_decide_eq_true_2 by exact Hin. eauto.
Qed.

Lemma writePosition_Ret_wf b r c color b' :
  wf_board b -> writePosition b r c color = Ret b' -> wf_board b'.
Proof.
  intros Hwf Hw.
  assert (Hrow : is_Some (positions b !! r)).
  { unfold writePosition in Hw. destruct (positions b !! r); [eauto|discriminate]. }
  destruct (writePosition_cellAt b r c color Hrow) as (b'' & Hw' & _ & Hcell).
  rewrite Hw in Hw'. injection Hw' as <-.
  intros r' c' Hin. rewrite Hcell. case_bool_decide; [eauto | apply Hwf, Hin].
Qed.

Lemma placeStartingPieces_wf b b' :
  wf_board b -> placeStartingPieces b = Ret b' -> wf_board b'.
Proof.
  unfold placeStartingPieces. intros Hwf H.
  destruct (Z.even SIZE); [|discriminate].
  apply bind_Ret_inv in H as (b1 & H1 & H).
  apply bind_Ret_inv in H as (b2 & H2 & H).
  apply bind_Ret_inv in H as (b3 & H3 & H).
  eauto using writePosition_Ret_wf.
Qed.

Lemma turn_wf g r c g' report :
  wf_board (board g) -> inBoard r c ->
  turn g (mkCoordinate r c) = Ret (g', report) -> wf_board (board g').
Proof.
  intros Hwf Hin Hturn.
  destruct (validateMove_spec (board g) (curPlayer g) r c Hwf Hin)
    as [(_ & cls & Hv & _)|(_ & Hv)].
  - destruct (turn_accepted g r c cls Hwf Hin Hv)
      as (b1 & b2 & player & report' & _ & _ & Hwf2 & Hturn' & _).
    rewrite Hturn in Hturn'. injection Hturn' as -> _. exact Hwf2.
  - unfold turn in Hturn. rewrite Hv, bind_Ret in Hturn.
    injection Hturn as <- _. exact Hwf.
Qed.

(** * The claims *)

(** C1.  On every board of the game, for every color and every coordinate of
    the board, [validateMove] returns a non-empty list of closures if and
    only if the target cell is empty and one of the eight directions has a
    gap-free run of one or more opposing cells next to the coordinate,
    ended on the board by a cell of the mover; otherwise it returns [false],
    the move is invalid. *)
Theorem validateMove_legal_iff b color coords :
  wf_board b -> inBoard (row coords) (col coords) ->
  exists m, validateMove b coords color = Ret m /\
    ((exists cls, m = Some cls /\ cls <> []) <->
     (cellAt b (row coords) (col coords) = Some Null /\
      exists d, closes b color (row coords) (col coords) d)) /\
    (~ (cellAt b (row coords) (col coords) = Some Null /\
        exists d, closes b color (row coords) (col coords) d) -> m = None).
Proof.
  intros Hwf Hin. destruct coords as [r c]; simpl in *.
  destruct (validateMove_spec b color r c Hwf Hin)
    as [(Hlegal & cls & -> & Hne & _)|(Hno & ->)].
  - exists (Some cls). split; [reflexivity|]. split.
    + split; [intros _; exact Hlegal | intros _; eauto].
    + intros H. destruct (H Hlegal).
  - exists None. split; [reflexivity|]. split; [|reflexivity].
    split; [intros (cls & H & _); discriminate | intros H; destruct (Hno H)].
Qed.

(** C2.  After an accepted move (the piece placed, then every closure of the
    move applied by [flipPieces]), every cell of a closure of the move, from
    its start to its end, holds the color of the mover, and every cell other
    than the placed one that is not strictly inside a closure holds what it
    held before the move. *)
Theorem accepted_move_flips_exactly g move cls :
  wf_board (board g) -> inBoard (row move) (col move) ->
  validateMove (board g) move (curPlayer g) = Ret (Some cls) ->
  exists b1 g' report,
    writePosition (board g) (row move) (col move) (curPlayer g) = Ret b1 /\
    flipClosures b1 cls (curPlayer g) = Ret (board g') /\
    turn g move = Ret (g', report) /\ report <> InvalidMove /\
    (forall cl r c, cl ∈ cls -> onClosure cl r c ->
       cellAt (board g') r c = Some (Piece (curPlayer g))) /\
    (forall r c, ~ (r = row move /\ c = col move) ->
       (forall cl, cl ∈ cls -> ~ insideClosure cl r c) ->
       cellAt (board g') r c = cellAt (board g) r c).
Proof.
  intros Hwf Hin Hv. destruct move as [r c]; simpl in *.
  destruct (validateMove_accepted _ _ _ _ _ Hwf Hin Hv) as (_ & _ & Hcls).
  destruct (turn_accepted g r c cls Hwf Hin Hv)
    as (b1 & b2 & player & report & Hb1 & Hb2 & _ & Hturn & Hnext & Hskip).
  destruct (applyMove_spec _ _ _ _ _ Hwf Hin Hcls)
    as (b1' & b2' & Hb1' & Hb2' & _ & _ & _ & Hset & Hframe & _).
  rewrite Hb1 in Hb1'. injection Hb1' as <-.
  rewrite Hb2 in Hb2'. injection Hb2' as <-.
  exists b1, (mkGame b2 (countColor BLACK b2, countColor WHITE b2) player), report.
  split; [exact Hb1|]. split; [exact Hb2|]. split; [exact Hturn|].
  split; [|split; [exact Hset | exact Hframe]].
  unfold turn in Hturn. rewrite Hv, bind_Ret in Hturn. cbn [row col] in Hturn.
  rewrite Hb1, bind_Ret, Hb2, bind_Ret in Hturn.
  apply bind_Ret_inv in Hturn as (sc & _ & Hturn).
  apply bind_Ret_inv in Hturn as (some & _ & Hturn).
  unfold mret, Outcome_ret in Hturn.
  destruct some; [congruence|].
  apply bind_Ret_inv in Hturn as (again & _ & Hturn).
  destruct again; congruence.
Qed.

(** C3.  After an accepted move the board is the one the placement and the
    flips of the closures leave, the scores are the counts of the two colors
    on it, and the other color is to play if it has a legal move on it.  If
    it has none, the mover is to play again (the turn is skipped); and if
    the mover has no legal move either, the game is over, the winner being
    the color with the strictly higher score, or a tie on equal scores. *)
Theorem turn_skip_and_terminal g move cls :
  wf_board (board g) -> inBoard (row move) (col move) ->
  validateMove (board g) move (curPlayer g) = Ret (Some cls) ->
  exists b1 g' report,
    writePosition (board g) (row move) (col move) (curPlayer g) = Ret b1 /\
    flipClosures b1 cls (curPlayer g) = Ret (board g') /\
    turn g move = Ret (g', report) /\
    scores g' = (countColor BLACK (board g'), countColor WHITE (board g')) /\
    (hasLegalMove (board g') (otherColor (curPlayer g)) ->
       curPlayer g' = otherColor (curPlayer g) /\ report = NextPlayer) /\
    (~ hasLegalMove (board g') (otherColor (curPlayer g)) ->
       curPlayer g' = curPlayer g /\
       (hasLegalMove (board g') (curPlayer g) -> report = SkippedTurn) /\
       (~ hasLegalMove (board g') (curPlayer g) ->
          exists w, report = GameOver w /\
            (w = Tie <-> (scores g').1 = (scores g').2) /\
            (w = Wins BLACK <-> (scores g').2 < (scores g').1) /\
            (w = Wins WHITE <-> (scores g').1 < (scores g').2))).
Proof.
  intros Hwf Hin Hv. destruct move as [r c]; simpl in *.
  destruct (turn_accepted g r c cls Hwf Hin Hv)
    as (b1 & b2 & player & report & Hb1 & Hb2 & _ & Hturn & Hnext & Hskip).
  exists b1, (mkGame b2 (countColor BLACK b2, countColor WHITE b2) player), report.
  split; [exact Hb1|]. split; [exact Hb2|].
  split; [exact Hturn|]. simpl.
  split; [reflexivity|]. split; [exact Hnext|].
  intros Hno. destruct (Hskip Hno) as (Hp & Hs & Hover).
  split; [exact Hp|]. split; [exact Hs|].
  intros Hno'. eexists. split; [apply Hover, Hno'|].
  apply (announce_spec (countColor BLACK b2, countColor WHITE b2)).
Qed.

(** C4.  After an accepted move the board has one more occupied cell than
    before (and the two scores add up to that number), and the flips leave
    the occupancy of every cell as the placement left it: no empty cell
    becomes occupied and no occupied cell empty. *)
Theorem accepted_move_occupancy g move cls :
  wf_board (board g) -> inBoard (row move) (col move) ->
  validateMove (board g) move (curPlayer g) = Ret (Some cls) ->
  exists b1 g' report,
    writePosition (board g) (row move) (col move) (curPlayer g) = Ret b1 /\
    flipClosures b1 cls (curPlayer g) = Ret (board g') /\
    turn g move = Ret (g', report) /\
    occupiedCells b1 = occupiedCells (board g) + 1 /\
    occupiedCells (board g') = occupiedCells (board g) + 1 /\
    (scores g').1 + (scores g').2 = occupiedCells (board g) + 1 /\
    (forall r c, isOccupied (cellAt (board g') r c) = isOccupied (cellAt b1 r c)).
Proof.
  intros Hwf Hin Hv. destruct move as [r c]; simpl in *.
  destruct (validateMove_accepted _ _ _ _ _ Hwf Hin Hv) as ((Hempty & _) & _ & Hcls).
  destruct (turn_accepted g r c cls Hwf Hin Hv)
    as (b1 & b2 & player & report & Hb1 & Hb2 & _ & Hturn & _).
  destruct (applyMove_spec _ _ _ _ _ Hwf Hin Hcls)
    as (b1' & b2' & Hb1' & Hb2' & _ & Hcell1 & _ & _ & _ & Hocc).
  rewrite Hb1 in Hb1'. injection Hb1' as <-.
  rewrite Hb2 in Hb2'. injection Hb2' as <-.
  assert (Hone : occupiedCells b1 = occupiedCells (board g) + 1).
  { apply (countCells_bump isOccupied (board g) b1 r c Hin).
    - intros r' c' Hne. rewrite Hcell1, bool_decide_eq_false_2; auto.
    - rewrite Hempty. reflexivity.
    - rewrite Hcell1, bool_decide_eq_true_2; auto. }
  exists b1, (mkGame b2 (countColor BLACK b2, countColor WHITE b2) player), report.
  split; [exact Hb1|]. split; [exact Hb2|]. split; [exact Hturn|].
  assert (Htwo : occupiedCells b2 = occupiedCells (board g) + 1).
  { rewrite <- Hone. apply countCells_ext. intros; apply Hocc. }
  split; [exact Hone|]. split; [exact Htwo|]. split; [|exact Hocc]. simpl.
  rewrite <- occupiedCells_colors. exact Htwo.
Qed.

(** C7, as amended.  Construction succeeds for every size from 0 to 26,
    with a grid of that size of empty cells; it fails with the board-size
    error exactly for the sizes above 26; and a negative size fails in the
    allocation of the array, with a [RangeError]. *)
Theorem constructor_size_check :
  (0 <= SIZE <= 26 ->
     exists b, constructor = Ret b /\ size b = SIZE /\
       forall r c, cellAt b r c =
         if bool_decide (0 <= r < SIZE /\ 0 <= c < SIZE) then Some Null else None) /\
  (26 < SIZE ->
     constructor = Throw (BoardOutOfBoundsException "Max board size is 26")) /\
  (SIZE < 0 -> constructor = Throw RangeError).
Proof.
  unfold constructor, newBoard, newArray. split; [|split]; intros H.
  - rewrite (proj2 (Z.ltb_ge 26 SIZE)) by lia.
    rewrite (proj2 (Z.ltb_ge SIZE 0)) by lia.
    rewrite (proj2 (Z.leb_gt (2 ^ 32) SIZE)) by lia. simpl.
    eexists. split; [reflexivity|]. split; [reflexivity|].
    intros r c. unfold cellAt; simpl. rewrite lookup_fmap, lookup_filled.
    case_bool_decide as Hr; simpl.
    + rewrite lookup_filled. repeat case_bool_decide; try reflexivity; lia.
    + rewrite bool_decide_eq_false_2; [reflexivity|lia].
  - rewrite (proj2 (Z.ltb_lt 26 SIZE)) by lia. reflexivity.
  - rewrite (proj2 (Z.ltb_ge 26 SIZE)) by lia.
    rewrite (proj2 (Z.ltb_lt SIZE 0)) by lia. reflexivity.
Qed.

(** C8.  A rejected move leaves the whole state as it was: on any board,
    when [validateMove] returns [false] the turn returns the game it was
    given, with the same board, scores and player to move; and on a board of
    the game that is what happens for a move on an occupied cell and for a
    move no direction closes.  ([validateMove], [getClosures] and
    [checkForClosure] only read the board: they are functions of it.) *)
Theorem rejected_move_unchanged g move :
  (validateMove (board g) move (curPlayer g) = Ret None ->
   turn g move = Ret (g, InvalidMove)) /\
  (wf_board (board g) -> inBoard (row move) (col move) ->
   (cellAt (board g) (row move) (col move) <> Some Null \/
    forall d, ~ closes (board g) (curPlayer g) (row move) (col move) d) ->
   validateMove (board g) move (curPlayer g) = Ret None /\
   turn g move = Ret (g, InvalidMove)).
Proof.
  assert (Hturn : validateMove (board g) move (curPlayer g) = Ret None ->
                  turn g move = Ret (g, InvalidMove)).
  { intros Hv. unfold turn. rewrite Hv. reflexivity. }
  split; [exact Hturn|].
  intros Hwf Hin Hrej. destruct move as [r c]; simpl in *.
  destruct (validateMove_spec (board g) (curPlayer g) r c Hwf Hin)
    as [((Hempty & d & Hd) & _)|(_ & Hv)].
  - destruct Hrej as [H|H]; [destruct (H Hempty) | destruct (H d Hd)].
  - split; [exact Hv | exact (Hturn Hv)].
Qed.

(** C9.  On every board of the game and for every color,
    [playerHasAnyValidMoves] returns [true] if and only if
    [getAllValidMoves] returns a non-empty list. *)
Theorem playerHasAnyValidMoves_agrees b color :
  wf_board b ->
  exists found moves,
    playerHasAnyValidMoves b color = Ret found /\
    getAllValidMoves b color = Ret moves /\
    (found = true <-> moves <> []).
Proof.
  intros Hwf.
  destruct (playerHasAnyValidMoves_spec b color Hwf) as (found & Hf & Hfound).
  destruct (getAllValidMoves_spec b color Hwf) as (moves & Hm & Hmoves).
  exists found, moves. split; [exact Hf|]. split; [exact Hm|].
  rewrite Hfound. split.
  - intros (r & c & Hin & Hlegal) ->.
    assert (H : mkCoordinate r c ∈ []) by (apply Hmoves; auto).
    inversion H.
  - intros Hne. destruct moves as [|m moves]; [congruence|].
    exists (row m), (col m). apply Hmoves. left.
Qed.

(** C10.  [checkForClosure] terminates on every board, from every
    coordinate of the board, for every color and each of the eight
    directions: each iteration of the scan loop takes the cursor one step
    closer to the edge of the board it moves toward, which is at most [SIZE]
    steps away, so the loop exits within [SIZE] iterations. *)
Theorem checkForClosure_terminates b color coords d :
  inBoard (row coords) (col coords) ->
  (forall s s', scanCond color s = true -> scanBody b color d s = Ret s' ->
     1 <= edgeDistance d (checkRow s) (checkCol s) <= SIZE /\
     edgeDistance d (checkRow s') (checkCol s') =
       edgeDistance d (checkRow s) (checkCol s) - 1) /\
  scanLoop (Z.to_nat SIZE) b color coords d <> Diverge /\
  (forall n, (Z.to_nat SIZE <= n)%nat ->
     scanLoop n b color coords d = scanLoop (Z.to_nat SIZE) b color coords d) /\
  checkForClosure b color coords d <> Diverge.
Proof.
  intros Hin.
  split; [|split; [|split]].
  - intros s s' Hc Hs'. apply scanCond_true in Hc as (_ & _ & Hs).
    split; [apply edgeDistance_inBoard, Hs|].
    apply scanBody_cursor in Hs' as [-> ->]. apply edgeDistance_step.
  - unfold scanLoop. apply scan_exits. simpl.
    pose proof (edgeDistance_inBoard d _ _ Hin). lia.
  - apply scanLoop_budget.
  - apply checkForClosure_not_Diverge.
Qed.

(** * Further properties of the code *)

(** ** getScores *)

Lemma sumZ_bounds (f : Z -> Z) (l : list Z) (m : Z) :
  (forall i, i ∈ l -> 0 <= f i <= m) ->
  0 <= sumZ f l <= m * Z.of_nat (length l).
Proof.
  induction l as [|x l IH]; intros H; simpl length; simpl sumZ; [lia|].
  pose proof (H x ltac:(left)).
  assert (0 <= sumZ f l <= m * Z.of_nat (length l))
    by (apply IH; intros; apply H; right; auto).
  rewrite Nat2Z.inj_succ, Z.mul_succ_r. lia.
Qed.

Lemma countCells_bounds (p : option Cell -> bool) b :
  0 <= countCells p b <= Z.max 0 SIZE * Z.max 0 SIZE.
Proof.
  assert (Hlen : Z.of_nat (length indices) = Z.max 0 SIZE).
  { unfold indices. rewrite length_seqZ. lia. }
  unfold countCells. rewrite <- Hlen at 2. apply sumZ_bounds.
  intros r _. replace (Z.max 0 SIZE) with (1 * Z.of_nat (length indices)) by lia.
  apply sumZ_bounds. intros c _. destruct (p (cellAt b r c)); lia.
Qed.

(** X1.  On a board of the game [getScores] returns the number of black
    cells and the number of white cells of the grid; neither is negative,
    their sum is the number of occupied cells, and it is at most the number
    of cells of the grid. *)
Theorem getScores_counts b :
  wf_board b ->
  exists black white,
    getScores b = Ret (black, white) /\
    black = countColor BLACK b /\ white = countColor WHITE b /\
    0 <= black /\ 0 <= white /\
    black + white = occupiedCells b /\
    black + white <= Z.max 0 SIZE * Z.max 0 SIZE.
Proof.
  intros Hwf. exists (countColor BLACK b), (countColor WHITE b).
  split; [apply getScores_spec, Hwf|]. split; [reflexivity|]. split; [reflexivity|].
  rewrite <- occupiedCells_colors.
  pose proof (countCells_bounds (holds BLACK) b).
  pose proof (countCells_bounds (holds WHITE) b).
  pose proof (countCells_bounds isOccupied b).
  unfold countColor, occupiedCells. lia.
Qed.

(** X2.  [getScores] throws a [TypeError] on a board that lacks a row of
    the grid (the grid having a column to read). *)
Theorem getScores_missing_row b r :
  0 <= r < SIZE -> positions b !! r = None -> getScores b = Throw TypeError.
Proof.
  intros Hr Hmiss. unfold getScores.
  assert (Hpos : 0 < SIZE) by lia.
  assert (Hcols : forall r' acc, is_Some (positions b !! r') ->
            exists acc', getScoresCols b r' indices acc = Ret acc').
  { intros r' acc [cells Hcells]. revert acc.
    induction indices as [|c cols IH]; intros acc; simpl; [eauto|].
    unfold readPosition. rewrite Hcells. simpl. apply IH. }
  assert (Hthrow : forall acc, getScoresCols b r indices acc = Throw TypeError).
  { intros acc. unfold indices. rewrite seqZ_cons by lia. simpl.
    unfold readPosition. rewrite Hmiss. reflexivity. }
  apply elem_of_indices in Hr. revert Hr. generalize (0, 0).
  generalize indices at 1 2. induction l as [|r' rows IH]; intros acc Hin; [inversion Hin|].
  simpl. destruct (decide (r' = r)) as [->|Hne].
  - rewrite Hthrow. reflexivity.
  - destruct (positions b !! r') as [cells|] eqn:Hr'.
    + destruct (Hcols r' acc) as (acc' & ->); [rewrite Hr'; eauto|].
      rewrite bind_Ret. apply IH.
      apply elem_of_cons in Hin as [->|Hin]; [congruence | exact Hin].
    + assert (getScoresCols b r' indices acc = Throw TypeError) as ->; [|reflexivity].
      unfold indices. rewrite seqZ_cons by lia. simpl.
      unfold readPosition. rewrite Hr'. reflexivity.
Qed.

(** ** checkForClosure and getClosures *)

(** X3.  A closure that [checkForClosure] returns on a board of the game
    starts on the coordinate, runs in the direction asked for over one or
    more cells of the opposing color, at most [SIZE - 2] of them, and ends
    on a cell of the board that holds the color of the mover. *)
Theorem checkForClosure_closure b color r c d cl :
  wf_board b -> inBoard r c ->
  checkForClosure b color (mkCoordinate r c) d = Ret (Some cl) ->
  direction cl = d /\ start cl = (c, r) /\
  1 <= flipCount cl <= SIZE - 2 /\
  end_ cl = (c + (flipCount cl + 1) * dcol d, r + (flipCount cl + 1) * drow d) /\
  inBoard (end_ cl).2 (end_ cl).1 /\
  cellAt b (end_ cl).2 (end_ cl).1 = Some (Piece color) /\
  (forall i, 1 <= i <= flipCount cl ->
     cellAt b (r + i * drow d) (c + i * dcol d) = Some (Piece (otherColor color))).
Proof.
  intros Hwf Hin Hcl.
  destruct (checkForClosure_spec b color r c d Hwf Hin)
    as [(k & Hk & Hrun & Hc)|(_ & Hc)]; rewrite Hc in Hcl; [|discriminate].
  injection Hcl as <-. simpl. destruct Hrun as (Hrun & Hend & Hcell).
  split; [reflexivity|]. split; [reflexivity|]. split.
  { split; [exact Hk|]. unfold inBoard in Hin, Hend. destruct d; simpl in *; lia. }
  split; [reflexivity|]. split; [exact Hend|]. split; [exact Hcell|].
  intros i Hi. apply Hrun, Hi.
Qed.

Lemma checkForClosure_direction b color coords d cl :
  checkForClosure b color coords d = Ret (Some cl) -> direction cl = d.
Proof.
  unfold checkForClosure. intros H. apply bind_Ret_inv in H as (s & _ & H).
  unfold mret, Outcome_ret in H.
  destruct (_ && _); [|discriminate]. injection H as <-. reflexivity.
Qed.

Lemma getClosuresLoop_sublist b color coords :
  forall ds acc cls,
    getClosuresLoop b color coords ds acc = Ret cls ->
    exists new, cls = acc ++ new /\ (direction <$> new) `sublist_of` ds.
Proof.
  induction ds as [|d ds IH]; intros acc cls H; simpl in H.
  - injection H as <-. exists []. rewrite app_nil_r. split; [reflexivity|constructor].
  - apply bind_Ret_inv in H as (closure & Hc & H).
    apply IH in H as (new & -> & Hsub). destruct closure as [cl|].
    + exists (cl :: new). rewrite <- app_assoc. split; [reflexivity|].
      rewrite fmap_cons, (checkForClosure_direction _ _ _ _ _ Hc).
      apply sublist_skip, Hsub.
    + exists new. split; [reflexivity|]. apply sublist_cons, Hsub.
Qed.

Lemma NoDup_DIRECTIONS : NoDup DIRECTIONS.
Proof. apply (bool_decide_unpack _). vm_compute. exact I. Qed.

(** X4.  On any board [getClosures] returns at most one closure for each
    direction, in the order of [DIRECTIONS], so at most eight; on a board of
    the game, from a coordinate of the board, the directions of the closures
    it returns are exactly the directions that close. *)
Theorem getClosures_directions b color r c :
  (forall cls, getClosures b color (mkCoordinate r c) = Ret cls ->
     (direction <$> cls) `sublist_of` DIRECTIONS /\
     NoDup (direction <$> cls) /\ (length cls <= 8)%nat) /\
  (wf_board b -> inBoard r c ->
   exists cls, getClosures b color (mkCoordinate r c) = Ret cls /\
     forall d, d ∈ (direction <$> cls) <-> closes b color r c d).
Proof.
  split.
  - intros cls H. unfold getClosures in H.
    apply getClosuresLoop_sublist in H as (new & -> & Hsub). simpl.
    split; [exact Hsub|]. split; [exact (sublist_NoDup _ _ NoDup_DIRECTIONS Hsub)|].
    apply sublist_length in Hsub. rewrite length_fmap in Hsub. exact Hsub.
  - intros Hwf Hin.
    destruct (getClosures_spec b color r c Hwf Hin) as (cls & Hcls & Hiff).
    exists cls. split; [exact Hcls|]. intros d. rewrite list_elem_of_fmap. split.
    + intros (cl & -> & Hcl). apply Hiff in Hcl as (d & k & Hk & Hrun & ->).
      exists k. auto.
    + intros (k & Hk & Hrun). exists (closureOf d r c k). split; [reflexivity|].
      apply Hiff. eauto.
Qed.

(** ** getAllValidMoves *)

Lemma validMovesInRow_sublist b color r :
  forall cols acc l,
    validMovesInRow b color r cols acc = Ret l ->
    exists new, l = acc ++ new /\ new `sublist_of` (mkCoordinate r <$> cols).
Proof.
  induction cols as [|c cols IH]; intros acc l H; simpl in H.
  - injection H as <-. exists []. rewrite app_nil_r. split; [reflexivity|constructor].
  - apply bind_Ret_inv in H as (m & _ & H).
    apply IH in H as (new & -> & Hsub). case_bool_decide.
    + exists (mkCoordinate r c :: new). rewrite <- app_assoc.
      split; [reflexivity|]. rewrite fmap_cons. apply sublist_skip, Hsub.
    + exists new. split; [reflexivity|]. rewrite fmap_cons. apply sublist_cons, Hsub.
Qed.

Lemma validMovesInRows_sublist b color :
  forall rows acc l,
    validMovesInRows b color rows acc = Ret l ->
    exists new, l = acc ++ new /\
      new `sublist_of` (rows ≫= (fun r => mkCoordinate r <$> indices)).
Proof.
  induction rows as [|r rows IH]; intros acc l H; simpl in H.
  - injection H as <-. exists []. rewrite app_nil_r. split; [reflexivity|constructor].
  - apply bind_Ret_inv in H as (l1 & H1 & H).
    apply validMovesInRow_sublist in H1 as (new1 & -> & Hsub1).
    apply IH in H as (new & -> & Hsub).
    exists (new1 ++ new). rewrite <- app_assoc. split; [reflexivity|].
    rewrite bind_cons. apply sublist_app; assumption.
Qed.

Lemma NoDup_allCoordinates : NoDup allCoordinates.
Proof.
  unfold allCoordinates. apply NoDup_bind.
  - intros r1 r2 m _ _ H1 H2.
    apply list_elem_of_fmap in H1 as (c1 & -> & _).
    apply list_elem_of_fmap in H2 as (c2 & H & _). congruence.
  - intros r _. apply NoDup_fmap_2; [|apply NoDup_indices].
    intros c1 c2 H. congruence.
  - apply NoDup_indices.
Qed.

(** X5.  On a board of the game [getAllValidMoves] returns the legal moves
    of the color, all of them and nothing else, each once, in the order of
    the grid read row by row. *)
Theorem getAllValidMoves_exact b color :
  wf_board b ->
  exists moves,
    getAllValidMoves b color = Ret moves /\
    moves `sublist_of` allCoordinates /\ NoDup moves /\
    forall m, m ∈ moves <-> inBoard (row m) (col m) /\ legal b color (row m) (col m).
Proof.
  intros Hwf.
  destruct (getAllValidMoves_spec b color Hwf) as (moves & Hm & Hiff).
  exists moves. split; [exact Hm|].
  unfold getAllValidMoves in Hm.
  apply validMovesInRows_sublist in Hm as (new & -> & Hsub). simpl in *.
  split; [exact Hsub|]. split; [|exact Hiff].
  exact (sublist_NoDup _ _ NoDup_allCoordinates Hsub).
Qed.

(** ** The automatic move *)

(** [Math.floor(random * n)] is an index below [n] for a draw in [0, 1). *)
Lemma floor_random_index (random : Q) (n : nat) :
  (0 <= random)%Q -> (random < 1)%Q -> (0 < n)%nat ->
  (Z.to_nat (Qfloor (random * inject_Z (Z.of_nat n))) < n)%nat.
Proof.
  intros H0 H1 Hn.
  assert (Hpos : (0 < inject_Z (Z.of_nat n))%Q).
  { change 0%Q with (inject_Z 0). rewrite <- Zlt_Qlt. lia. }
  assert (Hlo : 0 <= Qfloor (random * inject_Z (Z.of_nat n))).
  { change 0 with (Qfloor 0). apply Qfloor_resp_le.
    apply Qmult_le_0_compat; [exact H0 | apply Qlt_le_weak, Hpos]. }
  assert (Hhi : Qfloor (random * inject_Z (Z.of_nat n)) < Z.of_nat n).
  { rewrite Zlt_Qlt. eapply Qle_lt_trans; [apply Qfloor_le|].
    rewrite <- (Qmult_1_l (inject_Z (Z.of_nat n))) at 2.
    apply Qmult_lt_compat_r; assumption. }
  lia.
Qed.

(** The automatic move on a board where the color can move. *)
Lemma autoMove_returns b color (random : Q) :
  wf_board b -> hasLegalMove b color ->
  (0 <= random)%Q -> (random < 1)%Q ->
  exists m cls,
    autoMove b color random = Ret m /\
    inBoard (row m) (col m) /\ legal b color (row m) (col m) /\
    validateMove b m color = Ret (Some cls).
Proof.
  intros Hwf (r & c & Hin & Hlegal) H0 H1.
  destruct (getAllValidMoves_spec b color Hwf) as (moves & Hm & Hiff).
  destruct moves as [|first rest].
  { assert (H : mkCoordinate r c ∈ []) by (apply Hiff; auto). inversion H. }
  rewrite (autoMove_candidates b color random first rest Hm).
  pose proof (floor_random_index random (length (first :: first :: rest)) H0 H1
                ltac:(simpl; lia)) as Hidx.
  apply lookup_lt_is_Some in Hidx as [m Hm'].
  rewrite Hm'. apply list_elem_of_lookup_2 in Hm'.
  assert (Hmem : m ∈ first :: rest).
  { apply elem_of_cons in Hm' as [->|Hm']; [left | exact Hm']. }
  apply Hiff in Hmem as [Hinm Hlegm].
  destruct m as [rm cm]; simpl in *.
  destruct (validateMove_spec b color rm cm Hwf Hinm) as [(_ & cls & Hv & _)|(Hno & _)];
    [|destruct (Hno Hlegm)].
  exists (mkCoordinate rm cm), cls. auto.
Qed.

(** X6.  On a board of the game where the color has a legal move, the
    automatic move returns, for every draw in [0, 1), a coordinate of the
    board that is a legal move of the color, one [validateMove] accepts. *)
Theorem autoMove_legal b color (random : Q) :
  wf_board b -> hasLegalMove b color ->
  (0 <= random)%Q -> (random < 1)%Q ->
  exists m cls,
    autoMove b color random = Ret m /\
    inBoard (row m) (col m) /\ legal b color (row m) (col m) /\
    validateMove b m color = Ret (Some cls).
Proof. apply autoMove_returns. Qed.


(** X7.  On a board of the game where the color has no legal move, the
    automatic move throws a [TypeError], whatever the draw. *)
Theorem autoMove_without_move b color (random : Q) :
  wf_board b -> ~ hasLegalMove b color ->
  autoMove b color random = Throw TypeError.
Proof.
  intros Hwf Hno.
  destruct (getAllValidMoves_spec b color Hwf) as (moves & Hm & Hiff).
  unfold autoMove. rewrite Hm, bind_Ret.
  destruct moves as [|first rest]; [reflexivity|].
  destruct Hno. exists (row first), (col first). apply Hiff. left.
Qed.

(** ** parseCoordinate *)

Ltac in_messages := first [left | right; left | right; right; left].

(** X8.  [parseCoordinate] either returns a coordinate or throws a
    [CoordinateParseException] with one of its three messages.  When it
    returns, the token has two or three characters, its first character is
    one of the first [SIZE] lower-case letters and gives the column, and the
    row is not below zero (it may be [NaN], and it has no upper bound). *)
Theorem parseCoordinate_outcome input :
  (exists p, parseCoordinate input = Ret p /\
     (2 <= String.length input <= 3)%nat /\
     (exists c, parsedCol p = Num c /\ 0 <= c < SIZE /\
                firstCharCode input = Num (97 + c)) /\
     (parsedRow p = NaN \/ exists r, parsedRow p = Num r /\ 0 <= r))
  \/ (exists message,
        parseCoordinate input = Throw (CoordinateParseException message) /\
        message ∈ ["Input must be length 2 or 3"; "Column out of bounds";
                   "Row out of bounds"]%string).
Proof.
  unfold parseCoordinate.
  destruct (Nat.ltb_spec (String.length input) 2);
    [right; eexists; split; [reflexivity|in_messages]|].
  destruct (Nat.ltb_spec 3 (String.length input));
    [right; eexists; split; [reflexivity|in_messages]|]. simpl.
  destruct (firstCharCode input) as [|code] eqn:Hcode; simpl.
  { destruct input; [simpl in *; lia | discriminate]. }
  destruct (Z.ltb_spec (code - 97) 0);
    [right; eexists; split; [reflexivity|in_messages]|].
  destruct (Z.ltb_spec (SIZE - 1) (code - 97));
    [right; eexists; split; [reflexivity|in_messages]|]. simpl.
  assert (Hcol : exists c, Num (code - 97) = Num c /\ 0 <= c < SIZE /\
                           Num code = Num (97 + c)).
  { exists (code - 97). split; [reflexivity|]. split; [lia|]. f_equal. lia. }
  destruct (numSub (parseInt (sliceFrom1 input)) 1) as [|r]; simpl.
  - left. eexists. split; [reflexivity|]. simpl.
    split; [lia|]. split; [exact Hcol|]. left; reflexivity.
  - destruct (Z.ltb_spec r 0);
      [right; eexists; split; [reflexivity|in_messages]|].
    left. eexists. split; [reflexivity|]. simpl.
    split; [lia|]. split; [exact Hcol|]. right. exists r. split; [reflexivity|lia].
Qed.

(** X9.  A token of two or three characters that starts with an upper-case
    letter is rejected: the column is not read without regard to case. *)
Theorem parseCoordinate_upper_case a rest :
  65 <= codeOf a <= 90 ->
  (1 <= String.length rest <= 2)%nat ->
  parseCoordinate (String a rest) =
    Throw (CoordinateParseException "Column out of bounds").
Proof.
  intros Hcode Hlen. unfold parseCoordinate.
  cbn [String.length firstCharCode numSub numLt].
  rewrite (proj2 (Nat.ltb_ge (S (String.length rest)) 2)) by lia.
  rewrite (proj2 (Nat.ltb_ge 3 (S (String.length rest)))) by lia.
  rewrite (proj2 (Z.ltb_lt (codeOf a - 97) 0)) by lia. reflexivity.
Qed.

(** ** The end of the game *)

Lemma sumZ_nonneg (f : Z -> Z) (l : list Z) :
  (forall i, i ∈ l -> 0 <= f i) -> 0 <= sumZ f l.
Proof.
  induction l as [|x l IH]; intros H; simpl; [lia|].
  pose proof (H x ltac:(left)).
  assert (0 <= sumZ f l) by (apply IH; intros; apply H; right; auto). lia.
Qed.

Lemma sumZ_pos (f : Z -> Z) (l : list Z) (x : Z) :
  (forall i, i ∈ l -> 0 <= f i) -> x ∈ l -> 1 <= f x -> 1 <= sumZ f l.
Proof.
  induction l as [|y l IH]; intros H Hx Hfx; [inversion Hx|]. simpl.
  pose proof (H y ltac:(left)).
  assert (0 <= sumZ f l) by (apply sumZ_nonneg; intros; apply H; right; auto).
  apply elem_of_cons in Hx as [->|Hx]; [lia|].
  assert (1 <= sumZ f l) by (apply IH; auto; intros; apply H; right; auto). lia.
Qed.

Lemma countCells_pos (p : option Cell -> bool) b r c :
  inBoard r c -> p (cellAt b r c) = true -> 1 <= countCells p b.
Proof.
  intros [Hr Hc] Hp. unfold countCells.
  apply (sumZ_pos _ indices r); [|apply elem_of_indices, Hr|].
  - intros r' _. apply sumZ_nonneg. intros c' _. cbv beta.
    destruct (p (cellAt b r' c')); lia.
  - apply (sumZ_pos _ indices c); [|apply elem_of_indices, Hc|].
    + intros c' _. cbv beta. destruct (p (cellAt b r c')); lia.
    + cbv beta. rewrite Hp. lia.
Qed.

Lemma countCells_zero (p : option Cell -> bool) b :
  (forall r c, inBoard r c -> p (cellAt b r c) = false) -> countCells p b = 0.
Proof.
  intros H. unfold countCells.
  assert (Hz : forall l : list Z, sumZ (fun _ => 0) l = 0)
    by (induction l; simpl; lia).
  transitivity (sumZ (fun _ => 0) indices); [|apply Hz].
  apply sumZ_ext. intros r Hr.
  transitivity (sumZ (fun _ => 0) indices); [|apply Hz].
  apply sumZ_ext. intros c Hc.
  rewrite H; [reflexivity|]. split; apply elem_of_indices; assumption.
Qed.

(** X10.  An accepted move that fills the board ends the game.  When the
    board that the placement and the flips of the closures leave has no
    empty cell, the turn returns that board with the recounted scores, the
    mover as the player, and the end of the game with the winner of these
    scores. *)
Theorem full_board_ends_game g move cls b1 b2 :
  wf_board (board g) -> inBoard (row move) (col move) ->
  validateMove (board g) move (curPlayer g) = Ret (Some cls) ->
  writePosition (board g) (row move) (col move) (curPlayer g) = Ret b1 ->
  flipClosures b1 cls (curPlayer g) = Ret b2 ->
  (forall r c, inBoard r c -> cellAt b2 r c <> Some Null) ->
  turn g move =
    Ret (mkGame b2 (countColor BLACK b2, countColor WHITE b2) (curPlayer g),
         GameOver (announce (countColor BLACK b2, countColor WHITE b2))).
Proof.
  intros Hwf Hin Hv Hw Hf Hfull. destruct move as [r c]; simpl in *.
  destruct (turn_accepted g r c cls Hwf Hin Hv)
    as (b1' & b2' & player & report & Hb1 & Hb2 & _ & Hturn & _ & Hskip).
  rewrite Hw in Hb1. injection Hb1 as <-.
  rewrite Hf in Hb2. injection Hb2 as <-.
  assert (Hnone : forall color, ~ hasLegalMove b2 color).
  { intros color (r' & c' & Hin' & Hempty & _). exact (Hfull r' c' Hin' Hempty). }
  destruct (Hskip (Hnone _)) as (-> & _ & Hover).
  rewrite Hturn, (Hover (Hnone _)). reflexivity.
Qed.

(** X11.  An accepted move that leaves the opponent without a piece ends
    the game, and the mover wins.  When the board that the placement and
    the flips of the closures leave holds no piece of the other color, the
    turn returns that board with the recounted scores, of which the
    opponent's is zero, the mover as the player, and the end of the game
    with the mover as the winner. *)
Theorem wiped_out_ends_game g move cls b1 b2 :
  wf_board (board g) -> inBoard (row move) (col move) ->
  validateMove (board g) move (curPlayer g) = Ret (Some cls) ->
  writePosition (board g) (row move) (col move) (curPlayer g) = Ret b1 ->
  flipClosures b1 cls (curPlayer g) = Ret b2 ->
  (forall r c, inBoard r c ->
     cellAt b2 r c <> Some (Piece (otherColor (curPlayer g)))) ->
  turn g move =
    Ret (mkGame b2 (countColor BLACK b2, countColor WHITE b2) (curPlayer g),
         GameOver (Wins (curPlayer g))) /\
  countColor (otherColor (curPlayer g)) b2 = 0 /\
  1 <= countColor (curPlayer g) b2.
Proof.
  intros Hwf Hin Hv Hw Hf Hwiped. destruct move as [r c]; simpl in *.
  destruct (validateMove_accepted _ _ _ _ _ Hwf Hin Hv) as (_ & _ & Hcls).
  destruct (turn_accepted g r c cls Hwf Hin Hv)
    as (b1' & b2' & player & report & Hb1 & Hb2 & _ & Hturn & _ & Hskip).
  rewrite Hw in Hb1. injection Hb1 as <-.
  rewrite Hf in Hb2. injection Hb2 as <-.
  destruct (applyMove_spec _ _ _ _ _ Hwf Hin Hcls)
    as (b1' & b2' & Hb1' & Hb2' & _ & _ & Hplaced & _).
  rewrite Hw in Hb1'. injection Hb1' as <-.
  rewrite Hf in Hb2'. injection Hb2' as <-.
  set (mover := curPlayer g) in *.
  assert (Hmover : ~ hasLegalMove b2 mover).
  { intros (r' & c' & Hin' & _ & d & k & Hk & Hrun & _).
    destruct (Hrun 1 ltac:(lia)) as [Hin1 Hcell]. exact (Hwiped _ _ Hin1 Hcell). }
  assert (Hother : ~ hasLegalMove b2 (otherColor mover)).
  { intros (r' & c' & Hin' & _ & d & k & Hk & _ & Hinend & Hend).
    exact (Hwiped _ _ Hinend Hend). }
  assert (Hzero : countColor (otherColor mover) b2 = 0).
  { apply countCells_zero. intros r' c' Hin'. unfold holds.
    apply bool_decide_eq_false_2, Hwiped, Hin'. }
  assert (Hone : 1 <= countColor mover b2).
  { apply (countCells_pos _ b2 r c Hin). unfold holds.
    apply bool_decide_eq_true_2, Hplaced. }
  split; [|split; assumption].
  destruct (Hskip Hother) as (-> & _ & Hover). rewrite Hturn, (Hover Hmover).
  do 3 f_equal.
  unfold announce. simpl. destruct mover; simpl in *.
  - rewrite (proj2 (Z.eqb_neq _ _)) by lia. rewrite (proj2 (Z.ltb_lt _ _)) by lia.
    reflexivity.
  - rewrite (proj2 (Z.eqb_neq _ _)) by lia. rewrite (proj2 (Z.ltb_ge _ _)) by lia.
    reflexivity.
Qed.

(** ** The shape of the board *)

(** What holds before a loop and is kept by its body holds after it. *)
Lemma while_invariant {S : Type} (P : S -> Prop) (cond : S -> bool)
    (body : S -> Outcome S) :
  (forall s s', cond s = true -> P s -> body s = Ret s' -> P s') ->
  forall n s s', P s -> while n cond body s = Ret s' -> P s' /\ cond s' = false.
Proof.
  intros Hbody. induction n as [|n IH]; intros s s' HP H; simpl in H;
    destruct (cond s) eqn:Hc; try discriminate.
  - injection H as <-. auto.
  - apply bind_Ret_inv in H as (s1 & H1 & H).
    apply (IH s1 s'); [exact (Hbody s s1 Hc HP H1) | exact H].
  - injection H as <-. auto.
Qed.

Lemma writePosition_sameRows b r c color b' :
  writePosition b r c color = Ret b' -> sameRows b b'.
Proof.
  unfold writePosition. destruct (positions b !! r) as [cells|] eqn:Hr; [|discriminate].
  intros H. injection H as <-. split; [reflexivity|]. intros r'. simpl.
  destruct (decide (r' = r)) as [->|Hne].
  - rewrite lookup_insert_eq, Hr. split; eauto.
  - rewrite lookup_insert_ne by congruence. reflexivity.
Qed.

Lemma sameRows_trans b1 b2 b3 : sameRows b1 b2 -> sameRows b2 b3 -> sameRows b1 b3.
Proof.
  intros [Hs1 Hr1] [Hs2 Hr2]. split; [congruence|].
  intros r. rewrite Hr2. apply Hr1.
Qed.

Lemma flipPieces_sameRows b start_ end' d color b' :
  flipPieces b start_ end' d color = Ret b' -> sameRows b b'.
Proof.
  destruct start_ as [startCol startRow], end' as [endCol endRow].
  unfold flipPieces. intros H. apply bind_Ret_inv in H as (s & Hloop & H).
  injection H as <-.
  apply (while_invariant (fun s => sameRows b (fboard s))) in Hloop as [H _].
  - exact H.
  - intros s1 s2 _ HP Hbody.
    destruct d; simpl in Hbody; apply bind_Ret_inv in Hbody as (b2 & Hw & Hb);
      injection Hb as <-; simpl;
      exact (sameRows_trans _ _ _ HP (writePosition_sameRows _ _ _ _ _ Hw)).
  - split; [reflexivity|]. intros; reflexivity.
Qed.

Lemma flipClosures_sameRows color :
  forall cls b b', flipClosures b cls color = Ret b' -> sameRows b b'.
Proof.
  induction cls as [|cl cls IH]; intros b b' H; simpl in H.
  - injection H as <-. split; [reflexivity|]. intros; reflexivity.
  - apply bind_Ret_inv in H as (b1 & H1 & H).
    exact (sameRows_trans _ _ _ (flipPieces_sameRows _ _ _ _ _ _ H1) (IH _ _ H)).
Qed.

Lemma programBoard_wf b : programBoard b -> wf_board b.
Proof. intros (_ & _ & Hcells) r c [Hr Hc]. apply Hcells; assumption. Qed.

Lemma constructor_programBoard b : constructor = Ret b -> programBoard b.
Proof.
  intros H. destruct (constructor_cells b H) as [Hsize Hcells].
  split; [exact Hsize|]. split.
  - unfold constructor, newBoard, newArray in H.
    destruct (26 <? SIZE); [discriminate|].
    destruct (Z.ltb_spec SIZE 0); [discriminate|].
    destruct (2 ^ 32 <=? SIZE); [discriminate|]. simpl in H.
    injection H as <-. intros r. simpl. rewrite lookup_fmap, lookup_filled.
    case_bool_decide; simpl; split; intros Hr; try lia; eauto.
    destruct Hr; discriminate.
  - intros r c Hr. rewrite Hcells. case_bool_decide; split; intros Hc; try lia; eauto.
    destruct Hc; discriminate.
Qed.

(** A write on a cell of the board keeps the shape of the board. *)
Lemma writePosition_programBoard b r c color :
  programBoard b -> inBoard r c ->
  exists b', writePosition b r c color = Ret b' /\ programBoard b' /\
    forall r' c', cellAt b' r' c' =
      if bool_decide (r' = r /\ c' = c) then Some (Piece color) else cellAt b r' c'.
Proof.
  intros Hpb [Hr Hc].
  destruct (writePosition_wf b r c color (programBoard_wf b Hpb) Hr)
    as (b' & Hw & _ & Hcell).
  exists b'. split; [exact Hw|]. split; [|exact Hcell].
  destruct (writePosition_sameRows _ _ _ _ _ Hw) as [Hsize Hrows].
  destruct Hpb as (Hs & Hrs & Hcs).
  split; [congruence|]. split.
  - intros r'. rewrite Hrows. apply Hrs.
  - intros r' c' Hr'. rewrite Hcell. case_bool_decide as Heq.
    + destruct Heq as [-> ->]. split; eauto.
    + apply Hcs, Hr'.
Qed.

Lemma placeStartingPieces_programBoard b b' :
  programBoard b -> placeStartingPieces b = Ret b' -> programBoard b'.
Proof.
  unfold placeStartingPieces. intros Hpb H.
  destruct (Z.even SIZE); [|discriminate].
  set (middle := SIZE / 2 - 1) in *.
  assert (Hrow : forall b1 r c color b2, programBoard b1 ->
            writePosition b1 r c color = Ret b2 -> 0 <= r < SIZE).
  { intros b1 r c color b2 (_ & Hrs & _) Hw. apply Hrs.
    unfold writePosition in Hw. destruct (positions b1 !! r); [eauto|discriminate]. }
  assert (Hstep : forall b1 r c color b2, programBoard b1 -> 0 <= c < SIZE ->
            writePosition b1 r c color = Ret b2 -> programBoard b2).
  { intros b1 r c color b2 Hp1 Hc Hw.
    destruct (writePosition_programBoard b1 r c color Hp1) as (b2' & Hw' & Hp2 & _).
    - split; [eapply Hrow; eauto | exact Hc].
    - congruence. }
  apply bind_Ret_inv in H as (b1 & H1 & H).
  apply bind_Ret_inv in H as (b2 & H2 & H).
  apply bind_Ret_inv in H as (b3 & H3 & H).
  pose proof (Hrow _ _ _ _ _ Hpb H1) as Hm.
  pose proof (Hstep _ _ _ _ _ Hpb Hm H1) as Hp1.
  assert (Hm1 : 0 <= middle + 1 < SIZE).
  { (* the third write is on row [middle + 1] *)
    destruct (writePosition_sameRows _ _ _ _ _ H2) as [_ Hrows].
    destruct Hp1 as (_ & Hrs & _). apply Hrs, Hrows.
    unfold writePosition in H3.
    destruct (positions b2 !! (middle + 1)); [eauto|discriminate]. }
  pose proof (Hstep _ _ _ _ _ Hp1 Hm1 H2) as Hp2.
  pose proof (Hstep _ _ _ _ _ Hp2 Hm H3) as Hp3.
  exact (Hstep _ _ _ _ _ Hp3 Hm1 H).
Qed.

(** Placing a piece on a legal move and flipping its closures keeps the
    shape of the board. *)
Lemma applyMove_programBoard b color r c cls b1 b2 :
  programBoard b -> inBoard r c ->
  (forall cl, cl ∈ cls <->
     exists d k, 1 <= k /\ run b color d r c k /\ cl = closureOf d r c k) ->
  writePosition b r c color = Ret b1 -> flipClosures b1 cls color = Ret b2 ->
  programBoard b2.
Proof.
  intros Hpb Hin Hcls Hb1 Hb2.
  pose proof (programBoard_wf b Hpb) as Hwf.
  destruct (applyMove_spec b color r c cls Hwf Hin Hcls)
    as (b1' & b2' & Hb1' & Hb2' & Hwf2 & _ & _ & _ & Hframe & _).
  rewrite Hb1 in Hb1'. injection Hb1' as <-.
  rewrite Hb2 in Hb2'. injection Hb2' as <-.
  pose proof (sameRows_trans _ _ _ (writePosition_sameRows _ _ _ _ _ Hb1)
                (flipClosures_sameRows _ _ _ _ Hb2)) as [Hsize Hrows].
  destruct Hpb as (Hs & Hrs & Hcs).
  split; [congruence|]. split; [intros r'; rewrite Hrows; apply Hrs|].
  intros r' c' Hr'. split; [|intros Hc'; apply Hwf2; split; assumption].
  intros Hsome. destruct (decide (0 <= c' < SIZE)) as [Hc'|Hc']; [exact Hc'|].
  exfalso. rewrite Hframe in Hsome.
  - apply Hcs in Hsome; [exact (Hc' Hsome) | exact Hr'].
  - intros [_ ->]. destruct Hin. exact (Hc' ltac:(assumption)).
  - intros cl Hcl (i & Hi & _ & Hc). apply Hcls in Hcl as (d & k & _ & (Hrun & _) & ->).
    simpl in *. destruct (Hrun i Hi) as [[_ Hci] _]. subst c'. exact (Hc' Hci).
Qed.

Lemma turn_programBoard g r c g' report :
  programBoard (board g) -> inBoard r c ->
  turn g (mkCoordinate r c) = Ret (g', report) -> programBoard (board g').
Proof.
  intros Hpb Hin Hturn. pose proof (programBoard_wf _ Hpb) as Hwf.
  destruct (validateMove_spec (board g) (curPlayer g) r c Hwf Hin)
    as [(_ & cls & Hv & _ & Hcls)|(_ & Hv)].
  - destruct (turn_accepted g r c cls Hwf Hin Hv)
      as (b1 & b2 & player & report' & Hb1 & Hb2 & _ & Hturn' & _).
    rewrite Hturn in Hturn'. injection Hturn' as -> _. simpl.
    eapply applyMove_programBoard; eauto.
  - unfold turn in Hturn. rewrite Hv, bind_Ret in Hturn.
    injection Hturn as <- _. exact Hpb.
Qed.

Lemma validateMove_outside b color r c :
  programBoard b ->
  (~ 0 <= r < SIZE -> validateMove b (mkCoordinate r c) color = Throw TypeError) /\
  (0 <= r < SIZE -> ~ 0 <= c < SIZE ->
   validateMove b (mkCoordinate r c) color = Ret None).
Proof.
  intros (_ & Hrs & Hcs). unfold validateMove, readPosition. cbn [row col]. split.
  - intros Hr. destruct (positions b !! r) as [cells|] eqn:Hrow; [|reflexivity].
    destruct Hr. apply Hrs. rewrite Hrow. eauto.
  - intros Hr Hc. destruct (positions b !! r) as [cells|] eqn:Hrow.
    + destruct (cells !! c) as [x|] eqn:Hcell; [|reflexivity].
      destruct Hc. apply (Hcs r c Hr). unfold cellAt. rewrite Hrow. simpl.
      rewrite Hcell. eauto.
    + assert (H : is_Some (positions b !! r)) by (apply Hrs, Hr).
      rewrite Hrow in H. destruct H; discriminate.
Qed.

(** X12.  On a board of the program [validateMove] throws a [TypeError]
    for a coordinate whose row is off the board, and returns [false] for a
    coordinate whose row is on the board and whose column is not. *)
Theorem validateMove_off_board b color r c :
  programBoard b ->
  (~ 0 <= r < SIZE -> validateMove b (mkCoordinate r c) color = Throw TypeError) /\
  (0 <= r < SIZE -> ~ 0 <= c < SIZE ->
   validateMove b (mkCoordinate r c) color = Ret None).
Proof. apply validateMove_outside. Qed.


(** ** The starting position *)

Lemma constructor_returns : 0 <= SIZE <= 26 -> exists b, constructor = Ret b.
Proof.
  intros H. unfold constructor, newBoard, newArray.
  rewrite (proj2 (Z.ltb_ge 26 SIZE)) by lia.
  rewrite (proj2 (Z.ltb_ge SIZE 0)) by lia.
  rewrite (proj2 (Z.leb_gt (2 ^ 32) SIZE)) by lia. simpl. eauto.
Qed.

(** Placing a piece on an empty cell: one more cell of its color, as many
    of the other. *)
Lemma countColor_place b b' r c color :
  inBoard r c -> cellAt b r c = Some Null ->
  (forall r' c', cellAt b' r' c' =
     if bool_decide (r' = r /\ c' = c) then Some (Piece color) else cellAt b r' c') ->
  countColor color b' = countColor color b + 1 /\
  countColor (otherColor color) b' = countColor (otherColor color) b.
Proof.
  intros Hin Hempty Hcell. split.
  - apply (countCells_bump (holds color) b b' r c Hin).
    + intros r' c' Hne. rewrite Hcell, bool_decide_eq_false_2; auto.
    + rewrite Hempty. reflexivity.
    + rewrite Hcell, bool_decide_eq_true_2 by auto. unfold holds.
      apply bool_decide_eq_true_2. reflexivity.
  - apply countCells_ext. intros r' c' _. rewrite Hcell.
    case_bool_decide as Heq; [|reflexivity].
    destruct Heq as [-> ->]. rewrite Hempty. destruct color; reflexivity.
Qed.

Lemma starting_board_spec :
  Z.even SIZE = true -> 2 <= SIZE <= 26 ->
  exists b0 b,
    constructor = Ret b0 /\ placeStartingPieces b0 = Ret b /\ programBoard b /\
    (forall r c, inBoard r c -> cellAt b r c = Some (startingCell r c)) /\
    countColor BLACK b = 2 /\ countColor WHITE b = 2.
Proof.
  intros Heven Hsize.
  apply Z.even_spec in Heven as Hm. destruct Hm as [m Hm].
  assert (Hhalf : SIZE / 2 = m) by (rewrite Hm, Z.mul_comm; apply Z.div_mul; lia).
  destruct (constructor_returns ltac:(lia)) as [b0 Hb0].
  pose proof (constructor_programBoard b0 Hb0) as Hp0.
  destruct (constructor_cells b0 Hb0) as [_ Hc0].
  assert (Hin : forall r c, m - 1 <= r <= m -> m - 1 <= c <= m -> inBoard r c)
    by (unfold inBoard; lia).
  destruct (writePosition_programBoard b0 (m - 1) (m - 1) BLACK Hp0)
    as (b1 & Hw1 & Hp1 & Hc1); [apply Hin; lia|].
  destruct (writePosition_programBoard b1 (m - 1) m WHITE Hp1)
    as (b2 & Hw2 & Hp2 & Hc2); [apply Hin; lia|].
  destruct (writePosition_programBoard b2 m (m - 1) WHITE Hp2)
    as (b3 & Hw3 & Hp3 & Hc3); [apply Hin; lia|].
  destruct (writePosition_programBoard b3 m m BLACK Hp3)
    as (b4 & Hw4 & Hp4 & Hc4); [apply Hin; lia|].
  assert (Hempty0 : forall r c, inBoard r c -> cellAt b0 r c = Some Null).
  { intros r c Hrc. rewrite Hc0, bool_decide_eq_true_2; auto. }
  exists b0, b4. split; [exact Hb0|]. split; [|split; [exact Hp4|split]].
  - unfold placeStartingPieces. rewrite Heven, Hhalf.
    replace (m - 1 + 1) with m by lia.
    rewrite Hw1, bind_Ret, Hw2, bind_Ret, Hw3, bind_Ret. exact Hw4.
  - intros r c Hrc. rewrite Hc4, Hc3, Hc2, Hc1, (Hempty0 r c Hrc).
    unfold startingCell. rewrite Hhalf.
    repeat case_bool_decide; try reflexivity; exfalso; lia.
  - assert (H0 : forall color, countColor color b0 = 0).
    { intros color. apply countCells_zero. intros r c Hrc.
      rewrite (Hempty0 r c Hrc). reflexivity. }
    destruct (countColor_place b0 b1 (m - 1) (m - 1) BLACK) as [Hb1 Hw1'];
      [apply Hin; lia | apply Hempty0, Hin; lia | exact Hc1 |].
    destruct (countColor_place b1 b2 (m - 1) m WHITE) as [Hw2' Hb2];
      [apply Hin; lia | | exact Hc2 |].
    { rewrite Hc1, bool_decide_eq_false_2 by lia. apply Hempty0, Hin; lia. }
    destruct (countColor_place b2 b3 m (m - 1) WHITE) as [Hw3' Hb3];
      [apply Hin; lia | | exact Hc3 |].
    { rewrite Hc2, Hc1, !bool_decide_eq_false_2 by lia. apply Hempty0, Hin; lia. }
    destruct (countColor_place b3 b4 m m BLACK) as [Hb4 Hw4'];
      [apply Hin; lia | | exact Hc4 |].
    { rewrite Hc3, Hc2, Hc1, !bool_decide_eq_false_2 by lia. apply Hempty0, Hin; lia. }
    simpl in *. rewrite (H0 BLACK) in Hb1. rewrite (H0 WHITE) in Hw1'. lia.
Qed.

(** X13.  For an even size from 2 to 26 the constructor and the setup of
    [play] succeed and give a board of the program with the four starting
    pieces on the centre cells, black on one diagonal and white on the
    other, every other cell empty, and [getScores] returns 2 and 2. *)
Theorem starting_position :
  Z.even SIZE = true -> 2 <= SIZE <= 26 ->
  exists b0 b,
    constructor = Ret b0 /\ placeStartingPieces b0 = Ret b /\ programBoard b /\
    (forall r c, inBoard r c -> cellAt b r c = Some (startingCell r c)) /\
    getScores b = Ret (2, 2).
Proof.
  intros Heven Hsize.
  destruct (starting_board_spec Heven Hsize) as (b0 & b & H0 & H1 & Hp & Hc & Hb & Hw).
  exists b0, b. split; [exact H0|]. split; [exact H1|]. split; [exact Hp|].
  split; [exact Hc|].
  rewrite (getScores_spec b (programBoard_wf b Hp)), Hb, Hw. reflexivity.
Qed.

Lemma starting_moves_spec b0 b :
  Z.even SIZE = true -> 4 <= SIZE <= 26 ->
  constructor = Ret b0 -> placeStartingPieces b0 = Ret b ->
  hasLegalMove b BLACK /\ hasLegalMove b WHITE.
Proof.
  intros Heven Hsize H0 H1.
  destruct (starting_board_spec Heven ltac:(lia))
    as (b0' & b' & H0' & H1' & _ & Hc & _).
  rewrite H0 in H0'. injection H0' as <-. rewrite H1 in H1'. injection H1' as <-.
  apply Z.even_spec in Heven as Hm. destruct Hm as [m Hm].
  assert (Hhalf : SIZE / 2 = m) by (rewrite Hm, Z.mul_comm; apply Z.div_mul; lia).
  assert (Hcell : forall r c x, inBoard r c -> startingCell r c = x ->
            cellAt b r c = Some x) by (intros r c x Hrc <-; apply Hc, Hrc).
  unfold startingCell in Hcell. rewrite Hhalf in Hcell.
  split.
  - (* black on the right of the white piece of the upper row *)
    exists (m - 1), (m + 1). split; [unfold inBoard; lia|]. split.
    + apply Hcell; [unfold inBoard; lia|].
      rewrite !bool_decide_eq_false_2 by lia. reflexivity.
    + exists Left, 1. split; [lia|]. unfold run, drow, dcol. split; [|split].
      * intros i Hi. assert (i = 1) as -> by lia. split; [unfold inBoard; lia|].
        apply Hcell; [unfold inBoard; lia|].
        rewrite bool_decide_eq_false_2, bool_decide_eq_true_2 by lia. reflexivity.
      * unfold inBoard; lia.
      * apply Hcell; [unfold inBoard; lia|].
        rewrite bool_decide_eq_true_2 by lia. reflexivity.
  - (* white above the black piece of the upper row *)
    exists (m - 2), (m - 1). split; [unfold inBoard; lia|]. split.
    + apply Hcell; [unfold inBoard; lia|].
      rewrite !bool_decide_eq_false_2 by lia. reflexivity.
    + exists Down, 1. split; [lia|]. unfold run, drow, dcol. split; [|split].
      * intros i Hi. assert (i = 1) as -> by lia. split; [unfold inBoard; lia|].
        apply Hcell; [unfold inBoard; lia|].
        rewrite bool_decide_eq_true_2 by lia. reflexivity.
      * unfold inBoard; lia.
      * apply Hcell; [unfold inBoard; lia|].
        rewrite bool_decide_eq_false_2, bool_decide_eq_true_2 by lia. reflexivity.
Qed.

(** X14.  For an even size from 4 to 26 both colors have a legal move on
    the starting position: whoever is drawn to play first can move. *)
Theorem starting_position_moves b0 b :
  Z.even SIZE = true -> 4 <= SIZE <= 26 ->
  constructor = Ret b0 -> placeStartingPieces b0 = Ret b ->
  hasLegalMove b BLACK /\ hasLegalMove b WHITE.
Proof. apply starting_moves_spec. Qed.


(** ** What a move does to the scores *)

Lemma gridCount_ext (f g : Z -> Z -> bool) :
  (forall r c, inBoard r c -> f r c = g r c) -> gridCount f = gridCount g.
Proof.
  intros H. unfold gridCount. apply sumZ_ext. intros r Hr.
  apply sumZ_ext. intros c Hc. rewrite H; [reflexivity|].
  split; apply elem_of_indices; assumption.
Qed.

(** Counting the cells that pass one of two tests no cell passes both. *)
Lemma gridCount_or (f g h : Z -> Z -> bool) :
  (forall r c, inBoard r c -> h r c = f r c || g r c) ->
  (forall r c, inBoard r c -> f r c && g r c = false) ->
  gridCount h = gridCount f + gridCount g.
Proof.
  intros Hor Hdis. unfold gridCount. rewrite <- sumZ_plus.
  apply sumZ_ext. intros r Hr. rewrite <- sumZ_plus.
  apply sumZ_ext. intros c Hc.
  assert (Hin : inBoard r c) by (split; apply elem_of_indices; assumption).
  rewrite (Hor r c Hin). pose proof (Hdis r c Hin).
  destruct (f r c), (g r c); simpl in *; try discriminate; reflexivity.
Qed.

Lemma sumZ_zero (f : Z -> Z) (l : list Z) :
  (forall i, i ∈ l -> f i = 0) -> sumZ f l = 0.
Proof.
  induction l as [|y l IH]; intros H; simpl; [reflexivity|].
  rewrite (H y) by left. rewrite IH; [reflexivity|]. intros; apply H; right; auto.
Qed.

Lemma sumZ_single (f : Z -> Z) (l : list Z) (x : Z) :
  NoDup l -> x ∈ l -> (forall i, i ∈ l -> i <> x -> f i = 0) -> f x = 1 ->
  sumZ f l = 1.
Proof.
  induction l as [|y l IH]; intros Hnd Hx Hrest Hat; [inversion Hx|].
  apply NoDup_cons in Hnd as [Hy Hnd]. simpl.
  apply elem_of_cons in Hx as [->|Hx].
  - rewrite Hat, sumZ_zero; [reflexivity|].
    intros i Hi. apply Hrest; [right; auto|]. intros ->. auto.
  - rewrite IH by (auto; intros; apply Hrest; auto; right; auto).
    rewrite Hrest; [reflexivity | left | intros ->; auto].
Qed.

Lemma gridCount_single (x : Z * Z) :
  inBoard x.1 x.2 -> gridCount (fun r c => bool_decide ((r, c) = x)) = 1.
Proof.
  destruct x as [r0 c0]. simpl. intros [Hr Hc]. unfold gridCount.
  apply (sumZ_single _ indices r0);
    [apply NoDup_indices | apply elem_of_indices, Hr | |].
  - intros r _ Hne. apply sumZ_zero. intros c _. cbv beta.
    rewrite bool_decide_eq_false_2; [reflexivity|congruence].
  - apply (sumZ_single _ indices c0);
      [apply NoDup_indices | apply elem_of_indices, Hc | |].
    + intros c _ Hne. cbv beta. rewrite bool_decide_eq_false_2; [reflexivity|congruence].
    + cbv beta. rewrite bool_decide_eq_true_2; reflexivity.
Qed.

(** Counting the cells of a list of distinct cells of the board. *)
Lemma gridCount_members (L : list (Z * Z)) :
  NoDup L -> (forall x, x ∈ L -> inBoard x.1 x.2) ->
  gridCount (fun r c => bool_decide ((r, c) ∈ L)) = Z.of_nat (length L).
Proof.
  induction L as [|x L IH]; intros Hnd Hin.
  - unfold gridCount. rewrite sumZ_zero; [reflexivity|]. intros r _.
    apply sumZ_zero. intros c _. cbv beta.
    rewrite bool_decide_eq_false_2; [reflexivity|]. intros H. inversion H.
  - apply NoDup_cons in Hnd as [Hx Hnd].
    rewrite (gridCount_or (fun r c => bool_decide ((r, c) = x))
                          (fun r c => bool_decide ((r, c) ∈ L))).
    + rewrite gridCount_single by (apply Hin; left).
      rewrite IH by (auto; intros; apply Hin; right; auto).
      simpl length. lia.
    + intros r c _. apply eq_iff_eq_true.
      rewrite orb_true_iff, !bool_decide_eq_true, elem_of_cons. reflexivity.
    + intros r c _. apply not_true_is_false.
      rewrite andb_true_iff, !bool_decide_eq_true. intros [-> H]. exact (Hx H).
Qed.

Lemma elem_of_insideCells cl r c :
  (r, c) ∈ insideCells cl <-> insideClosure cl r c.
Proof.
  unfold insideCells, insideClosure. rewrite list_elem_of_fmap. split.
  - intros (i & Heq & Hi). apply elem_of_seqZ in Hi. injection Heq as -> ->.
    exists i. split; [lia|auto].
  - intros (i & Hi & -> & ->). exists i. split; [reflexivity|].
    apply elem_of_seqZ. lia.
Qed.

(** Two rays from one cell that share a cell beyond it are the same ray. *)
Lemma ray_disjoint d1 d2 i j :
  1 <= i -> 1 <= j ->
  i * drow d1 = j * drow d2 -> i * dcol d1 = j * dcol d2 -> d1 = d2 /\ i = j.
Proof.
  destruct d1, d2; simpl; intros;
    first [split; [reflexivity | lia] | exfalso; lia].
Qed.

Lemma validateMove_closures b coords color cls :
  validateMove b coords color = Ret (Some cls) ->
  getClosures b color coords = Ret cls.
Proof.
  unfold validateMove. intros H. apply bind_Ret_inv in H as (v & _ & H).
  destruct (strictNe v VNull); [discriminate|].
  destruct (getClosures b color coords) as [cls'| |]; try discriminate.
  simpl in H. destruct (length cls' =? 0)%nat; [discriminate|].
  injection H as <-. reflexivity.
Qed.

(** The cells a legal move captures: distinct cells of the board, as many
    as the flip counts of its closures add up to, each of the opposing
    color. *)
Lemma capturedCells_spec b color r c cls :
  wf_board b -> inBoard r c ->
  validateMove b (mkCoordinate r c) color = Ret (Some cls) ->
  NoDup ((r, c) :: capturedCells cls) /\
  Z.of_nat (length (capturedCells cls)) = totalFlips cls /\
  1 <= totalFlips cls /\
  (forall r' c', (r', c') ∈ capturedCells cls <->
     exists cl, cl ∈ cls /\ insideClosure cl r' c') /\
  (forall x, x ∈ capturedCells cls ->
     inBoard x.1 x.2 /\ cellAt b x.1 x.2 = Some (Piece (otherColor color))).
Proof.
  intros Hwf Hin Hv.
  destruct (validateMove_accepted _ _ _ _ _ Hwf Hin Hv) as (_ & Hne & Hcls).
  assert (Hnd : NoDup cls).
  { apply validateMove_closures in Hv. unfold getClosures in Hv.
    apply getClosuresLoop_sublist in Hv as (new & -> & Hsub). simpl.
    apply (NoDup_fmap_1 direction).
    exact (sublist_NoDup _ _ NoDup_DIRECTIONS Hsub). }
  assert (Hmem : forall r' c', (r', c') ∈ capturedCells cls <->
            exists cl, cl ∈ cls /\ insideClosure cl r' c').
  { intros r' c'. unfold capturedCells. rewrite list_elem_of_bind. split.
    - intros (cl & H1 & H2). exists cl. split; [exact H2|].
      apply elem_of_insideCells, H1.
    - intros (cl & H1 & H2). exists cl. split; [|exact H1].
      apply elem_of_insideCells, H2. }
  assert (Hcell : forall x, x ∈ capturedCells cls ->
            inBoard x.1 x.2 /\ cellAt b x.1 x.2 = Some (Piece (otherColor color))).
  { intros [r' c'] Hx. apply Hmem in Hx as (cl & Hcl & i & Hi & -> & ->).
    apply Hcls in Hcl as (d & k & _ & (Hrun & _) & ->). simpl in *.
    apply Hrun, Hi. }
  assert (Hlen : forall l : list Closure, (forall cl, cl ∈ l -> 1 <= flipCount cl) ->
            Z.of_nat (length (l ≫= insideCells)) = totalFlips l /\
            (l <> [] -> 1 <= totalFlips l)).
  { induction l as [|cl l IH]; intros Hk; [split; [reflexivity|congruence]|].
    rewrite bind_cons, length_app, Nat2Z.inj_add. simpl totalFlips.
    destruct IH as [IH1 IH2]; [intros; apply Hk; right; auto|].
    pose proof (Hk cl ltac:(left)) as Hk1. rewrite IH1.
    unfold insideCells at 1. rewrite length_fmap, length_seqZ.
    split; [lia|]. intros _.
    destruct l as [|cl' l]; [simpl; lia|]. specialize (IH2 ltac:(discriminate)). lia. }
  destruct (Hlen cls) as [Hlen1 Hlen2].
  { intros cl Hcl. apply Hcls in Hcl as (d & k & Hk & _ & ->). exact Hk. }
  split; [|split; [exact Hlen1|split; [exact (Hlen2 Hne)|split; [exact Hmem|exact Hcell]]]].
  apply NoDup_cons. split.
  - intros Hx. apply Hcell in Hx as [_ Hx]. simpl in Hx.
    destruct (validateMove_accepted _ _ _ _ _ Hwf Hin Hv) as ((Hempty & _) & _).
    congruence.
  - unfold capturedCells. apply NoDup_bind; [| |exact Hnd].
    + intros cl1 cl2 [r' c'] H1 H2 Hy1 Hy2.
      apply elem_of_insideCells in Hy1 as (i & Hi & Hr1 & Hc1).
      apply elem_of_insideCells in Hy2 as (j & Hj & Hr2 & Hc2).
      apply Hcls in H1 as (d1 & k1 & Hk1 & Hrun1 & ->).
      apply Hcls in H2 as (d2 & k2 & Hk2 & Hrun2 & ->). simpl in *.
      destruct (ray_disjoint d1 d2 i j) as [-> _]; [lia|lia|lia|lia|].
      f_equal. eapply run_unique; eauto; lia.
    + intros cl _. unfold insideCells. apply NoDup_fmap_2_strong; [|apply NoDup_seqZ].
      intros i j _ _ Heq. injection Heq as Hr' Hc'.
      destruct (direction cl); simpl in *; lia.
Qed.

(** X15.  An accepted move raises the score of the mover by one plus the
    sum of the flip counts of its closures, which is at least one, and
    lowers the score of the opponent by that sum: each closure flips exactly
    [flipCount] pieces, all of them the opponent's, and no piece twice. *)
Theorem accepted_move_scores g move cls :
  wf_board (board g) -> inBoard (row move) (col move) ->
  validateMove (board g) move (curPlayer g) = Ret (Some cls) ->
  exists g' report,
    turn g move = Ret (g', report) /\
    1 <= totalFlips cls /\
    scoreOf (curPlayer g) (scores g') =
      countColor (curPlayer g) (board g) + 1 + totalFlips cls /\
    scoreOf (otherColor (curPlayer g)) (scores g') =
      countColor (otherColor (curPlayer g)) (board g) - totalFlips cls.
Proof.
  intros Hwf Hin Hv. destruct move as [r c]; simpl in *.
  set (mover := curPlayer g) in *.
  destruct (validateMove_accepted _ _ _ _ _ Hwf Hin Hv) as ((Hempty & _) & _ & Hcls).
  destruct (turn_accepted g r c cls Hwf Hin Hv)
    as (b1 & b2 & player & report & Hb1 & Hb2 & _ & Hturn & _).
  destruct (applyMove_spec _ _ _ _ _ Hwf Hin Hcls)
    as (b1' & b2' & Hb1' & Hb2' & _ & _ & Hplaced & Hset & Hframe & _).
  fold mover in Hb1, Hb2. rewrite Hb1 in Hb1'. injection Hb1' as <-.
  rewrite Hb2 in Hb2'. injection Hb2' as <-.
  destruct (capturedCells_spec _ _ _ _ _ Hwf Hin Hv)
    as (Hnd & Hlen & Hpos & Hmem & Hcap).
  set (L := capturedCells cls) in *.
  (* the cells of [(r, c) :: L] hold the mover's color afterwards, the
     others what they held *)
  assert (Hin_L : forall r' c', (r', c') ∈ (r, c) :: L ->
            cellAt b2 r' c' = Some (Piece mover)).
  { intros r' c' H. apply elem_of_cons in H as [H|H].
    - injection H as -> ->. exact Hplaced.
    - apply Hmem in H as (cl & Hcl & i & Hi & Hr & Hc).
      apply (Hset cl); [exact Hcl|]. exists i. split; [lia|auto]. }
  assert (Hout_L : forall r' c', (r', c') ∉ (r, c) :: L ->
            cellAt b2 r' c' = cellAt (board g) r' c').
  { intros r' c' H. apply Hframe.
    - intros [-> ->]. apply H. left.
    - intros cl Hcl Hins. apply H. right. apply Hmem. eauto. }
  assert (Hmover : countColor mover b2 = countColor mover (board g) + 1 + totalFlips cls).
  { rewrite <- Hlen.
    replace (1 + Z.of_nat (length L)) with (Z.of_nat (length ((r, c) :: L)))
      by (simpl length; lia).
    rewrite <- Z.add_assoc.
    replace (1 + Z.of_nat (length L)) with (Z.of_nat (length ((r, c) :: L)))
      by (simpl length; lia).
    rewrite <- (gridCount_members ((r, c) :: L) Hnd).
    - apply (gridCount_or (fun r' c' => holds mover (cellAt (board g) r' c'))
                          (fun r' c' => bool_decide ((r', c') ∈ (r, c) :: L))).
      + intros r' c' _. destruct (decide ((r', c') ∈ (r, c) :: L)) as [H|H].
        * rewrite (Hin_L _ _ H), (bool_decide_eq_true_2 _ H), orb_true_r.
          unfold holds. apply bool_decide_eq_true_2. reflexivity.
        * rewrite (Hout_L _ _ H), (bool_decide_eq_false_2 _ H), orb_false_r.
          reflexivity.
      + intros r' c' _. apply not_true_is_false.
        rewrite andb_true_iff, bool_decide_eq_true. unfold holds.
        rewrite bool_decide_eq_true. intros [Hm H].
        apply elem_of_cons in H as [H|H].
        * injection H as -> ->. congruence.
        * apply Hcap in H as [_ H]. simpl in H. rewrite H in Hm.
          destruct mover; discriminate.
    - intros x Hx. apply elem_of_cons in Hx as [->|Hx]; [exact Hin | apply Hcap, Hx]. }
  assert (Hother : countColor (otherColor mover) (board g)
                   = countColor (otherColor mover) b2 + totalFlips cls).
  { rewrite <- Hlen. apply NoDup_cons in Hnd as [_ HndL].
    rewrite <- (gridCount_members L HndL) by (intros; apply Hcap; auto).
    apply (gridCount_or (fun r' c' => holds (otherColor mover) (cellAt b2 r' c'))
                        (fun r' c' => bool_decide ((r', c') ∈ L))).
    - intros r' c' _. destruct (decide ((r', c') ∈ L)) as [H|H].
      + rewrite (bool_decide_eq_true_2 _ H), orb_true_r.
        apply Hcap in H as [_ H]. simpl in H. rewrite H. unfold holds.
        apply bool_decide_eq_true_2. reflexivity.
      + rewrite (bool_decide_eq_false_2 _ H), orb_false_r.
        destruct (decide (r' = r /\ c' = c)) as [[-> ->]|Hne].
        * rewrite Hplaced, Hempty. destruct mover; reflexivity.
        * rewrite Hout_L; [reflexivity|].
          intros Hx. apply elem_of_cons in Hx as [Hx|Hx]; [|exact (H Hx)].
          injection Hx as -> ->. tauto.
    - intros r' c' _. apply not_true_is_false.
      rewrite andb_true_iff, bool_decide_eq_true. unfold holds.
      rewrite bool_decide_eq_true. intros [Hm H].
      rewrite (Hin_L r' c') in Hm by (right; exact H).
      destruct mover; discriminate. }
  eexists _, report. split; [exact Hturn|]. split; [exact Hpos|]. simpl.
  destruct mover; simpl in *; lia.
Qed.

(** ** The loop of play *)

Lemma positionText_cell (x : Cell) : exists text, positionText (valueOfCell x) = Ret text.
Proof. destruct x; simpl; eauto. Qed.

Lemma toStringCells_returns b r :
  forall cols result,
    (forall c, c ∈ cols -> is_Some (cellAt b r c)) ->
    exists text, toStringCells b r cols result = Ret text.
Proof.
  induction cols as [|c cols IH]; intros result H; simpl; [eauto|].
  destruct (H c ltac:(left)) as [x Hx].
  rewrite (readPosition_cellAt b r c x Hx), bind_Ret.
  destruct (positionText_cell x) as [text ->]. rewrite bind_Ret.
  apply IH. intros; apply H; right; auto.
Qed.

Lemma toStringRows_returns b :
  forall rows result,
    (forall r c, r ∈ rows -> 0 <= c < size b -> is_Some (cellAt b r c)) ->
    exists text, toStringRows b rows result = Ret text.
Proof.
  induction rows as [|r rows IH]; intros result H; simpl; [eauto|].
  match goal with |- context [toStringCells b r ?cols ?res] =>
    destruct (toStringCells_returns b r cols res) as [text ->] end.
  { intros c Hc. apply H; [left|]. apply elem_of_seqZ in Hc. lia. }
  rewrite bind_Ret. apply IH. intros; apply H; [right|]; auto.
Qed.

(** [Board.toString] and [drawBoardAndScores] return on a board of the
    program. *)
Lemma drawBoardAndScores_returns g :
  programBoard (board g) -> exists texts, drawBoardAndScores g = Ret texts.
Proof.
  intros (Hsize & _ & Hcells). unfold drawBoardAndScores, Board_toString.
  match goal with |- context [toStringRows ?b ?rows ?res] =>
    destruct (toStringRows_returns b rows res) as [text ->] end.
  { intros r c Hr Hc. apply elem_of_seqZ in Hr. rewrite Hsize in *.
    apply Hcells; lia. }
  rewrite bind_Ret. eauto.
Qed.

Lemma hasLegalMove_dec b color :
  wf_board b -> hasLegalMove b color \/ ~ hasLegalMove b color.
Proof.
  intros Hwf.
  destruct (playerHasAnyValidMoves_spec b color Hwf) as ([|] & _ & Hfound).
  - left. apply Hfound. reflexivity.
  - right. intros H. apply Hfound in H. discriminate.
Qed.

(** The three ways an accepted move leaves the game. *)
Lemma turn_cases g r c cls :
  wf_board (board g) -> inBoard r c ->
  validateMove (board g) (mkCoordinate r c) (curPlayer g) = Ret (Some cls) ->
  exists g' report,
    turn g (mkCoordinate r c) = Ret (g', report) /\
    scores g' = (countColor BLACK (board g'), countColor WHITE (board g')) /\
    occupiedCells (board g') = occupiedCells (board g) + 1 /\
    ((report = NextPlayer /\ curPlayer g' = otherColor (curPlayer g) /\
      hasLegalMove (board g') (curPlayer g'))
     \/ (report = SkippedTurn /\ curPlayer g' = curPlayer g /\
         hasLegalMove (board g') (curPlayer g'))
     \/ (report = GameOver (announce (scores g')) /\
         ~ hasLegalMove (board g') BLACK /\ ~ hasLegalMove (board g') WHITE)).
Proof.
  intros Hwf Hin Hv.
  destruct (validateMove_accepted _ _ _ _ _ Hwf Hin Hv) as ((Hempty & _) & _ & Hcls).
  destruct (turn_accepted g r c cls Hwf Hin Hv)
    as (b1 & b2 & player & report & Hb1 & Hb2 & Hwf2 & Hturn & Hnext & Hskip).
  destruct (applyMove_spec _ _ _ _ _ Hwf Hin Hcls)
    as (b1' & b2' & Hb1' & Hb2' & _ & Hcell1 & _ & _ & _ & Hocc).
  rewrite Hb1 in Hb1'. injection Hb1' as <-.
  rewrite Hb2 in Hb2'. injection Hb2' as <-.
  eexists _, report. split; [exact Hturn|]. simpl. split; [reflexivity|]. split.
  { transitivity (occupiedCells b1).
    - apply countCells_ext. intros; apply Hocc.
    - apply (countCells_bump isOccupied (board g) b1 r c Hin).
      + intros r' c' Hne. rewrite Hcell1, bool_decide_eq_false_2; auto.
      + rewrite Hempty. reflexivity.
      + rewrite Hcell1, bool_decide_eq_true_2; auto. }
  destruct (hasLegalMove_dec b2 (otherColor (curPlayer g)) Hwf2) as [Ho|Ho].
  - left. destruct (Hnext Ho) as [-> ->]. auto.
  - destruct (Hskip Ho) as (-> & Hs & Hover).
    destruct (hasLegalMove_dec b2 (curPlayer g) Hwf2) as [Hm|Hm].
    + right; left. auto.
    + right; right. split; [exact (Hover Hm)|].
      destruct (curPlayer g); simpl in *; auto.
Qed.

(** A move on a cell of the board, in the loop: it is rejected and the
    loop goes on with the same game; or it is accepted and the loop goes on
    with one more piece and a player who can move; or it is accepted and
    ends the game. *)
Lemma playMove_inBoard draws inputs autoPilot g r c :
  programBoard (board g) -> inBoard r c ->
  (~ legal (board g) (curPlayer g) r c /\
   playMove draws inputs autoPilot g (mkCoordinate r c)
     = Ret (Continue draws inputs autoPilot g))
  \/ (legal (board g) (curPlayer g) r c /\ exists g',
        programBoard (board g') /\
        scores g' = (countColor BLACK (board g'), countColor WHITE (board g')) /\
        occupiedCells (board g') = occupiedCells (board g) + 1 /\
        ((playMove draws inputs autoPilot g (mkCoordinate r c)
            = Ret (Continue draws inputs autoPilot g') /\
          hasLegalMove (board g') (curPlayer g'))
         \/ (playMove draws inputs autoPilot g (mkCoordinate r c)
               = Ret (Stop (Ended g' (announce (scores g')))) /\
             ~ hasLegalMove (board g') BLACK /\ ~ hasLegalMove (board g') WHITE))).
Proof.
  intros Hpb Hin. pose proof (programBoard_wf _ Hpb) as Hwf.
  destruct (validateMove_spec (board g) (curPlayer g) r c Hwf Hin)
    as [(Hlegal & cls & Hv & _)|(Hno & Hv)].
  - right. split; [exact Hlegal|].
    destruct (turn_cases g r c cls Hwf Hin Hv)
      as (g' & report & Hturn & Hsc & Hocc & Hcases).
    pose proof (turn_programBoard g r c g' report Hpb Hin Hturn) as Hpb'.
    exists g'. split; [exact Hpb'|]. split; [exact Hsc|]. split; [exact Hocc|].
    unfold playMove. rewrite Hturn, bind_Ret. simpl.
    destruct Hcases as [(-> & _ & H)|[(-> & _ & H)|(-> & H)]].
    + left. auto.
    + left. auto.
    + right. destruct (drawBoardAndScores_returns g' Hpb') as [texts ->].
      rewrite bind_Ret. auto.
  - left. split; [exact Hno|]. unfold playMove, turn. rewrite Hv. reflexivity.
Qed.

(** The automatic move is one of the legal moves, when it returns. *)
Lemma autoMove_Ret b color (random : Q) m :
  wf_board b -> autoMove b color random = Ret m ->
  inBoard (row m) (col m) /\ legal b color (row m) (col m).
Proof.
  intros Hwf H.
  destruct (getAllValidMoves_spec b color Hwf) as (moves & Hm & Hiff).
  destruct moves as [|first rest].
  { unfold autoMove in H. rewrite Hm in H. discriminate. }
  rewrite (autoMove_candidates b color random first rest Hm) in H.
  destruct (_ !! _) as [m'|] eqn:Hl; [|discriminate]. injection H as <-.
  apply list_elem_of_lookup_2 in Hl. apply Hiff.
  apply elem_of_cons in Hl as [->|Hl]; [left | exact Hl].
Qed.

Lemma autoMove_not_Diverge b color (random : Q) :
  wf_board b -> autoMove b color random <> Diverge.
Proof.
  intros Hwf. destruct (getAllValidMoves_spec b color Hwf) as (moves & Hm & _).
  unfold autoMove. rewrite Hm, bind_Ret.
  destruct moves; [discriminate|]. destruct (_ !! _); discriminate.
Qed.

(** On the autopilot an iteration is the automatic move. *)
Lemma playIteration_autoPilot v random draws inputs g :
  programBoard (board g) ->
  playIteration v random draws inputs true g = playAuto random draws inputs true g.
Proof.
  intros Hpb. unfold playIteration.
  destruct (drawBoardAndScores_returns g Hpb) as [texts ->]. reflexivity.
Qed.

(** A legal move leaves room on the board. *)
Lemma legal_move_room g :
  programBoard (board g) -> hasLegalMove (board g) (curPlayer g) ->
  occupiedCells (board g) < SIZE * SIZE.
Proof.
  intros Hpb (r & c & Hin & Hlegal).
  destruct (playMove_inBoard O [] false g r c Hpb Hin)
    as [[Hno _]|(_ & g' & _ & _ & Hocc & _)]; [contradiction|].
  pose proof (countCells_bounds isOccupied (board g')) as Hb.
  fold (occupiedCells (board g')) in Hb. destruct Hin as [Hr _].
  rewrite Z.max_r in Hb by lia. lia.
Qed.

(** The autopilot plays the game to its end: from a position where the
    player to move has a move, within as many iterations as cells are
    empty. *)
Lemma autopilot_ends v (random : nat -> Q) :
  (forall k, (0 <= random k)%Q /\ (random k < 1)%Q) ->
  forall (budget : nat) draws inputs g,
    programBoard (board g) -> hasLegalMove (board g) (curPlayer g) ->
    SIZE * SIZE - occupiedCells (board g) <= Z.of_nat budget ->
    exists g',
      playLoop budget v random draws inputs true g
        = Ret (Ended g' (announce (scores g'))) /\
      programBoard (board g') /\
      scores g' = (countColor BLACK (board g'), countColor WHITE (board g')) /\
      occupiedCells (board g) < occupiedCells (board g') /\
      ~ hasLegalMove (board g') BLACK /\ ~ hasLegalMove (board g') WHITE.
Proof.
  intros Hrandom. induction budget as [|budget IH]; intros draws inputs g Hpb Hmove Hroom.
  { pose proof (legal_move_room g Hpb Hmove). lia. }
  pose proof (programBoard_wf _ Hpb) as Hwf.
  destruct (Hrandom draws) as [H0 H1].
  destruct (autoMove_returns (board g) (curPlayer g) (random draws) Hwf Hmove H0 H1)
    as ([r c] & cls & Hauto & Hin & Hlegal & _). cbn [row col] in Hin, Hlegal.
  cbn [playLoop]. rewrite (playIteration_autoPilot _ _ _ _ _ Hpb).
  unfold playAuto. rewrite Hauto, bind_Ret.
  destruct (playMove_inBoard (S draws) inputs true g r c Hpb Hin)
    as [[Hno _]|(_ & g' & Hpb' & Hsc & Hocc & Hnext)]; [contradiction|].
  destruct Hnext as [[-> Hmove']|(-> & HnoB & HnoW)].
  - rewrite bind_Ret.
    destruct (IH (S draws) inputs g' Hpb' Hmove' ltac:(lia))
      as (g2 & Hloop & Hpb2 & Hsc2 & Hocc2 & Hno2).
    exists g2. split; [exact Hloop|]. split; [exact Hpb2|]. split; [exact Hsc2|].
    split; [lia|exact Hno2].
  - rewrite bind_Ret. exists g'. split; [reflexivity|]. split; [exact Hpb'|].
    split; [exact Hsc|]. split; [lia|]. split; assumption.
Qed.

(** [parseCoordinate] throws nothing but its own exception. *)
Lemma parseCoordinate_throws input :
  (exists p, parseCoordinate input = Ret p)
  \/ exists message, parseCoordinate input = Throw (CoordinateParseException message).
Proof.
  unfold parseCoordinate.
  repeat match goal with |- context [if ?x then _ else _] => destruct x end;
    eauto.
Qed.

(** What the move of an iteration does to the loop: a row off the board
    throws; otherwise the loop stops or continues on a program board that
    holds no fewer pieces, and more after a legal move. *)
Lemma playMove_steps draws inputs autoPilot g r c :
  programBoard (board g) -> 0 <= c < SIZE ->
  (~ 0 <= r < SIZE /\
   playMove draws inputs autoPilot g (mkCoordinate r c) = Throw TypeError)
  \/ (exists e, playMove draws inputs autoPilot g (mkCoordinate r c) = Ret (Stop e))
  \/ (exists g',
        playMove draws inputs autoPilot g (mkCoordinate r c)
          = Ret (Continue draws inputs autoPilot g') /\
        programBoard (board g') /\
        occupiedCells (board g) <= occupiedCells (board g') /\
        (legal (board g) (curPlayer g) r c ->
         occupiedCells (board g) < occupiedCells (board g'))).
Proof.
  intros Hpb Hc. destruct (decide (0 <= r < SIZE)) as [Hr|Hr].
  - right.
    destruct (playMove_inBoard draws inputs autoPilot g r c Hpb (conj Hr Hc))
      as [[Hno Hplay]|(_ & g' & Hpb' & _ & Hocc & [[Hplay _]|[Hplay _]])].
    + right. exists g. split; [exact Hplay|]. split; [exact Hpb|].
      split; [lia|]. intros; contradiction.
    + right. exists g'. split; [exact Hplay|]. split; [exact Hpb'|]. lia.
    + left. eauto.
  - left. split; [exact Hr|]. unfold playMove, turn.
    rewrite (proj1 (validateMove_outside (board g) (curPlayer g) r c Hpb) Hr).
    reflexivity.
Qed.

Lemma playAuto_steps random draws inputs autoPilot g :
  programBoard (board g) ->
  (exists e, playAuto random draws inputs autoPilot g = Throw e)
  \/ (exists e, playAuto random draws inputs autoPilot g = Ret (Stop e))
  \/ (exists g',
        playAuto random draws inputs autoPilot g
          = Ret (Continue (S draws) inputs autoPilot g') /\
        programBoard (board g') /\
        occupiedCells (board g) < occupiedCells (board g')).
Proof.
  intros Hpb. pose proof (programBoard_wf _ Hpb) as Hwf. unfold playAuto.
  destruct (autoMove (board g) (curPlayer g) (random draws)) as [[r c]|e|] eqn:Hauto.
  - destruct (autoMove_Ret _ _ _ _ Hwf Hauto) as [[Hr Hc] Hlegal].
    cbn [row col] in Hr, Hc, Hlegal. rewrite bind_Ret.
    destruct (playMove_steps (S draws) inputs autoPilot g r c Hpb Hc)
      as [[Hno _]|[Hstop|(g' & Hplay & Hpb' & _ & Hocc)]]; [contradiction|auto|].
    right; right. exists g'. auto.
  - left. eauto.
  - destruct (autoMove_not_Diverge _ _ _ Hwf Hauto).
Qed.

Lemma playTyped_steps v draws inputs g input :
  programBoard (board g) ->
  (exists e, playTyped v draws inputs g input = Throw e)
  \/ (exists e, playTyped v draws inputs g input = Ret (Stop e))
  \/ (exists g',
        playTyped v draws inputs g input = Ret (Continue draws inputs false g') /\
        programBoard (board g') /\
        occupiedCells (board g) <= occupiedCells (board g')).
Proof.
  intros Hpb. unfold playTyped.
  destruct (parseCoordinate_throws input) as [[p Hp]|[message Hp]]; rewrite Hp.
  - destruct (parseCoordinate_accepts input p Hp) as (_ & (c & Hcol & Hc) & Hrow).
    rewrite Hcol. destruct Hrow as [->|(r & -> & _)]; [left; eauto|].
    destruct (playMove_steps draws inputs false g r c Hpb Hc)
      as [[_ Hplay]|[Hstop|(g' & Hplay & Hpb' & Hocc & _)]]; [left; eauto|auto|].
    right; right. exists g'. auto.
  - destruct v; [|right; left; eauto].
    right; right. exists g. split; [reflexivity|]. split; [exact Hpb|lia].
Qed.

(** One iteration on a program board throws, stops, or continues on a
    program board with an answer less to read or a piece more on the
    board. *)
Lemma playIteration_steps v random draws inputs autoPilot g :
  programBoard (board g) ->
  (exists e, playIteration v random draws inputs autoPilot g = Throw e)
  \/ (exists e, playIteration v random draws inputs autoPilot g = Ret (Stop e))
  \/ (exists draws' inputs' autoPilot' g',
        playIteration v random draws inputs autoPilot g
          = Ret (Continue draws' inputs' autoPilot' g') /\
        programBoard (board g') /\
        Z.of_nat (length inputs') - occupiedCells (board g')
          < Z.of_nat (length inputs) - occupiedCells (board g)).
Proof.
  intros Hpb. unfold playIteration.
  destruct (drawBoardAndScores_returns g Hpb) as [texts ->]. rewrite bind_Ret.
  assert (Hauto : forall inputs' autoPilot',
            (length inputs' <= length inputs)%nat ->
            (exists e, playAuto random draws inputs' autoPilot' g = Throw e)
            \/ (exists e, playAuto random draws inputs' autoPilot' g = Ret (Stop e))
            \/ (exists draws' inputs2 autoPilot2 g',
                  playAuto random draws inputs' autoPilot' g
                    = Ret (Continue draws' inputs2 autoPilot2 g') /\
                  programBoard (board g') /\
                  Z.of_nat (length inputs2) - occupiedCells (board g')
                    < Z.of_nat (length inputs) - occupiedCells (board g))).
  { intros inputs' autoPilot' Hlen.
    destruct (playAuto_steps random draws inputs' autoPilot' g Hpb)
      as [H|[H|(g' & H & Hpb' & Hocc)]]; [auto|auto|].
    right; right. exists (S draws), inputs', autoPilot', g'.
    split; [exact H|]. split; [exact Hpb'|lia]. }
  destruct autoPilot; [apply Hauto; lia|].
  destruct inputs as [|input rest]; [right; left; eauto|].
  destruct (_ && _); [right; left; eauto|].
  destruct (bool_decide (input = "autopilot"%string)); [apply Hauto; simpl; lia|].
  destruct (bool_decide (input = "-"%string)); [apply Hauto; simpl; lia|].
  destruct (playTyped_steps v draws rest g input Hpb)
    as [H|[H|(g' & H & Hpb' & Hocc)]]; [auto|auto|].
  right; right. exists draws, rest, false, g'.
  split; [exact H|]. split; [exact Hpb'|]. simpl length. lia.
Qed.

(** The loop of [play] ends within one iteration for every answer and
    every empty cell, and one more. *)
Lemma playLoop_budget v random budget : forall draws inputs autoPilot g,
  programBoard (board g) ->
  Z.of_nat (length inputs) + (SIZE * SIZE - occupiedCells (board g))
    < Z.of_nat budget ->
  playLoop budget v random draws inputs autoPilot g <> Diverge.
Proof.
  induction budget as [|budget IH]; intros draws inputs autoPilot g Hpb Hlt.
  { pose proof (countCells_bounds isOccupied (board g)) as Hb.
    fold (occupiedCells (board g)) in Hb.
    assert (Z.max 0 SIZE * Z.max 0 SIZE <= SIZE * SIZE) by nia. lia. }
  cbn [playLoop].
  destruct (playIteration_steps v random draws inputs autoPilot g Hpb)
    as [[e ->]|[[e ->]|(draws' & inputs' & autoPilot' & g' & -> & Hpb' & Hless)]];
    [discriminate|discriminate|].
  rewrite bind_Ret. apply IH; [exact Hpb'|lia].
Qed.

(** The messages of [parseCoordinate]. *)
Lemma parseCoordinate_messages input message :
  parseCoordinate input = Throw (CoordinateParseException message) ->
  message ∈ ["Input must be length 2 or 3"; "Column out of bounds";
             "Row out of bounds"]%string.
Proof.
  unfold parseCoordinate.
  repeat match goal with |- context [if ?x then _ else _] => destruct x end;
    intros H; try discriminate; injection H as <-; in_messages.
Qed.

Lemma playMove_result v draws inputs autoPilot g r c it :
  consistent g -> 0 <= c < SIZE ->
  playMove draws inputs autoPilot g (mkCoordinate r c) = Ret it ->
  match it with
  | Continue _ _ _ g' =>
      consistent g' /\ occupiedCells (board g) <= occupiedCells (board g')
  | Stop e => endsWell v (occupiedCells (board g)) e
  end.
Proof.
  intros [Hpb Hsc] Hc Hplay.
  destruct (decide (0 <= r < SIZE)) as [Hr|Hr].
  - destruct (playMove_inBoard draws inputs autoPilot g r c Hpb (conj Hr Hc))
      as [[_ H]|(_ & g' & Hpb' & Hsc' & Hocc & [[H _]|(H & HnoB & HnoW)])];
      rewrite H in Hplay; injection Hplay as <-.
    + split; [split; assumption|lia].
    + split; [split; assumption|lia].
    + split; [split; assumption|]. split; [simpl; lia|]. auto.
  - destruct (playMove_steps draws inputs autoPilot g r c Hpb Hc)
      as [[_ H]|[[e H]|(g' & H & _)]]; [congruence| |].
    + exfalso. unfold playMove, turn in H.
      rewrite (proj1 (validateMove_outside (board g) (curPlayer g) r c Hpb) Hr) in H.
      discriminate.
    + exfalso. unfold playMove, turn in H.
      rewrite (proj1 (validateMove_outside (board g) (curPlayer g) r c Hpb) Hr) in H.
      discriminate.
Qed.

Lemma playIteration_result v random draws inputs autoPilot g it :
  consistent g ->
  playIteration v random draws inputs autoPilot g = Ret it ->
  match it with
  | Continue _ _ _ g' =>
      consistent g' /\ occupiedCells (board g) <= occupiedCells (board g')
  | Stop e => endsWell v (occupiedCells (board g)) e
  end.
Proof.
  intros Hg H. pose proof Hg as [Hpb Hsc].
  pose proof (programBoard_wf _ Hpb) as Hwf.
  assert (Hauto : forall inputs' autoPilot',
            playAuto random draws inputs' autoPilot' g = Ret it ->
            match it with
            | Continue _ _ _ g' =>
                consistent g' /\ occupiedCells (board g) <= occupiedCells (board g')
            | Stop e => endsWell v (occupiedCells (board g)) e
            end).
  { intros inputs' autoPilot' Ha. unfold playAuto in Ha.
    apply bind_Ret_inv in Ha as ([r c] & Hm & Ha).
    destruct (autoMove_Ret _ _ _ _ Hwf Hm) as [[_ Hc] _]. cbn [row col] in Hc.
    exact (playMove_result v _ _ _ _ _ _ _ Hg Hc Ha). }
  unfold playIteration in H. apply bind_Ret_inv in H as (texts & _ & H).
  destruct autoPilot; [exact (Hauto _ _ H)|].
  destruct inputs as [|input rest].
  { injection H as <-. split; [exact Hg|]. split; [simpl; lia|exact I]. }
  destruct (bool_decide (input = "multi"%string) && bool_decide (v = Networked))
    eqn:Hmulti.
  { injection H as <-. split; [exact Hg|]. split; [simpl; lia|].
    apply andb_prop in Hmulti as [_ Hv]. exact (bool_decide_eq_true_1 _ Hv). }
  destruct (bool_decide (input = "autopilot"%string)); [exact (Hauto _ _ H)|].
  destruct (bool_decide (input = "-"%string)); [exact (Hauto _ _ H)|].
  unfold playTyped in H.
  destruct (parseCoordinate_throws input) as [[p Hp]|[message Hp]];
    rewrite Hp in H.
  - destruct (parseCoordinate_accepts input p Hp) as (_ & (c & Hcol & Hc) & Hrow).
    rewrite Hcol in H. destruct Hrow as [Hrow|(r & Hrow & _)]; rewrite Hrow in H;
      [discriminate|].
    exact (playMove_result v _ _ _ _ _ _ _ Hg Hc H).
  - destruct v; injection H as <-.
    + split; [exact Hg|lia].
    + split; [exact Hg|]. split; [simpl; lia|]. split; [reflexivity|].
      exact (parseCoordinate_messages _ _ Hp).
Qed.

Lemma endsWell_mono v n m e : n <= m -> endsWell v m e -> endsWell v n e.
Proof. intros Hle (Hg & Hocc & He). split; [exact Hg|]. split; [lia|exact He]. Qed.

(** Whatever the loop of [play] returns ends well. *)
Lemma playLoop_result v random budget : forall draws inputs autoPilot g e,
  consistent g ->
  playLoop budget v random draws inputs autoPilot g = Ret e ->
  endsWell v (occupiedCells (board g)) e.
Proof.
  induction budget as [|budget IH]; intros draws inputs autoPilot g e Hg H;
    [discriminate|].
  cbn [playLoop] in H. apply bind_Ret_inv in H as (it & Hit & H).
  pose proof (playIteration_result _ _ _ _ _ _ _ Hg Hit) as Hres.
  destruct it as [e'|draws' inputs' autoPilot' g'].
  - unfold mret, Outcome_ret in H. injection H as <-. exact Hres.
  - destruct Hres as [Hg' Hocc].
    exact (endsWell_mono _ _ _ _ Hocc (IH _ _ _ _ _ Hg' H)).
Qed.

Lemma placeStartingPieces_not_Diverge b : placeStartingPieces b <> Diverge.
Proof.
  unfold placeStartingPieces. destruct (Z.even SIZE); [|discriminate].
  repeat (apply bind_not_Diverge; [apply writePosition_not_Diverge|intros ? _]).
  apply writePosition_not_Diverge.
Qed.

Lemma constructor_not_Diverge : constructor <> Diverge.
Proof.
  unfold constructor, newBoard, newArray.
  repeat match goal with |- context [if ?x then _ else _] => destruct x end;
    discriminate.
Qed.

(** The start of [play]: when the setup returns, the size is even and at
    least two, and the game that enters the loop is consistent with four
    pieces on the board. *)
Lemma play_setup b0 b :
  constructor = Ret b0 -> placeStartingPieces b0 = Ret b ->
  Z.even SIZE = true /\ 2 <= SIZE <= 26 /\ programBoard b /\
  getScores b = Ret (countColor BLACK b, countColor WHITE b) /\
  occupiedCells b = 4.
Proof.
  intros Hc Hp.
  pose proof (constructor_programBoard _ Hc) as Hpb0.
  pose proof (placeStartingPieces_programBoard _ _ Hpb0 Hp) as Hpb.
  assert (Heven : Z.even SIZE = true).
  { unfold placeStartingPieces in Hp. destruct (Z.even SIZE); [reflexivity|discriminate]. }
  assert (Hsize : 2 <= SIZE <= 26).
  { split.
    - unfold placeStartingPieces in Hp. rewrite Heven in Hp.
      apply bind_Ret_inv in Hp as (b1 & H1 & _).
      assert (Hrow : 0 <= SIZE / 2 - 1 < SIZE).
      { destruct Hpb0 as (_ & Hrs & _). apply Hrs. unfold writePosition in H1.
        destruct (positions b0 !! (SIZE / 2 - 1)); [eauto|discriminate]. }
      apply Z.even_spec in Heven as [m Hm].
      rewrite Hm, Z.mul_comm, Z.div_mul in Hrow by lia. lia.
    - unfold constructor in Hc. destruct (Z.ltb_spec 26 SIZE); [discriminate|lia]. }
  destruct (starting_board_spec Heven Hsize) as (b0' & b' & Hc' & Hp' & _ & _ & HB & HW).
  rewrite Hc in Hc'. injection Hc' as <-. rewrite Hp in Hp'. injection Hp' as <-.
  split; [exact Heven|]. split; [exact Hsize|]. split; [exact Hpb|].
  split; [apply getScores_spec, programBoard_wf, Hpb|].
  rewrite occupiedCells_colors. lia.
Qed.

(** X16.  [play] ends on every list of answers, in both versions and
    whatever [Math.random()] gives: the loop of [play] takes at most one
    iteration for every answer and every cell of the board, and one more,
    before the program stops, asks for an answer that is not there, or
    throws. *)
Theorem play_terminates v (random : nat -> Q) (inputs : list string) :
  play v random inputs <> Diverge.
Proof.
  unfold play.
  apply bind_not_Diverge; [apply constructor_not_Diverge|intros b0 Hc].
  apply bind_not_Diverge; [apply placeStartingPieces_not_Diverge|intros b Hp].
  destruct (play_setup b0 b Hc Hp) as (_ & _ & Hpb & Hsc & Hocc).
  rewrite Hsc, bind_Ret. apply playLoop_budget; [exact Hpb|].
  cbn [board]. rewrite !Nat2Z.inj_add, Z2Nat.id by nia. lia.
Qed.

(** X17.  What [play] returns.  The setup succeeded, so the size is even
    and between 2 and 26.  The game the program stops on holds a board of
    [SIZE] rows of [SIZE] cells with at least the four starting pieces, and
    its scores are the numbers of black and of white pieces on the board.
    A game declared over announces the winner of these scores and leaves
    no legal move to either color; only [othello.js] stops on a coordinate
    that does not parse, with one of the three messages, or enters a
    network game. *)
Theorem play_result v (random : nat -> Q) (inputs : list string) e :
  play v random inputs = Ret e ->
  Z.even SIZE = true /\ 2 <= SIZE <= 26 /\ endsWell v 4 e.
Proof.
  unfold play. intros H.
  apply bind_Ret_inv in H as (b0 & Hc & H).
  apply bind_Ret_inv in H as (b & Hp & H).
  destruct (play_setup b0 b Hc Hp) as (Heven & Hsize & Hpb & Hsc & Hocc).
  rewrite Hsc, bind_Ret in H.
  split; [exact Heven|]. split; [exact Hsize|].
  rewrite <- Hocc. refine (playLoop_result _ _ _ _ _ _ _ _ _ H).
  split; [exact Hpb|reflexivity].
Qed.

(** X18.  The answer [autopilot] plays the game to its end.  On a board of
    even size between 4 and 26, with every value of [Math.random()] in
    [0, 1), [play] returns a game that is over, whatever answers follow:
    the automatic moves need no more iterations than the board has empty
    cells, at least one piece was placed, neither color has a legal move
    left, and the winner announced is that of the final scores. *)
Theorem play_autopilot v (random : nat -> Q) (rest : list string) :
  Z.even SIZE = true -> 4 <= SIZE <= 26 ->
  (forall k, (0 <= random k)%Q /\ (random k < 1)%Q) ->
  exists g,
    play v random ("autopilot"%string :: rest) = Ret (Ended g (announce (scores g))) /\
    endsWell v 5 (Ended g (announce (scores g))).
Proof.
  intros Heven Hsize Hrandom.
  destruct (starting_board_spec Heven ltac:(lia)) as (b0 & b & Hc & Hp & _).
  destruct (play_setup b0 b Hc Hp) as (_ & _ & Hpb & Hsc & Hocc).
  destruct (starting_moves_spec b0 b Heven Hsize Hc Hp) as [HB HW].
  unfold play. rewrite Hc, bind_Ret, Hp, bind_Ret, Hsc, bind_Ret.
  set (g := mkGame b _ _).
  assert (Hmove : hasLegalMove (board g) (curPlayer g)).
  { subst g. cbn [board curPlayer]. destruct (Qlt_le_dec _ _); assumption. }
  assert (Hpbg : programBoard (board g)) by exact Hpb.
  assert (Hroom : occupiedCells (board g) = 4) by exact Hocc.
  remember (length ("autopilot"%string :: rest) + Z.to_nat (SIZE * SIZE) + 1)%nat
    as budget eqn:Hbudget.
  destruct budget as [|budget]; [lia|].
  cbn [playLoop]. unfold playIteration.
  destruct (drawBoardAndScores_returns g Hpbg) as [texts ->]. rewrite bind_Ret.
  change (bool_decide ("autopilot"%string = "multi"%string)) with false.
  change (bool_decide ("autopilot"%string = "autopilot"%string)) with true.
  cbn [andb].
  (* the first automatic move, then the loop on the autopilot *)
  pose proof (programBoard_wf _ Hpbg) as Hwf.
  destruct (Hrandom 1%nat) as [H0 H1].
  destruct (autoMove_returns (board g) (curPlayer g) (random 1%nat) Hwf Hmove H0 H1)
    as ([r c] & cls & Hauto & Hin & Hlegal & _). cbn [row col] in Hin, Hlegal.
  unfold playAuto. rewrite Hauto, bind_Ret.
  destruct (playMove_inBoard 2 rest true g r c Hpbg Hin)
    as [[Hno _]|(_ & g' & Hpb' & Hsc' & Hocc' & Hnext)]; [contradiction|].
  destruct Hnext as [[-> Hmove']|(-> & HnoB & HnoW)]; rewrite bind_Ret.
  - destruct (autopilot_ends v random Hrandom budget 2%nat rest g' Hpb' Hmove')
      as (g2 & Hloop & Hpb2 & Hsc2 & Hocc2 & HnoB & HnoW).
    { simpl length in Hbudget. apply (f_equal Z.of_nat) in Hbudget.
      rewrite !Nat2Z.inj_add, Z2Nat.id in Hbudget by nia. lia. }
    exists g2. split; [exact Hloop|]. split; [split; assumption|].
    split; [simpl; lia|]. auto.
  - exists g'. split; [reflexivity|]. split; [split; assumption|].
    split; [simpl; lia|]. auto.
Qed.

(** X19.  A row the board does not have ends the program.  When the
    answer parses to a coordinate whose row is [NaN] ([a-], [bx]) or past
    the last row ([a9] on a board of eight), the iteration draws the board
    and [validateMove] reads a cell of a row that does not exist: the
    [TypeError] leaves the loop of [play], in both versions, since the
    [catch] of the loop only handles [CoordinateParseException]. *)
Theorem play_row_off_board v (random : nat -> Q) n draws input rest g p :
  programBoard (board g) ->
  parseCoordinate input = Ret p ->
  (parsedRow p = NaN \/ exists r, parsedRow p = Num r /\ SIZE <= r) ->
  playLoop (S n) v random draws (input :: rest) false g = Throw TypeError.
Proof.
  intros Hpb Hp Hrow.
  destruct (parseCoordinate_accepts input p Hp) as (Hlen & (c & Hcol & Hc) & _).
  cbn [playLoop]. unfold playIteration.
  destruct (drawBoardAndScores_returns g Hpb) as [texts ->]. rewrite bind_Ret.
  rewrite (bool_decide_eq_false_2 (input = "multi"%string))
    by (intros ->; simpl in Hlen; lia).
  rewrite (bool_decide_eq_false_2 (input = "autopilot"%string))
    by (intros ->; simpl in Hlen; lia).
  rewrite (bool_decide_eq_false_2 (input = "-"%string))
    by (intros ->; simpl in Hlen; lia).
  cbn [andb]. unfold playTyped. rewrite Hp, Hcol.
  destruct Hrow as [->|(r & -> & Hr)]; [reflexivity|].
  unfold playMove, turn.
  rewrite (proj1 (validateMove_outside (board g) (curPlayer g) r c Hpb))
    by lia.
  reflexivity.
Qed.

(** X23.  A token that does not parse.  The two versions of [play] part
    on a [CoordinateParseException]: the [catch] of the first version
    prints the message and the loop goes on to the next answer with the
    game as it was; the [catch] of [othello.js] leaves the loop, and the
    program ends on the game as it was.  (The answers [-], [autopilot] and
    [multi] are commands, not tokens.) *)
Theorem play_parse_error (random : nat -> Q) n draws input rest g message :
  programBoard (board g) ->
  parseCoordinate input = Throw (CoordinateParseException message) ->
  input <> "-"%string -> input <> "autopilot"%string -> input <> "multi"%string ->
  playLoop (S n) SinglePlayer random draws (input :: rest) false g
    = playLoop n SinglePlayer random draws rest false g /\
  playLoop (S n) Networked random draws (input :: rest) false g
    = Ret (EndedOnParseError g message).
Proof.
  intros Hpb Hp Hdash Hauto Hmulti.
  cbn [playLoop]. unfold playIteration.
  destruct (drawBoardAndScores_returns g Hpb) as [texts ->]. rewrite !bind_Ret.
  rewrite (bool_decide_eq_false_2 (input = "multi"%string)) by exact Hmulti.
  rewrite (bool_decide_eq_false_2 (input = "autopilot"%string)) by exact Hauto.
  rewrite (bool_decide_eq_false_2 (input = "-"%string)) by exact Hdash.
  cbn [andb]. unfold playTyped. rewrite Hp. split; reflexivity.
Qed.

(** ** Row labels and [parseInt] *)

Ltac digit_cases d H :=
  let E := fresh in
  assert (E : d = 0 \/ d = 1 \/ d = 2 \/ d = 3 \/ d = 4 \/ d = 5 \/ d = 6 \/
              d = 7 \/ d = 8 \/ d = 9) by lia;
  clear H; repeat destruct E as [E|E]; subst d.

Lemma digitValue_digit d :
  0 <= d < 10 -> digitValue (ascii_of_nat (Z.to_nat (48 + d))) = Some d.
Proof. intros H. digit_cases d H; reflexivity. Qed.

(** The digits [digitsBefore] puts before [rest] read as [n]. *)
Lemma readDigits_digitsBefore fuel : forall n rest,
  0 <= n < 2 ^ Z.of_nat (S fuel) ->
  readDigits 10 (digitsBefore (S fuel) n rest) NaN = readDigits 10 rest (Num n).
Proof.
  induction fuel as [|fuel IH]; intros n rest Hn.
  - change (2 ^ Z.of_nat 1) with 2 in Hn. cbn [digitsBefore].
    rewrite Z.mod_small by lia. destruct (Z.ltb_spec n 10); [|lia].
    cbn [readDigits]. rewrite digitValue_digit by lia.
    destruct (Z.ltb_spec n 10); [reflexivity|lia].
  - rewrite Nat2Z.inj_succ, Z.pow_succ_r in Hn by lia.
    change (digitsBefore (S (S fuel)) n rest) with
      (let acc' := String (ascii_of_nat (Z.to_nat (48 + n mod 10))) rest in
       if n <? 10 then acc' else digitsBefore (S fuel) (n / 10) acc').
    cbv zeta. pose proof (Z.mod_pos_bound n 10 ltac:(lia)) as Hmod.
    destruct (Z.ltb_spec n 10) as [Hlt|Hge].
    + rewrite Z.mod_small by lia. cbn [readDigits].
      rewrite digitValue_digit by lia.
      destruct (Z.ltb_spec n 10); [reflexivity|lia].
    + rewrite IH.
      * cbn [readDigits]. rewrite digitValue_digit by lia.
        destruct (Z.ltb_spec (n mod 10) 10); [|lia].
        do 2 f_equal. pose proof (Z.div_mod n 10 ltac:(lia)). lia.
      * split; [apply Z.div_pos; lia|].
        apply Z.div_lt_upper_bound; lia.
Qed.

(** [digitsBefore] starts with a digit, followed by [rest] or by another
    digit. *)
Lemma digitsBefore_shape fuel : forall n rest,
  0 <= n ->
  exists d s', 0 <= d < 10 /\
    digitsBefore (S fuel) n rest = String (ascii_of_nat (Z.to_nat (48 + d))) s' /\
    (s' = rest \/ exists d' s'', 0 <= d' < 10 /\
                   s' = String (ascii_of_nat (Z.to_nat (48 + d'))) s'').
Proof.
  induction fuel as [|fuel IH]; intros n rest Hn;
    pose proof (Z.mod_pos_bound n 10 ltac:(lia)) as Hmod.
  - exists (n mod 10), rest. split; [lia|]. split; [|left; reflexivity].
    cbn [digitsBefore]. destruct (n <? 10); reflexivity.
  - change (digitsBefore (S (S fuel)) n rest) with
      (let acc' := String (ascii_of_nat (Z.to_nat (48 + n mod 10))) rest in
       if n <? 10 then acc' else digitsBefore (S fuel) (n / 10) acc').
    cbv zeta. destruct (Z.ltb_spec n 10) as [Hlt|Hge].
    + exists (n mod 10), rest. split; [lia|]. split; [reflexivity|left; reflexivity].
    + destruct (IH (n / 10) (String (ascii_of_nat (Z.to_nat (48 + n mod 10))) rest))
        as (d & s' & Hd & -> & Hs'); [apply Z.div_pos; lia|].
      exists d, s'. split; [exact Hd|]. split; [reflexivity|]. right.
      destruct Hs' as [->|Hs']; [|exact Hs']. eauto.
Qed.

(** [parseInt] on a string that starts with a decimal digit, and with
    another when the first is [0], after a sign or without one: the digits
    are read in radix 10. *)
Lemma parseInt_digits d s' :
  0 <= d < 10 ->
  (s' = ""%string \/ exists d' s'', 0 <= d' < 10 /\
                      s' = String (ascii_of_nat (Z.to_nat (48 + d'))) s'') ->
  let s := String (ascii_of_nat (Z.to_nat (48 + d))) s' in
  parseInt s
    = match readDigits 10 s NaN with NaN => NaN | Num z => Num (1 * z) end /\
  parseInt (String "-" s)
    = match readDigits 10 s NaN with NaN => NaN | Num z => Num (-1 * z) end.
Proof.
  intros Hd Hs'. digit_cases d Hd; try (split; reflexivity).
  destruct Hs' as [->|(d' & s'' & Hd' & ->)]; [split; reflexivity|].
  digit_cases d' Hd'; split; reflexivity.
Qed.

Lemma parseInt_printed n : parseInt (numberToString n) = Num n.
Proof.
  assert (Hfuel : forall m, 0 <= m -> 0 <= m < 2 ^ Z.of_nat (S (Z.to_nat (Z.log2 m)))).
  { intros m Hm. split; [exact Hm|].
    rewrite Nat2Z.inj_succ, Z2Nat.id by apply Z.log2_nonneg.
    destruct (Z.eq_dec m 0) as [->|Hne]; [reflexivity|].
    apply Z.log2_spec. lia. }
  unfold numberToString. destruct (Z.ltb_spec n 0) as [Hneg|Hpos].
  - destruct (digitsBefore_shape (Z.to_nat (Z.log2 (- n))) (- n) "" ltac:(lia))
      as (d & s' & Hd & Hshape & Hs').
    pose proof (readDigits_digitsBefore _ (- n) "" (Hfuel (- n) ltac:(lia))) as Hread.
    rewrite Hshape in *.
    rewrite (proj2 (parseInt_digits d s' Hd Hs')), Hread. simpl readDigits.
    f_equal. lia.
  - destruct (digitsBefore_shape (Z.to_nat (Z.log2 n)) n "" Hpos)
      as (d & s' & Hd & Hshape & Hs').
    pose proof (readDigits_digitsBefore _ n "" (Hfuel n Hpos)) as Hread.
    rewrite Hshape in *.
    rewrite (proj1 (parseInt_digits d s' Hd Hs')), Hread. simpl readDigits.
    f_equal. lia.
Qed.

(** X20.  A number the program prints is read back by the program.  The
    row numbers of [Board.toString] and the scores of [drawBoardAndScores]
    are integers below [2^53] in absolute value; there JavaScript prints an
    integer in full and [parseInt] is exact, and [parseInt], as
    [parseCoordinate] applies it to the row part of a token, gives the
    integer back from its decimal text. *)
Theorem parseInt_numberToString n :
  - 2 ^ 53 < n < 2 ^ 53 -> parseInt (numberToString n) = Num n.
Proof. intros _. apply parseInt_printed. Qed.

Lemma numberToString_length n :
  1 <= n <= 99 -> (1 <= String.length (numberToString n) <= 2)%nat.
Proof.
  intros Hn.
  assert (Hall : forallb (fun n => let k := String.length (numberToString n) in
                                   (1 <=? k)%nat && (k <=? 2)%nat) (seqZ 1 99) = true)
    by (vm_compute; reflexivity).
  rewrite forallb_forall in Hall.
  specialize (Hall n). cbv zeta in Hall.
  destruct (andb_prop _ _ (Hall ltac:(apply list_elem_of_In, elem_of_seqZ; lia)))
    as [H1 H2].
  apply Nat.leb_le in H1, H2. lia.
Qed.

(** X21.  The labels of the board are the coordinates of the game.  The
    letter [Board.toString] writes over column [c] followed by the number
    it writes before row [r] is a token that [parseCoordinate] accepts, and
    it parses to [(r, c)]: for the columns of the board, up to the 26
    letters, and the rows up to 99. *)
Theorem parseCoordinate_label r c :
  0 <= c < SIZE -> c <= 25 -> 0 <= r <= 98 ->
  parseCoordinate (columnLabel c +:+ numberToString (r + 1))
    = Ret (mkParsed (Num r) (Num c)).
Proof.
  intros Hc Hletter Hr.
  pose proof (numberToString_length (r + 1) ltac:(lia)) as Hlen.
  assert (Hcode : codeOf (ascii_of_nat (Z.to_nat (97 + c))) = 97 + c).
  { unfold codeOf. rewrite nat_ascii_embedding by lia. lia. }
  unfold parseCoordinate, columnLabel.
  change (String ?a "" +:+ ?s) with (String a s).
  cbn [String.length sliceFrom1 firstCharCode].
  rewrite Hcode, parseInt_printed.
  destruct (Nat.ltb_spec (S (String.length (numberToString (r + 1)))) 2); [lia|].
  destruct (Nat.ltb_spec 3 (S (String.length (numberToString (r + 1))))); [lia|].
  cbn [orb numSub numLt numGt].
  replace (97 + c - 97) with c by lia. replace (r + 1 - 1) with r by lia.
  destruct (Z.ltb_spec c 0); [lia|].
  destruct (Z.ltb_spec (SIZE - 1) c); [lia|].
  destruct (Z.ltb_spec r 0); [lia|]. reflexivity.
Qed.

(** ** The text of the board *)

Lemma length_append (s t : string) :
  String.length (s +:+ t) = (String.length s + String.length t)%nat.
Proof. induction s as [|a s IH]; simpl; [reflexivity|]. rewrite IH. reflexivity. Qed.

Lemma toStringHeader_length cols : forall result,
  String.length (toStringHeader cols result)
    = (String.length result + 2 * length cols)%nat.
Proof.
  induction cols as [|c cols IH]; intros result; simpl; [lia|].
  rewrite IH, !length_append. unfold columnLabel. simpl. lia.
Qed.

Lemma positionText_length (x : Cell) :
  exists text, positionText (valueOfCell x) = Ret text /\ String.length text = 1%nat.
Proof. destruct x as [|[|]]; simpl; eauto. Qed.

(** The cells of a row from column [k] on: a character for each, and a
    space after each but the last. *)
Lemma toStringCells_length b r (n : nat) : forall k result,
  k + Z.of_nat n = size b ->
  (forall c, k <= c < size b -> is_Some (cellAt b r c)) ->
  exists text,
    toStringCells b r (seqZ k (Z.of_nat n)) result = Ret text /\
    (String.length text + (match n with O => 0 | S _ => 1 end)
     = String.length result + 2 * n)%nat.
Proof.
  induction n as [|n IH]; intros k result Hk Hcells.
  { exists result. split; [reflexivity|]. lia. }
  rewrite seqZ_cons by lia.
  replace (Z.pred (Z.of_nat (S n))) with (Z.of_nat n) by lia.
  cbn [toStringCells].
  destruct (Hcells k ltac:(lia)) as [x Hx].
  rewrite (readPosition_cellAt b r k x Hx), bind_Ret.
  destruct (positionText_length x) as (cell & -> & Hcell). rewrite bind_Ret.
  match goal with |- context [toStringCells b r _ ?res] =>
    destruct (IH (Z.succ k) res) as (text & -> & Hlen) end;
    [lia | intros; apply Hcells; lia |].
  exists text. split; [reflexivity|].
  destruct (Z.ltb_spec k (size b - 1)); rewrite ?length_append in Hlen;
    destruct n; simpl in Hlen; lia.
Qed.

(** A row label and its padding are three characters wide. *)
Lemma rowLabel_length r result :
  0 <= r <= 98 ->
  let result1 := result +:+ numberToString (r + 1) in
  String.length (if r <? 9 then result1 +:+ "  " else result1 +:+ " ")
    = (String.length result + 3)%nat.
Proof.
  intros Hr.
  assert (Hall : forallb (fun n => Nat.eqb (String.length (numberToString n))
                                           (if n - 1 <? 9 then 1%nat else 2%nat))
                         (seqZ 1 99) = true)
    by (vm_compute; reflexivity).
  rewrite forallb_forall in Hall.
  specialize (Hall (r + 1) ltac:(apply list_elem_of_In, elem_of_seqZ; lia)).
  apply Nat.eqb_eq in Hall. replace (r + 1 - 1) with r in Hall by lia.
  cbv zeta. destruct (r <? 9); rewrite !length_append, Hall; simpl; lia.
Qed.

Lemma toStringRows_length b : forall rows result,
  0 <= size b ->
  (forall r, r ∈ rows -> 0 <= r <= 98) ->
  (forall r c, r ∈ rows -> 0 <= c < size b -> is_Some (cellAt b r c)) ->
  exists text,
    toStringRows b rows result = Ret text /\
    Z.of_nat (String.length text)
      = Z.of_nat (String.length result)
        + Z.of_nat (length rows) * (2 * size b + 3 - (if size b =? 0 then 0 else 1) + 1).
Proof.
  induction rows as [|r rows IH]; intros result Hsize Hrows Hcells.
  { exists result. split; [reflexivity|]. simpl. lia. }
  cbn [toStringRows].
  pose proof (rowLabel_length r result (Hrows r ltac:(left))) as Hlabel.
  cbv zeta in Hlabel.
  assert (Hcols : seqZ 0 (size b) = seqZ 0 (Z.of_nat (Z.to_nat (size b))))
    by (f_equal; lia).
  rewrite Hcols.
  match goal with |- context [toStringCells b r _ ?res] =>
    destruct (toStringCells_length b r (Z.to_nat (size b)) 0 res)
      as (line & -> & Hline) end;
    [lia | intros; apply Hcells; [left|lia] |].
  rewrite bind_Ret. rewrite Hlabel in Hline.
  destruct (IH (line +:+ newline) Hsize) as (text & -> & Hlen).
  { intros; apply Hrows; right; auto. }
  { intros; apply Hcells; [right|]; auto. }
  exists text. split; [reflexivity|]. rewrite Hlen, length_append.
  change (String.length newline) with 1%nat. simpl length.
  destruct (Z.eqb_spec (size b) 0) as [Hz|Hz].
  - rewrite Hz in *. simpl in Hline. lia.
  - destruct (Z.to_nat (size b)) eqn:Hn; [lia|]. nia.
Qed.

(** The length of the text of the board. *)
Lemma Board_toString_length b :
  programBoard b -> 1 <= SIZE <= 99 ->
  exists text,
    Board_toString b = Ret text /\
    Z.of_nat (String.length text) = (2 * SIZE + 4) + SIZE * (2 * SIZE + 3).
Proof.
  intros (Hsize & _ & Hcells) HSIZE. unfold Board_toString.
  match goal with |- context [toStringRows b ?rows ?res] =>
    destruct (toStringRows_length b rows res) as (text & -> & Hlen) end.
  - lia.
  - intros r Hr. apply elem_of_seqZ in Hr. lia.
  - intros r c Hr Hc. apply elem_of_seqZ in Hr. rewrite Hsize in *.
    apply Hcells; lia.
  - exists text. split; [reflexivity|]. rewrite Hlen.
    rewrite length_append, toStringHeader_length, !length_seqZ, Hsize.
    destruct (Z.eqb_spec SIZE 0); [lia|].
    change (String.length newline) with 1%nat.
    change (String.length ("" +:+ "   ")) with 3%nat. lia.
Qed.

Lemma append_assoc (s t u : string) : (s +:+ t) +:+ u = s +:+ (t +:+ u).
Proof.
  induction s as [|a s IH]; [reflexivity|].
  change (String a ((s +:+ t) +:+ u) = String a (s +:+ (t +:+ u))).
  rewrite IH. reflexivity.
Qed.

Lemma append_empty_r (s : string) : s +:+ "" = s.
Proof.
  induction s as [|a s IH]; [reflexivity|].
  change (String a (s +:+ "") = String a s). rewrite IH. reflexivity.
Qed.

Lemma length_joined (f : Z -> string) (w : nat) l :
  (forall x, x ∈ l -> String.length (f x) = w) ->
  String.length (joined f l) = (w * length l)%nat.
Proof.
  induction l as [|x l IH]; intros H; simpl; [lia|].
  rewrite length_append, (H x ltac:(left)), IH by (intros; apply H; right; auto).
  lia.
Qed.

(** The character at offset [w * k] of texts of width [w] joined. *)
Lemma get_joined (f : Z -> string) (w : nat) l : forall k x,
  l !! k = Some x ->
  (forall j y, (j < k)%nat -> l !! j = Some y -> String.length (f y) = w) ->
  (0 < String.length (f x))%nat ->
  String.get (w * k) (joined f l) = String.get 0 (f x).
Proof.
  induction l as [|y l IH]; intros k x Hk Hw Hx; [discriminate|].
  destruct k as [|k]; simpl in Hk.
  - injection Hk as ->. rewrite Nat.mul_0_r. simpl joined.
    symmetry. apply append_correct1. exact Hx.
  - simpl joined. replace (w * S k)%nat with (w * k + String.length (f y))%nat.
    + rewrite <- append_correct2. apply IH; [exact Hk| |exact Hx].
      intros j z Hj Hz. apply (Hw (S j) z); [lia|exact Hz].
    + rewrite (Hw 0%nat y); [lia|lia|reflexivity].
Qed.

Lemma toStringHeader_joined cols : forall result,
  toStringHeader cols result
    = result +:+ joined (fun c => columnLabel c +:+ " ") cols.
Proof.
  induction cols as [|c cols IH]; intros result; simpl.
  - rewrite append_empty_r. reflexivity.
  - rewrite IH, !append_assoc. reflexivity.
Qed.

Lemma positionText_cellText (x : Cell) :
  positionText (valueOfCell x) = Ret (cellText (Some x)).
Proof. destruct x as [|[|]]; reflexivity. Qed.

Lemma toStringCells_joined b r : forall cols result,
  size b = SIZE ->
  (forall c, c ∈ cols -> is_Some (cellAt b r c)) ->
  toStringCells b r cols result
    = Ret (result +:+
           joined (fun c => cellText (cellAt b r c) +:+
                            (if c <? SIZE - 1 then " " else "")) cols).
Proof.
  induction cols as [|c cols IH]; intros result Hsize Hcells; simpl.
  - rewrite append_empty_r. reflexivity.
  - destruct (Hcells c ltac:(left)) as [x Hx].
    rewrite (readPosition_cellAt b r c x Hx), bind_Ret, positionText_cellText, bind_Ret.
    rewrite IH by (auto; intros; apply Hcells; right; auto).
    rewrite Hsize, Hx. destruct (c <? SIZE - 1); rewrite ?append_empty_r, ?append_assoc;
      reflexivity.
Qed.

Lemma toStringRows_joined b : forall rows result,
  size b = SIZE ->
  (forall r c, r ∈ rows -> 0 <= c < SIZE -> is_Some (cellAt b r c)) ->
  toStringRows b rows result
    = Ret (result +:+ joined (fun r => rowLine b r +:+ newline) rows).
Proof.
  induction rows as [|r rows IH]; intros result Hsize Hcells; simpl.
  - rewrite append_empty_r. reflexivity.
  - rewrite toStringCells_joined; [|exact Hsize|].
    + rewrite bind_Ret.
      rewrite (IH _ Hsize) by (intros; apply Hcells; [right|]; auto).
      f_equal. unfold rowLine, rowLabel, indices. rewrite Hsize.
      destruct (r <? 9); rewrite !append_assoc; reflexivity.
    + intros c Hc. apply elem_of_seqZ in Hc. apply Hcells; [left|lia].
Qed.

Lemma rowLine_length b r :
  size b = SIZE -> 1 <= SIZE -> 0 <= r <= 98 ->
  (forall c, 0 <= c < SIZE -> is_Some (cellAt b r c)) ->
  String.length (rowLabel r) = 3%nat /\
  Z.of_nat (String.length (rowLine b r)) = 2 * SIZE + 2.
Proof.
  intros Hsize HSIZE Hr Hcells.
  assert (Hlabel : String.length (rowLabel r) = 3%nat).
  { pose proof (rowLabel_length r "" Hr) as H. cbv zeta in H. unfold rowLabel.
    destruct (r <? 9); rewrite !length_append in *; simpl in *; lia. }
  split; [exact Hlabel|].
  destruct (toStringCells_length b r (Z.to_nat SIZE) 0 (rowLabel r))
    as (text & Htext & Hlen); [lia | intros; apply Hcells; lia |].
  rewrite Z2Nat.id in Htext by lia.
  rewrite toStringCells_joined in Htext;
    [|exact Hsize | intros c Hc; apply elem_of_seqZ in Hc; apply Hcells; lia].
  injection Htext as <-. fold indices in Hlen. fold (rowLine b r) in Hlen.
  destruct (Z.to_nat SIZE) eqn:Hn; lia.
Qed.

Lemma cellText_length (x : option Cell) : String.length (cellText x) = 1%nat.
Proof. destruct x as [[|[|]]|]; reflexivity. Qed.

(** The letter of a column and the cells of the column are at the same
    offset of their lines. *)
Lemma column_offsets b r c :
  0 <= r <= 98 -> 0 <= c < SIZE ->
  String.get (2 * Z.to_nat c + 3) headerLine = String.get 0 (columnLabel c) /\
  String.get (2 * Z.to_nat c + 3) (rowLine b r)
    = String.get 0 (cellText (cellAt b r c)).
Proof.
  intros Hr Hc.
  assert (Hlookup : indices !! Z.to_nat c = Some c).
  { unfold indices. rewrite lookup_seqZ_lt by lia. f_equal. lia. }
  assert (Hbefore : forall j y, (j < Z.to_nat c)%nat -> indices !! j = Some y ->
            y < SIZE - 1).
  { intros j y Hj Hy. apply lookup_seqZ in Hy. lia. }
  split.
  - unfold headerLine.
    rewrite <- (append_correct2 "   " _ (2 * Z.to_nat c)).
    rewrite (get_joined _ 2 indices (Z.to_nat c) c Hlookup);
      [reflexivity | reflexivity | simpl; lia].
  - unfold rowLine.
    replace 3%nat with (String.length (rowLabel r)).
    + rewrite <- append_correct2.
      rewrite (get_joined _ 2 indices (Z.to_nat c) c Hlookup).
      * symmetry. apply append_correct1. rewrite cellText_length. lia.
      * intros j y Hj Hy. pose proof (Hbefore j y Hj Hy).
        destruct (Z.ltb_spec y (SIZE - 1)); [|lia].
        rewrite length_append, cellText_length. reflexivity.
      * rewrite length_append, cellText_length. lia.
    + pose proof (rowLabel_length r "" Hr) as H. cbv zeta in H. unfold rowLabel.
      destruct (r <? 9); rewrite !length_append in *; simpl in *; lia.
Qed.

(** X22.  The layout of [Board.toString].  On a board of the program of
    size 1 to 99 the text is the header line followed by the line of
    every row, each ended by a line break.  The header is three spaces,
    then a letter and a space for every column: [2 * SIZE + 3] characters.
    The line of a row is its number padded to three characters, so that
    one- and two-digit rows line up, then the initial of the color of every
    cell or a space, with a space between two cells: [2 * SIZE + 2]
    characters.  The letter of a column and the cells of that column stand
    at the same offset of their lines. *)
Theorem Board_toString_layout b :
  programBoard b -> 1 <= SIZE <= 99 ->
  Board_toString b = Ret (boardText b) /\
  Z.of_nat (String.length headerLine) = 2 * SIZE + 3 /\
  Z.of_nat (String.length (boardText b)) = (2 * SIZE + 4) + SIZE * (2 * SIZE + 3) /\
  forall r, 0 <= r < SIZE ->
    String.length (rowLabel r) = 3%nat /\
    Z.of_nat (String.length (rowLine b r)) = 2 * SIZE + 2 /\
    forall c, 0 <= c < SIZE ->
      String.get (2 * Z.to_nat c + 3) headerLine = String.get 0 (columnLabel c) /\
      String.get (2 * Z.to_nat c + 3) (rowLine b r)
        = String.get 0 (cellText (cellAt b r c)).
Proof.
  intros Hpb HSIZE. pose proof Hpb as (Hsize & _ & Hcells).
  assert (Htext : Board_toString b = Ret (boardText b)).
  { unfold Board_toString. rewrite toStringRows_joined;
      [|exact Hsize
       |intros r c Hr Hc; apply elem_of_seqZ in Hr; apply Hcells; lia].
    rewrite toStringHeader_joined, Hsize. reflexivity. }
  split; [exact Htext|]. split; [|split].
  - unfold headerLine. rewrite length_append, (length_joined _ 2).
    + unfold indices. rewrite length_seqZ. simpl String.length. lia.
    + intros c _. reflexivity.
  - destruct (Board_toString_length b Hpb HSIZE) as (text & Htext' & Hlen).
    rewrite Htext in Htext'. injection Htext' as <-. exact Hlen.
  - intros r Hr.
    destruct (rowLine_length b r Hsize ltac:(lia) ltac:(lia)) as [Hlabel Hline].
    { intros c Hc. apply Hcells; lia. }
    split; [exact Hlabel|]. split; [exact Hline|].
    intros c Hc. apply column_offsets; lia.
Qed.

End Game.

(** * The sample boards *)

Lemma startingBoard_wf : wf_board 8 startingBoard.
Proof. apply wf_boardb_correct. vm_compute. reflexivity. Qed.

Lemma readmeBoard_wf : wf_board 8 readmeBoard.
Proof. apply wf_boardb_correct. vm_compute. reflexivity. Qed.

Lemma skipBoard_wf : wf_board 4 skipBoard.
Proof. apply wf_boardb_correct. vm_compute. reflexivity. Qed.

(** The board the program starts from, with [SIZE = 8]. *)
Example play_starting_position :
  (b ← constructor 8; placeStartingPieces 8 b) = Ret startingBoard /\
  getScores 8 startingBoard = Ret (2, 2).
Proof. split; vm_compute; reflexivity. Qed.

(** The capture example of the README: black plays [g6], which flips
    [c6], [d6], [e6], [f6] and [f5]. *)
Example readme_capture :
  exists g',
    turn 8 (mkGame readmeBoard (7, 11) BLACK) (mkCoordinate 5 6) = Ret (g', NextPlayer) /\
    board g' = boardOfStrings
      [ "........";
        "........";
        "...WBW..";
        "..WBBWB.";
        ".WBWBB..";
        ".BBBBBB.";
        "........";
        "........" ]%string /\
    scores g' = (13, 6) /\ curPlayer g' = WHITE.
Proof.
  eexists. split; [vm_compute; reflexivity|].
  split; [vm_compute; reflexivity|]. split; reflexivity.
Qed.

(** A skipped turn, the end of a game, and a tie. *)
Example play_skip_and_end :
  (exists g', turn 4 (mkGame skipBoard (2, 2) BLACK) (mkCoordinate 0 2)
              = Ret (g', SkippedTurn) /\ curPlayer g' = BLACK /\ scores g' = (4, 1)) /\
  (exists g', turn 4 (mkGame lastMoveBoard (1, 1) BLACK) (mkCoordinate 0 2)
              = Ret (g', GameOver (Wins BLACK)) /\ scores g' = (3, 0)) /\
  (exists g', turn 4 (mkGame tieBoard (1, 4) BLACK) (mkCoordinate 0 2)
              = Ret (g', GameOver Tie) /\ scores g' = (3, 3)).
Proof.
  repeat split; eexists; (split; [vm_compute; reflexivity|]); repeat split.
Qed.

Lemma lastMoveBoard_wf : wf_board 4 lastMoveBoard.
Proof. apply wf_boardb_correct. vm_compute. reflexivity. Qed.

(** The outcome of [playerHasAnyValidMoves] settles whether a color has a
    legal move. *)
Lemma hasLegalMove_found SIZE b color :
  wf_board SIZE b -> playerHasAnyValidMoves SIZE b color = Ret true ->
  hasLegalMove SIZE b color.
Proof.
  intros Hwf H. destruct (playerHasAnyValidMoves_spec SIZE b color Hwf)
    as (found & Hfound & Hiff).
  apply Hiff. congruence.
Qed.

Lemma hasLegalMove_none SIZE b color :
  wf_board SIZE b -> playerHasAnyValidMoves SIZE b color = Ret false ->
  ~ hasLegalMove SIZE b color.
Proof.
  intros Hwf H Hmove. destruct (playerHasAnyValidMoves_spec SIZE b color Hwf)
    as (found & Hfound & Hiff).
  apply Hiff in Hmove. congruence.
Qed.

(** * The claims at concrete positions *)

(** Black's opening move [e3] on the starting board. *)
Lemma validateMove_legal_iff_witness :
  wf_board 8 startingBoard /\ inBoard 8 2 4 /\
  exists m, validateMove 8 startingBoard (mkCoordinate 2 4) BLACK = Ret m /\
    ((exists cls, m = Some cls /\ cls <> []) <->
     (cellAt startingBoard 2 4 = Some Null /\
      exists d, closes 8 startingBoard BLACK 2 4 d)) /\
    (~ (cellAt startingBoard 2 4 = Some Null /\
        exists d, closes 8 startingBoard BLACK 2 4 d) -> m = None).
Proof.
  split; [apply startingBoard_wf|].
  split; [unfold inBoard; lia|].
  apply (validateMove_legal_iff 8 startingBoard BLACK (mkCoordinate 2 4)).
  - apply startingBoard_wf.
  - unfold inBoard; simpl; lia.
Defined.

Lemma accepted_move_flips_exactly_witness :
  validateMove 8 startingBoard (mkCoordinate 2 4) BLACK
    = Ret (Some [mkClosure Down (4, 2) (4, 4) 1]) /\
  exists b1 g' report,
    writePosition startingBoard 2 4 BLACK = Ret b1 /\
    flipClosures b1 [mkClosure Down (4, 2) (4, 4) 1] BLACK = Ret (board g') /\
    turn 8 startingGame (mkCoordinate 2 4) = Ret (g', report) /\
    report <> InvalidMove /\
    (forall cl r c, cl ∈ [mkClosure Down (4, 2) (4, 4) 1] -> onClosure cl r c ->
       cellAt (board g') r c = Some (Piece BLACK)) /\
    (forall r c, ~ (r = 2 /\ c = 4) ->
       (forall cl, cl ∈ [mkClosure Down (4, 2) (4, 4) 1] -> ~ insideClosure cl r c) ->
       cellAt (board g') r c = cellAt startingBoard r c).
Proof.
  split; [vm_compute; reflexivity|].
  apply (accepted_move_flips_exactly 8 startingGame (mkCoordinate 2 4)
           [mkClosure Down (4, 2) (4, 4) 1]).
  - apply startingBoard_wf.
  - unfold inBoard; simpl; lia.
  - vm_compute; reflexivity.
Defined.

(** Black's move [c1] on [skipBoard]: white has no move on the board it
    leaves and black has one, so the turn of white is skipped. *)
Lemma turn_skip_and_terminal_witness :
  validateMove 4 skipBoard (mkCoordinate 0 2) BLACK
    = Ret (Some [mkClosure Left (2, 0) (0, 0) 1]) /\
  exists b1 g' report,
    writePosition skipBoard 0 2 BLACK = Ret b1 /\
    flipClosures b1 [mkClosure Left (2, 0) (0, 0) 1] BLACK = Ret (board g') /\
    turn 4 skipGame (mkCoordinate 0 2) = Ret (g', report) /\
    board g' = boardOfStrings [ "BBB."; "...."; "...."; "..WB" ]%string /\
    scores g' = (4, 1) /\
    ~ hasLegalMove 4 (board g') WHITE /\ hasLegalMove 4 (board g') BLACK /\
    curPlayer g' = BLACK /\ report = SkippedTurn.
Proof.
  split; [vm_compute; reflexivity|].
  destruct (turn_skip_and_terminal 4 skipGame (mkCoordinate 0 2)
              [mkClosure Left (2, 0) (0, 0) 1])
    as (b1 & g' & report & Hb1 & Hb2 & Hturn & Hscores & _ & Hskip).
  - apply skipBoard_wf.
  - unfold inBoard; simpl; lia.
  - vm_compute; reflexivity.
  - assert (E1 : Ret b1 = Ret (boardOfStrings [ "BWB."; "...."; "...."; "..WB" ]%string))
      by (rewrite <- Hb1; vm_compute; reflexivity).
    injection E1 as ->.
    assert (E2 : Ret (board g')
                 = Ret (boardOfStrings [ "BBB."; "...."; "...."; "..WB" ]%string))
      by (rewrite <- Hb2; vm_compute; reflexivity).
    injection E2 as Hboard.
    assert (Hwf : wf_board 4 (board g'))
      by (rewrite Hboard; apply wf_boardb_correct; vm_compute; reflexivity).
    assert (Hwhite : ~ hasLegalMove 4 (board g') WHITE)
      by (apply (hasLegalMove_none 4 _ WHITE Hwf); rewrite Hboard;
          vm_compute; reflexivity).
    assert (Hblack : hasLegalMove 4 (board g') BLACK)
      by (apply (hasLegalMove_found 4 _ BLACK Hwf); rewrite Hboard;
          vm_compute; reflexivity).
    destruct (Hskip Hwhite) as (Hplayer & Hskipped & _).
    exists (boardOfStrings [ "BWB."; "...."; "...."; "..WB" ]%string), g', report.
    split; [exact Hb1|]. split; [exact Hb2|]. split; [exact Hturn|].
    split; [exact Hboard|].
    split; [rewrite Hscores, Hboard; vm_compute; reflexivity|].
    split; [exact Hwhite|]. split; [exact Hblack|].
    split; [exact Hplayer|exact (Hskipped Hblack)].
Defined.

Lemma accepted_move_occupancy_witness :
  validateMove 8 startingBoard (mkCoordinate 2 4) BLACK
    = Ret (Some [mkClosure Down (4, 2) (4, 4) 1]) /\
  exists b1 g' report,
    writePosition startingBoard 2 4 BLACK = Ret b1 /\
    flipClosures b1 [mkClosure Down (4, 2) (4, 4) 1] BLACK = Ret (board g') /\
    turn 8 startingGame (mkCoordinate 2 4) = Ret (g', report) /\
    occupiedCells 8 b1 = occupiedCells 8 startingBoard + 1 /\
    occupiedCells 8 (board g') = occupiedCells 8 startingBoard + 1 /\
    (scores g').1 + (scores g').2 = occupiedCells 8 startingBoard + 1 /\
    (forall r c, isOccupied (cellAt (board g') r c) = isOccupied (cellAt b1 r c)).
Proof.
  split; [vm_compute; reflexivity|].
  apply (accepted_move_occupancy 8 startingGame (mkCoordinate 2 4)
           [mkClosure Down (4, 2) (4, 4) 1]).
  - apply startingBoard_wf.
  - unfold inBoard; simpl; lia.
  - vm_compute; reflexivity.
Defined.

(** The README's board size passes the check of the constructor. *)
Lemma constructor_size_check_witness :
  0 <= 8 <= 26 /\
  exists b, constructor 8 = Ret b /\ size b = 8 /\
    forall r c, cellAt b r c =
      if bool_decide (0 <= r < 8 /\ 0 <= c < 8) then Some Null else None.
Proof.
  split; [lia|]. apply (proj1 (constructor_size_check 8)). lia.
Defined.

(** C7, the counterexample.  Size 0 is outside [1, 26] and the constructor
    returns a board, the empty one. *)
Lemma constructor_accepts_size_zero :
  ~ (1 <= 0 <= 26) /\ constructor 0 = Ret (mkBoard 0 ∅).
Proof. split; [lia | reflexivity]. Qed.

(** Black's move on [d4], which holds a piece. *)
Lemma rejected_move_unchanged_witness :
  cellAt startingBoard 3 3 <> Some Null /\
  validateMove 8 startingBoard (mkCoordinate 3 3) BLACK = Ret None /\
  turn 8 startingGame (mkCoordinate 3 3) = Ret (startingGame, InvalidMove).
Proof.
  split; [vm_compute; discriminate|].
  apply (proj2 (rejected_move_unchanged 8 startingGame (mkCoordinate 3 3))).
  - apply startingBoard_wf.
  - unfold inBoard; simpl; lia.
  - left. vm_compute. discriminate.
Defined.

Lemma playerHasAnyValidMoves_agrees_witness :
  wf_board 8 startingBoard /\
  exists found moves,
    playerHasAnyValidMoves 8 startingBoard BLACK = Ret found /\
    getAllValidMoves 8 startingBoard BLACK = Ret moves /\
    (found = true <-> moves <> []).
Proof.
  split; [apply startingBoard_wf|].
  apply (playerHasAnyValidMoves_agrees 8 startingBoard BLACK).
  apply startingBoard_wf.
Defined.

Lemma checkForClosure_terminates_witness :
  inBoard 8 2 4 /\
  (forall s s', scanCond 8 BLACK s = true ->
     scanBody 8 startingBoard BLACK Down s = Ret s' ->
     1 <= edgeDistance 8 Down (checkRow s) (checkCol s) <= 8 /\
     edgeDistance 8 Down (checkRow s') (checkCol s') =
       edgeDistance 8 Down (checkRow s) (checkCol s) - 1) /\
  scanLoop 8 (Z.to_nat 8) startingBoard BLACK (mkCoordinate 2 4) Down <> Diverge /\
  (forall n, (Z.to_nat 8 <= n)%nat ->
     scanLoop 8 n startingBoard BLACK (mkCoordinate 2 4) Down =
     scanLoop 8 (Z.to_nat 8) startingBoard BLACK (mkCoordinate 2 4) Down) /\
  checkForClosure 8 startingBoard BLACK (mkCoordinate 2 4) Down <> Diverge.
Proof.
  split; [unfold inBoard; lia|].
  apply (checkForClosure_terminates 8 startingBoard BLACK (mkCoordinate 2 4) Down).
  unfold inBoard; simpl; lia.
Defined.

(** C5, on the code.  With [SIZE = 8], after black's [e3] and white's [d3]
    from the starting position, a draw of 0 makes black's automatic move
    [c2], whose closure flips one piece, although the legal move [c3] flips
    two: the choice is not among the moves of maximal flip count. *)
Theorem autoMove_not_greedy :
  (exists g1 g2,
     turn 8 startingGame (mkCoordinate 2 4) = Ret (g1, NextPlayer) /\
     turn 8 g1 (mkCoordinate 2 3) = Ret (g2, NextPlayer) /\
     board g2 = thirdMoveBoard /\ curPlayer g2 = BLACK) /\
  autoMove 8 thirdMoveBoard BLACK 0 = Ret (mkCoordinate 1 2) /\
  (exists cls, validateMove 8 thirdMoveBoard (mkCoordinate 1 2) BLACK = Ret (Some cls) /\
     totalFlips cls = 1) /\
  (exists cls, validateMove 8 thirdMoveBoard (mkCoordinate 2 2) BLACK = Ret (Some cls) /\
     totalFlips cls = 2).
Proof.
  split.
  { do 2 eexists. split; [vm_compute; reflexivity|].
    split; [vm_compute; reflexivity|]. split; [vm_compute; reflexivity|reflexivity]. }
  split; [vm_compute; reflexivity|].
  split; eexists; (split; [vm_compute; reflexivity|]); reflexivity.
Qed.

(** The same on the board of the README: a draw of 0 picks [c2], one flip,
    where [g6] flips five. *)
Example autoMove_readme :
  autoMove 8 readmeBoard BLACK 0 = Ret (mkCoordinate 1 2) /\
  (exists cls, validateMove 8 readmeBoard (mkCoordinate 1 2) BLACK = Ret (Some cls) /\
     totalFlips cls = 1) /\
  (exists cls, validateMove 8 readmeBoard (mkCoordinate 5 6) BLACK = Ret (Some cls) /\
     totalFlips cls = 5).
Proof.
  split; [vm_compute; reflexivity|].
  split; eexists; (split; [vm_compute; reflexivity|]); reflexivity.
Qed.

(** C6, on the code.  With [SIZE = 8] the token "a9" is accepted with row 8,
    which is off the board, and "ab" is accepted with the row [NaN]: the
    test on the row compares the column with the size a second time. *)
Theorem parseCoordinate_row_unchecked :
  parseCoordinate 8 "a9" = Ret (mkParsed (Num 8) (Num 0)) /\
  parseCoordinate 8 "ab" = Ret (mkParsed NaN (Num 0)) /\
  validateMove 8 startingBoard (mkCoordinate 8 0) BLACK = Throw TypeError.
Proof. repeat split; vm_compute; reflexivity. Qed.

(** * The further properties at concrete positions *)

(** The starting board is a board of the program. *)
Lemma startingBoard_programBoard : programBoard 8 startingBoard.
Proof.
  destruct (starting_board_spec 8 eq_refl ltac:(lia)) as (b0 & b & Hc & Hp & Hpb & _).
  destruct play_starting_position as [Hstart _].
  rewrite Hc, bind_Ret, Hp in Hstart. injection Hstart as <-. exact Hpb.
Qed.

(** The scores of the starting board. *)
Lemma getScores_counts_witness :
  wf_board 8 startingBoard /\
  exists black white,
    getScores 8 startingBoard = Ret (black, white) /\
    black = countColor 8 BLACK startingBoard /\
    white = countColor 8 WHITE startingBoard /\
    0 <= black /\ 0 <= white /\
    black + white = occupiedCells 8 startingBoard /\
    black + white <= Z.max 0 8 * Z.max 0 8.
Proof.
  split; [apply startingBoard_wf|].
  apply (getScores_counts 8 startingBoard). apply startingBoard_wf.
Defined.

(** A board of size 8 without rows. *)
Lemma getScores_missing_row_witness :
  0 <= 0 < 8 /\ getScores 8 (mkBoard 8 ∅) = Throw TypeError.
Proof.
  split; [lia|].
  apply (getScores_missing_row 8 (mkBoard 8 ∅) 0); [lia|reflexivity].
Defined.

(** The closure of black's opening move [e3], downwards to [e5]. *)
Lemma checkForClosure_closure_witness :
  checkForClosure 8 startingBoard BLACK (mkCoordinate 2 4) Down
    = Ret (Some (mkClosure Down (4, 2) (4, 4) 1)) /\
  1 <= 1 <= 8 - 2 /\
  inBoard 8 4 4 /\ cellAt startingBoard 4 4 = Some (Piece BLACK) /\
  (forall i, 1 <= i <= 1 ->
     cellAt startingBoard (2 + i * drow Down) (4 + i * dcol Down)
       = Some (Piece WHITE)).
Proof.
  split; [vm_compute; reflexivity|].
  destruct (checkForClosure_closure 8 startingBoard BLACK 2 4 Down
              (mkClosure Down (4, 2) (4, 4) 1))
    as (_ & _ & Hcount & _ & Hin & Hend & Hrun).
  - apply startingBoard_wf.
  - unfold inBoard; lia.
  - vm_compute; reflexivity.
  - split; [exact Hcount|]. split; [exact Hin|]. split; [exact Hend|exact Hrun].
Defined.

Lemma getClosures_directions_witness :
  ((direction <$> [mkClosure Down (4, 2) (4, 4) 1]) `sublist_of` DIRECTIONS /\
   NoDup (direction <$> [mkClosure Down (4, 2) (4, 4) 1]) /\
   (length [mkClosure Down (4, 2)%Z (4, 4)%Z 1%Z] <= 8)%nat) /\
  exists cls, getClosures 8 startingBoard BLACK (mkCoordinate 2 4) = Ret cls /\
    forall d, d ∈ (direction <$> cls) <-> closes 8 startingBoard BLACK 2 4 d.
Proof.
  destruct (getClosures_directions 8 startingBoard BLACK 2 4) as [Hany Hgame].
  split.
  - apply Hany. vm_compute; reflexivity.
  - apply Hgame; [apply startingBoard_wf | unfold inBoard; lia].
Defined.

Lemma getAllValidMoves_exact_witness :
  wf_board 8 startingBoard /\
  exists moves,
    getAllValidMoves 8 startingBoard BLACK = Ret moves /\
    moves `sublist_of` allCoordinates 8 /\ NoDup moves /\
    forall m, m ∈ moves <->
      inBoard 8 (row m) (col m) /\ legal 8 startingBoard BLACK (row m) (col m).
Proof.
  split; [apply startingBoard_wf|].
  apply (getAllValidMoves_exact 8 startingBoard BLACK). apply startingBoard_wf.
Defined.

Lemma autoMove_legal_witness :
  hasLegalMove 8 startingBoard BLACK /\
  exists m cls,
    autoMove 8 startingBoard BLACK (1 # 3) = Ret m /\
    inBoard 8 (row m) (col m) /\ legal 8 startingBoard BLACK (row m) (col m) /\
    validateMove 8 startingBoard m BLACK = Ret (Some cls).
Proof.
  assert (Hmove : hasLegalMove 8 startingBoard BLACK).
  { apply hasLegalMove_found; [apply startingBoard_wf | vm_compute; reflexivity]. }
  split; [exact Hmove|].
  apply (autoMove_legal 8 startingBoard BLACK (1 # 3)).
  - apply startingBoard_wf.
  - exact Hmove.
  - unfold Qle; simpl; lia.
  - unfold Qlt; simpl; lia.
Defined.

(** White has no move on [lastMoveBoard]. *)
Lemma autoMove_without_move_witness :
  ~ hasLegalMove 4 lastMoveBoard WHITE /\
  autoMove 4 lastMoveBoard WHITE (1 # 3) = Throw TypeError.
Proof.
  assert (Hnone : ~ hasLegalMove 4 lastMoveBoard WHITE).
  { apply hasLegalMove_none; [apply lastMoveBoard_wf | vm_compute; reflexivity]. }
  split; [exact Hnone|].
  apply (autoMove_without_move 4 lastMoveBoard WHITE (1 # 3));
    [apply lastMoveBoard_wf | exact Hnone].
Defined.

(** The token [A1]. *)
Lemma parseCoordinate_upper_case_witness :
  parseCoordinate 8 "A1" = Throw (CoordinateParseException "Column out of bounds").
Proof.
  apply (parseCoordinate_upper_case 8 "A" "1").
  - change (codeOf "A") with 65; lia.
  - simpl; lia.
Defined.

(** Black's move [a1] fills a board of size 4. *)
Lemma full_board_ends_game_witness :
  turn 4 (mkGame (boardOfStrings [".WBB"; "BBBB"; "BBBB"; "BBBW"]%string)
            (13, 2) BLACK) (mkCoordinate 0 0)
    = Ret (mkGame (boardOfStrings ["BBBB"; "BBBB"; "BBBB"; "BBBW"]%string)
             (countColor 4 BLACK (boardOfStrings ["BBBB"; "BBBB"; "BBBB"; "BBBW"]%string),
              countColor 4 WHITE (boardOfStrings ["BBBB"; "BBBB"; "BBBB"; "BBBW"]%string))
             BLACK,
           GameOver (announce
             (countColor 4 BLACK (boardOfStrings ["BBBB"; "BBBB"; "BBBB"; "BBBW"]%string),
              countColor 4 WHITE (boardOfStrings ["BBBB"; "BBBB"; "BBBB"; "BBBW"]%string)))).
Proof.
  apply (full_board_ends_game 4
           (mkGame (boardOfStrings [".WBB"; "BBBB"; "BBBB"; "BBBW"]%string)
              (13, 2) BLACK)
           (mkCoordinate 0 0) [mkClosure Right (0, 0) (2, 0) 1]
           (boardOfStrings ["BWBB"; "BBBB"; "BBBB"; "BBBW"]%string)).
  - apply wf_boardb_correct. vm_compute. reflexivity.
  - unfold inBoard; simpl; lia.
  - vm_compute; reflexivity.
  - vm_compute; reflexivity.
  - vm_compute; reflexivity.
  - intros r c [Hr Hc].
    assert (Er : r = 0 \/ r = 1 \/ r = 2 \/ r = 3) by lia.
    assert (Ec : c = 0 \/ c = 1 \/ c = 2 \/ c = 3) by lia.
    destruct Er as [-> | [-> | [-> | ->]]]; destruct Ec as [-> | [-> | [-> | ->]]];
      vm_compute; discriminate.
Defined.

(** Black's move [c1] on [lastMoveBoard] takes the last white piece. *)
Lemma wiped_out_ends_game_witness :
  turn 4 (mkGame lastMoveBoard (1, 1) BLACK) (mkCoordinate 0 2)
    = Ret (mkGame (boardOfStrings ["BBB."; "...."; "...."; "...."]%string)
             (countColor 4 BLACK (boardOfStrings ["BBB."; "...."; "...."; "...."]%string),
              countColor 4 WHITE (boardOfStrings ["BBB."; "...."; "...."; "...."]%string))
             BLACK,
           GameOver (Wins BLACK)) /\
  countColor 4 WHITE (boardOfStrings ["BBB."; "...."; "...."; "...."]%string) = 0 /\
  1 <= countColor 4 BLACK (boardOfStrings ["BBB."; "...."; "...."; "...."]%string).
Proof.
  apply (wiped_out_ends_game 4 (mkGame lastMoveBoard (1, 1) BLACK)
           (mkCoordinate 0 2) [mkClosure Left (2, 0) (0, 0) 1]
           (boardOfStrings ["BWB."; "...."; "...."; "...."]%string)).
  - apply lastMoveBoard_wf.
  - unfold inBoard; simpl; lia.
  - vm_compute; reflexivity.
  - vm_compute; reflexivity.
  - vm_compute; reflexivity.
  - intros r c [Hr Hc].
    assert (Er : r = 0 \/ r = 1 \/ r = 2 \/ r = 3) by lia.
    assert (Ec : c = 0 \/ c = 1 \/ c = 2 \/ c = 3) by lia.
    destruct Er as [-> | [-> | [-> | ->]]]; destruct Ec as [-> | [-> | [-> | ->]]];
      vm_compute; discriminate.
Defined.

(** Row 9 and column 9 of the starting board. *)
Lemma validateMove_off_board_witness :
  programBoard 8 startingBoard /\
  validateMove 8 startingBoard (mkCoordinate 8 0) BLACK = Throw TypeError /\
  validateMove 8 startingBoard (mkCoordinate 0 8) BLACK = Ret None.
Proof.
  split; [apply startingBoard_programBoard|]. split.
  - apply (validateMove_off_board 8 startingBoard BLACK 8 0);
      [apply startingBoard_programBoard | lia].
  - apply (validateMove_off_board 8 startingBoard BLACK 0 8);
      [apply startingBoard_programBoard | lia | lia].
Defined.

Lemma starting_position_witness :
  Z.even 8 = true /\ 2 <= 8 <= 26 /\
  exists b0 b,
    constructor 8 = Ret b0 /\ placeStartingPieces 8 b0 = Ret b /\
    programBoard 8 b /\
    (forall r c, inBoard 8 r c -> cellAt b r c = Some (startingCell 8 r c)) /\
    getScores 8 b = Ret (2, 2).
Proof.
  split; [reflexivity|]. split; [lia|].
  apply (starting_position 8); [reflexivity|lia].
Defined.

Lemma starting_position_moves_witness :
  Z.even 8 = true /\ 4 <= 8 <= 26 /\
  hasLegalMove 8 startingBoard BLACK /\ hasLegalMove 8 startingBoard WHITE.
Proof.
  split; [reflexivity|]. split; [lia|].
  apply (starting_position_moves 8
           (match constructor 8 with Ret b0 => b0 | _ => startingBoard end)
           startingBoard).
  - reflexivity.
  - lia.
  - vm_compute; reflexivity.
  - vm_compute; reflexivity.
Defined.

(** Black's opening move [e3]: one piece placed, one flipped. *)
Lemma accepted_move_scores_witness :
  validateMove 8 startingBoard (mkCoordinate 2 4) BLACK
    = Ret (Some [mkClosure Down (4, 2) (4, 4) 1]) /\
  exists g' report,
    turn 8 startingGame (mkCoordinate 2 4) = Ret (g', report) /\
    1 <= totalFlips [mkClosure Down (4, 2) (4, 4) 1] /\
    scoreOf BLACK (scores g') =
      countColor 8 BLACK startingBoard + 1
      + totalFlips [mkClosure Down (4, 2) (4, 4) 1] /\
    scoreOf WHITE (scores g') =
      countColor 8 WHITE startingBoard
      - totalFlips [mkClosure Down (4, 2) (4, 4) 1].
Proof.
  split; [vm_compute; reflexivity|].
  apply (accepted_move_scores 8 startingGame (mkCoordinate 2 4)
           [mkClosure Down (4, 2) (4, 4) 1]).
  - apply startingBoard_wf.
  - unfold inBoard; simpl; lia.
  - vm_compute; reflexivity.
Defined.

(** The program stopped for want of an answer after black's [e3]. *)
Lemma play_result_witness :
  exists g,
    play 8 SinglePlayer (fun _ => 0%Q) ["e3"%string] = Ret (AwaitsInput g) /\
    Z.even 8 = true /\ 2 <= 8 <= 26 /\ endsWell 8 SinglePlayer 4 (AwaitsInput g).
Proof.
  eexists. split; [vm_compute; reflexivity|].
  apply (play_result 8 SinglePlayer (fun _ => 0%Q) ["e3"%string]).
  vm_compute; reflexivity.
Defined.

(** A game of size 4 on the autopilot, every draw being 0. *)
Lemma play_autopilot_witness :
  exists g,
    play 4 Networked (fun _ => 0%Q) ["autopilot"%string]
      = Ret (Ended g (announce (scores g))) /\
    endsWell 4 Networked 5 (Ended g (announce (scores g))).
Proof.
  apply (play_autopilot 4 Networked (fun _ => 0%Q) []).
  - reflexivity.
  - lia.
  - intros k. split; [unfold Qle; simpl; lia | unfold Qlt; simpl; lia].
Defined.

(** The answer [a9] on the starting board of size 8. *)
Lemma play_row_off_board_witness :
  parseCoordinate 8 "a9" = Ret (mkParsed (Num 8) (Num 0)) /\
  playLoop 8 1 SinglePlayer (fun _ => 0%Q) 1 ["a9"%string] false startingGame
    = Throw TypeError.
Proof.
  split; [vm_compute; reflexivity|].
  apply (play_row_off_board 8 SinglePlayer (fun _ => 0%Q) 0 1 "a9" [] startingGame
           (mkParsed (Num 8) (Num 0))).
  - apply startingBoard_programBoard.
  - vm_compute; reflexivity.
  - right. exists 8. split; [reflexivity|lia].
Defined.

(** The number of the last row of the largest board. *)
Lemma parseInt_numberToString_witness :
  numberToString 26 = "26"%string /\ parseInt "26" = Num 26.
Proof.
  split; [vm_compute; reflexivity|].
  apply (parseInt_numberToString 26). lia.
Defined.

(** The label [h8] of the last cell of a board of size 8. *)
Lemma parseCoordinate_label_witness :
  (columnLabel 7 +:+ numberToString (7 + 1) = "h8")%string /\
  parseCoordinate 8 "h8" = Ret (mkParsed (Num 7) (Num 7)).
Proof.
  split; [vm_compute; reflexivity|].
  apply (parseCoordinate_label 8 7 7); lia.
Defined.

(** The text of the starting board: nine lines, 172 characters. *)
Lemma Board_toString_layout_witness :
  programBoard 8 startingBoard /\
  headerLine 8 = "   a b c d e f g h "%string /\
  rowLine 8 startingBoard 3 = "4        B W      "%string /\
  Board_toString startingBoard = Ret (boardText 8 startingBoard) /\
  Z.of_nat (String.length (headerLine 8)) = 2 * 8 + 3 /\
  Z.of_nat (String.length (boardText 8 startingBoard))
    = (2 * 8 + 4) + 8 * (2 * 8 + 3) /\
  forall r, 0 <= r < 8 ->
    String.length (rowLabel r) = 3%nat /\
    Z.of_nat (String.length (rowLine 8 startingBoard r)) = 2 * 8 + 2 /\
    forall c, 0 <= c < 8 ->
      String.get (2 * Z.to_nat c + 3) (headerLine 8)
        = String.get 0 (columnLabel c) /\
      String.get (2 * Z.to_nat c + 3) (rowLine 8 startingBoard r)
        = String.get 0 (cellText (cellAt startingBoard r c)).
Proof.
  split; [apply startingBoard_programBoard|].
  split; [vm_compute; reflexivity|]. split; [vm_compute; reflexivity|].
  apply (Board_toString_layout 8 startingBoard);
    [apply startingBoard_programBoard | lia].
Defined.

(** The answer [z1] on the starting board. *)
Lemma play_parse_error_witness :
  parseCoordinate 8 "z1"
    = Throw (CoordinateParseException "Column out of bounds") /\
  playLoop 8 2 SinglePlayer (fun _ => 0%Q) 1 ["z1"%string] false startingGame
    = playLoop 8 1 SinglePlayer (fun _ => 0%Q) 1 [] false startingGame /\
  playLoop 8 2 Networked (fun _ => 0%Q) 1 ["z1"%string] false startingGame
    = Ret (EndedOnParseError startingGame "Column out of bounds").
Proof.
  split; [vm_compute; reflexivity|].
  apply (play_parse_error 8 (fun _ => 0%Q) 1 1 "z1" [] startingGame
           "Column out of bounds").
  - apply startingBoard_programBoard.
  - vm_compute; reflexivity.
  - discriminate.
  - discriminate.
  - discriminate.
Defined.
